(** * The LLM council: ranking parser, rank aggregator and three-stage pipeline

    A shallow embedding of [backend/council.py], of the fan-out of
    [backend/groq_client.py] and of the streaming generator of
    [backend/main.py], with the properties of the specification proved about
    it.

    Conventions of the embedding:
    - a Python [str] is a list of Unicode code points ([N]), so that [len],
      slicing and [chr] count what Python counts;
    - a Python [float] is an IEEE 754 binary64 value of the standard
      library's [spec_float];
    - a [dict] is an association list in insertion order (Python dicts
      iterate in insertion order, and the aggregator's tie-break depends on
      it);
    - an exception is a value [Raise e] of the result type [res];
    - a model invocation is a call to an oracle that sees the calls made so
      far; every call is appended to a log. *)

From Stdlib Require Import String Ascii.
From Stdlib Require Import List NArith ZArith Bool Lia.
From Stdlib Require Import Permutation Sorted SpecFloat.
Import ListNotations.

(** ** Python strings *)

Definition char := N.
Definition str := list char.

(** A string literal of the source (ASCII only) as a list of code points. *)
Definition lit (s : string) : str := map N_of_ascii (list_ascii_of_string s).

Definition char_eqb (c d : char) : bool := N.eqb c d.

Fixpoint str_eqb (s t : str) : bool :=
  match s, t with
  | [], [] => true
  | c :: s', d :: t' => char_eqb c d && str_eqb s' t'
  | _, _ => false
  end.

(** [s.startswith(p)] *)
Fixpoint startswith (p s : str) : bool :=
  match p, s with
  | [], _ => true
  | c :: p', d :: s' => char_eqb c d && startswith p' s'
  | _ :: _, [] => false
  end.

(** [sub in s] *)
Fixpoint contains (sub s : str) : bool :=
  startswith sub s ||
  match s with
  | [] => false
  | _ :: s' => contains sub s'
  end.

(** [s.split(sep)] for a non-empty separator: the occurrences of [sep] are
    found from left to right without overlap; [skip] counts the characters
    of an occurrence still to be passed over, [cur] holds the current part
    reversed. *)
Fixpoint split_go (sep s : str) (skip : nat) (cur : str) : list str :=
  match s with
  | [] => [rev cur]
  | c :: s' =>
      match skip with
      | S k => split_go sep s' k cur
      | O =>
          if startswith sep s
          then rev cur :: split_go sep s' (length sep - 1) []
          else split_go sep s' 0 (c :: cur)
      end
  end.

Definition split (sep s : str) : list str := split_go sep s 0 [].

(** [sep.join(parts)] *)
Fixpoint join (sep : str) (parts : list str) : str :=
  match parts with
  | [] => []
  | [p] => p
  | p :: ps => p ++ sep ++ join sep ps
  end.

(** [str.isspace] of one character, which is also [\s] of [re] on [str]
    patterns and the set [str.strip()] removes. *)
Definition is_space (c : char) : bool :=
  ((9 <=? c) && (c <=? 13) || (28 <=? c) && (c <=? 32) ||
   (c =? 133) || (c =? 160) || (c =? 5760) ||
   (8192 <=? c) && (c <=? 8202) || (c =? 8232) || (c =? 8233) ||
   (c =? 8239) || (c =? 8287) || (c =? 12288))%N.

(** The code points of the digit zero of every decimal digit system
    (general category Nd, Unicode 14.0 as in CPython 3.11): each is followed
    by its digits one to nine. *)
Definition decimal_zeros : list N :=
  [48; 1632; 1776; 1984; 2406; 2534; 2662; 2790; 2918; 3046; 3174; 3302;
   3430; 3558; 3664; 3792; 3872; 4160; 4240; 6112; 6160; 6470; 6608; 6784;
   6800; 6992; 7088; 7232; 7248; 42528; 43216; 43264; 43472; 43504; 43600;
   44016; 65296; 66720; 68912; 69734; 69872; 69942; 70096; 70384; 70736;
   70864; 71248; 71360; 71472; 71904; 72016; 72784; 73040; 73120; 92768;
   92864; 93008; 120782; 120792; 120802; 120812; 120822; 123200; 123632;
   125264; 130032]%N.

(** [\d] of [re] on [str] patterns: any Unicode decimal digit. *)
Definition is_decimal (c : char) : bool :=
  existsb (fun z => (z <=? c) && (c <? z + 10))%N decimal_zeros.

(** [[A-Z]] *)
Definition is_upper_AZ (c : char) : bool := ((65 <=? c) && (c <=? 90))%N.

(** [s.lstrip(chars)], [s.rstrip(chars)] and [s.strip(chars)], the set of
    characters given as a predicate. *)
Fixpoint lstrip (p : char -> bool) (s : str) : str :=
  match s with
  | c :: s' => if p c then lstrip p s' else s
  | [] => []
  end.

Definition rstrip (p : char -> bool) (s : str) : str := rev (lstrip p (rev s)).

Definition strip (p : char -> bool) (s : str) : str := rstrip p (lstrip p s).

(** ** Exceptions *)

Inductive exn := AttributeError | ValueError.

Inductive res (A : Type) :=
| Ok (a : A)
| Raise (e : exn).
Arguments Ok {A} a.
Arguments Raise {A} e.

Definition res_bind {A B} (r : res A) (f : A -> res B) : res B :=
  match r with
  | Ok a => f a
  | Raise e => Raise e
  end.

(** A list comprehension whose element expression can raise. *)
Fixpoint res_map {A B} (f : A -> res B) (l : list A) : res (list B) :=
  match l with
  | [] => Ok []
  | a :: l' =>
      res_bind (f a) (fun b => res_bind (res_map f l') (fun bs => Ok (b :: bs)))
  end.

(** [chr(n)]: [ValueError] outside [range(0x110000)]. *)
Definition chr (n : N) : res char :=
  if (n <? 1114112)%N then Ok n else Raise ValueError.

(** ** Regular expressions

    The fragment of [re] the program uses: literal characters, character
    classes, concatenation and the greedy repetitions [*] and [+] of a
    class. Matching is by backtracking with a continuation, as [re] does:
    a repetition first takes as many characters as it can and gives them
    back one at a time while the rest of the pattern fails. The matcher
    returns the number of characters of the match. *)

Inductive regex :=
| Chr (c : char)
| Class (p : char -> bool)
| Seq (r1 r2 : regex)
| Star (p : char -> bool)
| Plus (p : char -> bool).

Fixpoint star_match (p : char -> bool) (s : str) (n : nat)
    (k : str -> nat -> option nat) : option nat :=
  match s with
  | d :: s' =>
      if p d then
        match star_match p s' (S n) k with
        | Some r => Some r
        | None => k s n
        end
      else k s n
  | [] => k s n
  end.

Fixpoint rmatch (r : regex) (s : str) (n : nat)
    (k : str -> nat -> option nat) : option nat :=
  match r with
  | Chr c =>
      match s with
      | d :: s' => if char_eqb c d then k s' (S n) else None
      | [] => None
      end
  | Class p =>
      match s with
      | d :: s' => if p d then k s' (S n) else None
      | [] => None
      end
  | Seq r1 r2 => rmatch r1 s n (fun s' n' => rmatch r2 s' n' k)
  | Star p => star_match p s n k
  | Plus p =>
      match s with
      | d :: s' => if p d then star_match p s' (S n) k else None
      | [] => None
      end
  end.

(** The length of the match of [r] at the start of [s], if there is one. *)
Definition match_at (r : regex) (s : str) : option nat :=
  rmatch r s 0 (fun _ n => Some n).

(** [re.findall(r, s)] for a pattern without groups: the matched texts from
    left to right, the search resuming where the last match ended. [skip]
    counts the characters of the last match still to be passed over. The
    patterns of this program match ten characters or more; an empty match
    is given one character to advance. *)
Fixpoint findall_go (r : regex) (s : str) (skip : nat) : list str :=
  match s with
  | [] => []
  | _ :: s' =>
      match skip with
      | S k => findall_go r s' k
      | O =>
          match match_at r s with
          | Some n => firstn n s :: findall_go r s' (n - 1)
          | None => findall_go r s' 0
          end
      end
  end.

Definition findall (r : regex) (s : str) : list str := findall_go r s 0.

(** [re.search(r, s)], giving [m.group()] of the match or [None]. *)
Fixpoint search (r : regex) (s : str) : option str :=
  match match_at r s with
  | Some n => Some (firstn n s)
  | None =>
      match s with
      | [] => None
      | _ :: s' => search r s'
      end
  end.

(** A literal string as a pattern followed by [r]. *)
Fixpoint Str (s : str) (r : regex) : regex :=
  match s with
  | [] => r
  | c :: s' => Seq (Chr c) (Str s' r)
  end.

(** ** The ranking parser *)

Definition FINAL_RANKING : str := lit "FINAL RANKING:".

(** [r'Response [A-Z]'] *)
Definition label_re : regex := Str (lit "Response ") (Class is_upper_AZ).

(** [r'\d+\.\s*Response [A-Z]'] *)
Definition numbered_re : regex :=
  Seq (Plus is_decimal) (Seq (Chr 46%N) (Seq (Star is_space) label_re)).

(** [re.search(r'Response [A-Z]', m).group()]: [group] of [None] raises. *)
Definition search_group (r : regex) (m : str) : res str :=
  match search r m with
  | Some g => Ok g
  | None => Raise AttributeError
  end.

Definition parse_ranking_from_text (ranking_text : str) : res (list str) :=
  if contains FINAL_RANKING ranking_text then
    let parts := split FINAL_RANKING ranking_text in
    if 2 <=? length parts then
      let ranking_section := nth 1 parts [] in
      let numbered_matches := findall numbered_re ranking_section in
      match numbered_matches with
      | _ :: _ => res_map (search_group label_re) numbered_matches
      | [] => Ok (findall label_re ranking_section)
      end
    else Ok (findall label_re ranking_text)
  else Ok (findall label_re ranking_text).

(** ** Python floats

    [float] is IEEE 754 binary64 ([prec] 53, [emax] 1024). An [int] enters a
    division with its exact value: [SFdiv] rounds the exact quotient of two
    mantissas of any size to the nearest float, ties to even, which is what
    [int / int] computes. (Python raises [OverflowError] where the quotient
    is beyond the largest float, a mean rank above 1e308; the model gives
    infinity there.) *)

Definition float := spec_float.

Definition float_of_int (z : Z) : float :=
  match z with
  | Z0 => S754_zero false
  | Zpos p => S754_finite false p 0
  | Zneg p => S754_finite true p 0
  end.

(** [a / b] of two [int]s, [b] not zero *)
Definition int_true_div (a b : Z) : float :=
  SFdiv 53 1024 (float_of_int a) (float_of_int b).

(** [x < y] of two [float]s *)
Definition float_lt (x y : float) : bool := SFltb x y.

(** The integer nearest to [n / d] for [d] positive, a tie going to the
    even one. *)
Definition div_half_even (n d : Z) : Z :=
  let q := (n / d)%Z in
  match (2 * (n mod d) ?= d)%Z with
  | Lt => q
  | Gt => (q + 1)%Z
  | Eq => if Z.even q then q else (q + 1)%Z
  end.

(** [round(x, 2)]: the exact value of [x] is rounded to the nearest multiple
    of 1/100, a tie going to the even multiple, and the float nearest to
    that decimal is returned; infinities and NaN are returned as they are. *)
Definition round2 (x : float) : float :=
  match x with
  | S754_finite s m e =>
      let hundredths :=
        match e with
        | Zneg p => div_half_even (Zpos m * 100) (Z.pow_pos 2 p)
        | _ => (Zpos m * 2 ^ e * 100)%Z
        end in
      match hundredths with
      | Zpos k => SFdiv 53 1024 (S754_finite s k 0) (S754_finite false 100 0)
      | _ => S754_zero s
      end
  | _ => x
  end.

(** ** Python dicts, in insertion order *)

Definition dict (V : Type) := list (str * V).

Fixpoint dict_get {V} (d : dict V) (k : str) : option V :=
  match d with
  | [] => None
  | (k', v) :: d' => if str_eqb k' k then Some v else dict_get d' k
  end.

(** [k in d] *)
Definition dict_mem {V} (d : dict V) (k : str) : bool :=
  match dict_get d k with
  | Some _ => true
  | None => false
  end.

(** [d[k] = v]: an existing key keeps its place, a new key goes last. *)
Fixpoint dict_set {V} (d : dict V) (k : str) (v : V) : dict V :=
  match d with
  | [] => [(k, v)]
  | (k', v') :: d' =>
      if str_eqb k' k then (k', v) :: d' else (k', v') :: dict_set d' k v
  end.

(** [{k: v for k, v in pairs}] *)
Definition dict_of_pairs {V} (pairs : list (str * V)) : dict V :=
  fold_left (fun d kv => dict_set d (fst kv) (snd kv)) pairs [].

(** [d[k].append(x)] on a [defaultdict(list)]: a missing key is first
    entered with the empty list. *)
Definition dict_append {V} (d : dict (list V)) (k : str) (x : V) : dict (list V) :=
  match dict_get d k with
  | Some l => dict_set d k (l ++ [x])
  | None => dict_set d k [x]
  end.

(** [enumerate(l, start)] *)
Fixpoint enumerate {A} (l : list A) (start : nat) : list (nat * A) :=
  match l with
  | [] => []
  | a :: l' => (start, a) :: enumerate l' (S start)
  end.

(** [l.sort(key=...)] with the order [lt] on the elements: Python's sort is
    stable and compares with [<] only. An element goes after the elements
    already placed that are not greater than it. *)
Fixpoint sort_insert {A} (lt : A -> A -> bool) (x : A) (l : list A) : list A :=
  match l with
  | [] => [x]
  | y :: l' => if lt x y then x :: l else y :: sort_insert lt x l'
  end.

Definition stable_sort {A} (lt : A -> A -> bool) (l : list A) : list A :=
  fold_left (fun sorted x => sort_insert lt x sorted) l [].

(** ** The records of a run *)

(** An entry of [stage1_results], and the result of stage 3. *)
Record ModelAnswer := { answer_model : str; response : str }.

(** An entry of [stage2_results]. *)
Record JudgeRanking := {
  judge_model : str;
  ranking : str;
  parsed_ranking : list str
}.

Record AggregateEntry := {
  model : str;
  average_rank : float;
  rankings_count : nat
}.

(** ** The rank aggregator *)

(** The inner loop: the positions of one judge's parsed ranking. *)
Definition record_positions (label_to_model : dict str)
    (model_positions : dict (list nat)) (parsed : list str) : dict (list nat) :=
  fold_left
    (fun mp pl =>
       let '(position, label) := pl in
       if dict_mem label_to_model label then
         match dict_get label_to_model label with
         | Some model_name => dict_append mp model_name position
         | None => mp
         end
       else mp)
    (enumerate parsed 1) model_positions.

(** The outer loop over the judges. *)
Fixpoint collect_positions (label_to_model : dict str)
    (model_positions : dict (list nat)) (stage2_results : list JudgeRanking)
    : res (dict (list nat)) :=
  match stage2_results with
  | [] => Ok model_positions
  | r :: rest =>
      res_bind (parse_ranking_from_text (ranking r)) (fun parsed =>
      collect_positions label_to_model
        (record_positions label_to_model model_positions parsed) rest)
  end.

Definition aggregate_entries (model_positions : dict (list nat))
    : list AggregateEntry :=
  flat_map
    (fun mp =>
       let '(m, positions) := mp in
       match positions with
       | [] => []
       | _ :: _ =>
           let avg_rank :=
             int_true_div (Z.of_nat (list_sum positions))
                          (Z.of_nat (length positions)) in
           [{| model := m;
               average_rank := round2 avg_rank;
               rankings_count := length positions |}]
       end)
    model_positions.

Definition calculate_aggregate_rankings (stage2_results : list JudgeRanking)
    (label_to_model : dict str) : res (list AggregateEntry) :=
  res_bind (collect_positions label_to_model [] stage2_results)
    (fun model_positions =>
       Ok (stable_sort
             (fun x y => float_lt (average_rank x) (average_rank y))
             (aggregate_entries model_positions))).

(** ** Model invocations

    [query_model] posts one request and gives the reply or [None]: every
    exception of the transport is caught inside it. The model keeps, of the
    reply, the content the council reads, taken to be a string; of the
    request, the model name, the messages and [max_tokens] (temperature and
    timeout never leave their defaults). The reply is given by an oracle
    that sees everything done so far, and each request is logged. *)

Record Message := { role : str; content : str }.

Record Call := {
  call_model : str;
  call_messages : list Message;
  call_max_tokens : nat
}.

Inductive StorageOp :=
| add_user_message (conversation_id content : str)
| update_conversation_title (conversation_id title : str)
| add_assistant_message (conversation_id : str) (stage1 : list ModelAnswer)
    (stage2 : list JudgeRanking) (stage3 : ModelAnswer).

(** The server-sent events of the streaming endpoint. *)
Inductive Event :=
| stage1_start
| stage1_complete (data : list ModelAnswer)
| stage2_start
| stage2_complete (data : list JudgeRanking) (label_to_model : dict str)
    (aggregate_rankings : list AggregateEntry)
| stage3_start
| stage3_complete (data : ModelAnswer)
| title_complete (title : str)
| complete
| error (message : exn).

(** What a run does to the world, in the order it does it. *)
Inductive Effect :=
| Invoke (c : Call)
| Store (op : StorageOp)
| Yield (e : Event).

Definition Log := list Effect.
Definition Oracle := Log -> Call -> option str.

(** Computations that log effects and may raise. *)
Definition M (A : Type) := Log -> res A * Log.

Definition ret {A} (a : A) : M A := fun log => (Ok a, log).

Definition bind {A B} (m : M A) (f : A -> M B) : M B :=
  fun log =>
    match m log with
    | (Ok a, log') => f a log'
    | (Raise e, log') => (Raise e, log')
    end.

Declare Scope council_scope.
Delimit Scope council_scope with council.
Notation "x <- m ;; k" := (bind m (fun x => k))
  (at level 61, m at next level, right associativity) : council_scope.
Notation "' p <- m ;; k" := (bind m (fun x => let p := x in k))
  (at level 61, p pattern, m at next level, right associativity)
  : council_scope.
Notation "m ;;; k" := (bind m (fun _ => k))
  (at level 61, right associativity) : council_scope.
Open Scope council_scope.

Definition lift {A} (r : res A) : M A := fun log => (r, log).

Definition effect (e : Effect) : M unit := fun log => (Ok tt, log ++ [e]).

(** [try: ... except Exception as e: ...] *)
Definition try_except {A} (body : M A) (handler : exn -> M A) : M A :=
  fun log =>
    match body log with
    | (Ok a, log') => (Ok a, log')
    | (Raise e, log') => handler e log'
    end.

(** A task whose exception, if any, is kept until the task is awaited. *)
Definition run_task {A} (body : M A) : M (res A) :=
  fun log => let '(r, log') := body log in (Ok r, log').

Fixpoint mapM {A B} (f : A -> M B) (l : list A) : M (list B) :=
  match l with
  | [] => ret []
  | a :: l' => b <- f a ;; bs <- mapM f l' ;; ret (b :: bs)
  end.

(** ** Configuration ([backend/config.py]) *)

Definition COUNCIL_MODELS : list str :=
  [lit "llama-3.1-8b-instant"; lit "llama-3.3-70b-versatile";
   lit "openai/gpt-oss-120b"; lit "openai/gpt-oss-20b"].

Definition CHAIRMAN_MODEL : str := lit "llama-3.3-70b-versatile".

Definition nl : str := [10%N].
Definition dq : str := [34%N].

(** The lines of a triple-quoted string. *)
Definition text (lines : list str) : str := join nl lines.

(** [if s:] for an optional string *)
Definition truthy (s : option str) : bool :=
  match s with
  | Some (_ :: _) => true
  | _ => false
  end.

Definition or_empty (s : option str) : str :=
  match s with
  | Some h => h
  | None => []
  end.

(** [s.split()]: the maximal runs of characters that are not whitespace *)
Fixpoint split_ws_go (s cur : str) : list str :=
  match s with
  | [] => match cur with [] => [] | _ :: _ => [rev cur] end
  | c :: s' =>
      if is_space c then
        match cur with
        | [] => split_ws_go s' []
        | _ :: _ => rev cur :: split_ws_go s' []
        end
      else split_ws_go s' (c :: cur)
  end.

Definition split_ws (s : str) : list str := split_ws_go s [].

(** A message of a stored conversation: [stage3] is absent on user
    messages. *)
Record ConvMessage := {
  msg_role : str;
  msg_content : str;
  msg_stage3 : option ModelAnswer
}.

(** [l[-n:]] *)
Definition last_n {A} (n : nat) (l : list A) : list A :=
  skipn (length l - n) l.

Definition format_conversation_history (conversation_messages : list ConvMessage)
    : str :=
  match conversation_messages with
  | [] => lit "No previous conversation history."
  | _ :: _ =>
      let history_lines :=
        flat_map
          (fun msg =>
             if str_eqb (msg_role msg) (lit "user") then
               [lit "User: " ++ msg_content msg]
             else if str_eqb (msg_role msg) (lit "assistant") then
               match msg_stage3 msg with
               | Some stage3 =>
                   let r := response stage3 in
                   let r := if 200 <? length r
                            then firstn 200 r ++ lit "..." else r in
                   [lit "Assistant: " ++ r]
               | None => []
               end
             else [])
          (last_n 6 conversation_messages) in
      join nl history_lines
  end.

Section Council.

Variable invoke : Oracle.

(** ** The fan-out ([backend/groq_client.py]) *)

Definition query_model (model : str) (messages : list Message)
    (max_tokens : nat) : M (option str) :=
  fun log =>
    let c := {| call_model := model; call_messages := messages;
                call_max_tokens := max_tokens |} in
    (Ok (invoke log c), log ++ [Invoke c]).

(** The requests are logged in the order of [models], the order in which
    [gather] starts them and returns their results. *)
Definition query_models_parallel (models : list str) (messages : list Message)
    : M (dict (option str)) :=
  responses <- mapM (fun model => query_model model messages 2048) models ;;
  ret (dict_of_pairs (combine models responses)).

(** ** Stage 1 *)

Definition stage1_messages (user_query : str) (conversation_history : option str)
    : list Message :=
  let system_prompt :=
    if truthy conversation_history then
      text [lit "You are a helpful AI assistant continuing a conversation.";
            [];
            lit "Previous conversation:";
            or_empty conversation_history;
            [];
            lit "Please continue the conversation naturally, considering the context above."]
    else lit "You are a helpful AI assistant." in
  [{| role := lit "system"; content := system_prompt |};
   {| role := lit "user"; content := user_query |}].

Definition stage1_collect_responses (user_query : str)
    (conversation_history : option str) : M (list ModelAnswer) :=
  responses <- query_models_parallel COUNCIL_MODELS
                 (stage1_messages user_query conversation_history) ;;
  ret (flat_map
         (fun mr =>
            match snd mr with
            | Some c => [{| answer_model := fst mr; response := c |}]
            | None => []
            end)
         responses).

(** ** Stage 2 *)

(** [[chr(65 + i) for i in range(n)]] *)
Definition make_labels (n : nat) : res (list char) :=
  res_map (fun i => chr (65 + N.of_nat i)) (seq 0 n).

Definition response_label (label : char) : str := lit "Response " ++ [label].

Definition make_label_to_model (labels : list char)
    (stage1_results : list ModelAnswer) : dict str :=
  dict_of_pairs
    (map (fun lr => (response_label (fst lr), answer_model (snd lr)))
         (combine labels stage1_results)).

Definition ranking_prompt (user_query : str) (labels : list char)
    (stage1_results : list ModelAnswer) (conversation_history : option str)
    : str :=
  let responses_text :=
    join (nl ++ nl)
      (map (fun lr => response_label (fst lr) ++ lit ":" ++ nl ++ response (snd lr))
           (combine labels stage1_results)) in
  let context_note :=
    if truthy conversation_history then
      nl ++ nl ++
      text [lit "IMPORTANT: This is part of an ongoing conversation. ";
            lit "Here is the conversation history for context:";
            or_empty conversation_history;
            [];
            lit "Consider how well each response continues the conversation naturally."]
    else [] in
  text [lit "You are evaluating different responses to the following question:";
        [];
        lit "Question: " ++ user_query;
        context_note;
        [];
        lit "Here are the responses from different models (anonymized):";
        [];
        responses_text;
        [];
        lit "Your task:";
        lit "1. First, evaluate each response individually. For each response, explain what it does well and what it does poorly.";
        lit "2. Consider how well each response understands and continues from the conversation context (if provided).";
        lit "3. Then, at the very end of your response, provide a final ranking.";
        [];
        lit "IMPORTANT: Your final ranking MUST be formatted EXACTLY as follows:";
        lit "- Start with the line " ++ dq ++ lit "FINAL RANKING:" ++ dq ++ lit " (all caps, with colon)";
        lit "- Then list the responses from best to worst as a numbered list";
        lit "- Each line should be: number, period, space, then ONLY the response label (e.g., " ++ dq ++ lit "1. Response A" ++ dq ++ lit ")";
        lit "- Do not add any other text or explanations in the ranking section";
        [];
        lit "Example of the correct format for your ENTIRE response:";
        [];
        lit "Response A provides good detail on X but misses Y...";
        lit "Response B is accurate but lacks depth on Z...";
        lit "Response C offers the most comprehensive answer...";
        [];
        lit "FINAL RANKING:";
        lit "1. Response C";
        lit "2. Response A";
        lit "3. Response B";
        [];
        lit "Now provide your evaluation and ranking:"].

Definition stage2_messages (prompt : str) : list Message :=
  [{| role := lit "system";
      content := lit "You are an evaluator tasked with ranking responses to a question." |};
   {| role := lit "user"; content := prompt |}].

Definition stage2_collect_rankings (user_query : str)
    (stage1_results : list ModelAnswer) (conversation_history : option str)
    : M (list JudgeRanking * dict str) :=
  labels <- lift (make_labels (length stage1_results)) ;;
  let label_to_model := make_label_to_model labels stage1_results in
  let prompt :=
    ranking_prompt user_query labels stage1_results conversation_history in
  responses <- query_models_parallel COUNCIL_MODELS (stage2_messages prompt) ;;
  stage2_results <-
    mapM (fun full_text =>
            parsed <- lift (parse_ranking_from_text (snd full_text)) ;;
            ret {| judge_model := fst full_text;
                   ranking := snd full_text;
                   parsed_ranking := parsed |})
         (flat_map
            (fun mr =>
               match snd mr with
               | Some c => [(fst mr, c)]
               | None => []
               end)
            responses) ;;
  ret (stage2_results, label_to_model).

(** ** Stage 3 *)

(** [x[:500] + "..."] where [x] is longer than 500 characters, else [x] *)
Definition clip500 (x : str) : str :=
  if 500 <? length x then firstn 500 x ++ lit "..." else x.

Definition chairman_prompt (user_query : str)
    (stage1_results : list ModelAnswer) (stage2_results : list JudgeRanking)
    (conversation_history : option str) : str :=
  let stage1_text :=
    join (nl ++ nl)
      (map (fun result =>
              lit "Model: " ++ answer_model result ++ nl ++
              lit "Response: " ++ clip500 (response result))
           stage1_results) in
  let stage2_text :=
    join (nl ++ nl)
      (map (fun result =>
              lit "Model: " ++ judge_model result ++ nl ++
              lit "Ranking: " ++ clip500 (ranking result))
           stage2_results) in
  let context_section :=
    if truthy conversation_history then
      text [[]; lit "CONVERSATION HISTORY:"; or_empty conversation_history; []]
    else [] in
  text [lit "You are the Chairman of an LLM Council. Multiple AI models have provided responses to a user's question, and then ranked each other's responses.";
        [];
        context_section;
        lit "CURRENT QUESTION: " ++ user_query;
        [];
        lit "STAGE 1 - Individual Responses:";
        stage1_text;
        [];
        lit "STAGE 2 - Peer Rankings:";
        stage2_text;
        [];
        lit "Your task as Chairman is to synthesize all of this information into a single, comprehensive, accurate answer to the user's current question. ";
        [];
        lit "IMPORTANT: Consider the conversation history (if provided) and make sure your response:";
        lit "1. Naturally continues from the previous conversation";
        lit "2. Acknowledges or builds upon any relevant context";
        lit "3. Provides a coherent answer that fits within the ongoing dialogue";
        lit "4. Does not repeat information unnecessarily";
        [];
        lit "Provide a clear, well-reasoned final answer that represents the council's collective wisdom and continues the conversation naturally:"].

Definition stage3_messages (prompt : str) : list Message :=
  [{| role := lit "system";
      content := lit "You are the Chairman synthesizing responses from multiple AI models." |};
   {| role := lit "user"; content := prompt |}].

Definition synthesis_error : ModelAnswer :=
  {| answer_model := CHAIRMAN_MODEL;
     response := lit "Error: Unable to generate final synthesis." |}.

Definition stage3_synthesize_final (user_query : str)
    (stage1_results : list ModelAnswer) (stage2_results : list JudgeRanking)
    (conversation_history : option str) : M ModelAnswer :=
  let prompt :=
    chairman_prompt user_query stage1_results stage2_results
      conversation_history in
  r <- query_model CHAIRMAN_MODEL (stage3_messages prompt) 2048 ;;
  match r with
  | None => ret synthesis_error
  | Some c => ret {| answer_model := CHAIRMAN_MODEL; response := c |}
  end.

(** ** The title generator *)

Definition TITLE_MODEL : str := lit "groq/compound-mini".

Definition title_messages (user_query : str) : list Message :=
  let title_prompt :=
    text [lit "Generate a very short title (3-5 words maximum) that summarizes the following question.";
          lit "The title should be concise and descriptive. Do not use quotes or punctuation in the title.";
          [];
          lit "Question: " ++ user_query;
          [];
          lit "Title:"] in
  [{| role := lit "system";
      content := lit "You generate concise titles for questions." |};
   {| role := lit "user"; content := title_prompt |}].

(** The double and the single quote, the characters the second [strip]
    removes. *)
Definition is_quote (c : char) : bool := ((c =? 34) || (c =? 39))%N.

(** What becomes of the content of a successful reply. *)
Definition clean_title (c : str) : str :=
  let title := strip is_space c in
  let title := strip is_quote title in
  let title :=
    if 50 <? length title then firstn 47 title ++ lit "..." else title in
  match title with
  | [] => lit "New Conversation"
  | _ :: _ => title
  end.

Definition generate_conversation_title (user_query : str) : M str :=
  r <- query_model TITLE_MODEL (title_messages user_query) 30 ;;
  match r with
  | None =>
      let words := firstn 4 (split_ws user_query) in
      ret (join (lit " ") words ++ lit "...")
  | Some c => ret (clean_title c)
  end.

(** ** The batch pipeline *)

Record Metadata := {
  meta_label_to_model : dict str;
  meta_aggregate_rankings : list AggregateEntry;
  had_context : bool
}.

Definition all_failed : ModelAnswer :=
  {| answer_model := lit "error";
     response := lit "All models failed to respond. Please try again." |}.

Definition CouncilResult : Type :=
  list ModelAnswer * list JudgeRanking * ModelAnswer * option Metadata.

(** [format_conversation_history(m) if m else None] *)
Definition history_of (conversation_messages : list ConvMessage) : option str :=
  match conversation_messages with
  | [] => None
  | _ :: _ => Some (format_conversation_history conversation_messages)
  end.

Definition run_full_council (user_query : str)
    (conversation_messages : list ConvMessage) : M CouncilResult :=
  let conversation_history := history_of conversation_messages in
  stage1_results <- stage1_collect_responses user_query conversation_history ;;
  match stage1_results with
  | [] => ret ([], [], all_failed, None)
  | _ :: _ =>
      ' (stage2_results, label_to_model) <-
        stage2_collect_rankings user_query stage1_results conversation_history ;;
      aggregate_rankings <-
        lift (calculate_aggregate_rankings stage2_results label_to_model) ;;
      stage3_result <-
        stage3_synthesize_final user_query stage1_results stage2_results
          conversation_history ;;
      let metadata :=
        {| meta_label_to_model := label_to_model;
           meta_aggregate_rankings := aggregate_rankings;
           had_context :=
             match conversation_history with
             | Some _ => true
             | None => false
             end |} in
      ret (stage1_results, stage2_results, stage3_result, Some metadata)
  end.

(** ** The streaming pipeline ([event_generator] of [backend/main.py])

    [messages] is the message list of the conversation as loaded before the
    generator starts. The title task is entered in the log where it is
    created; it runs beside the stages and is awaited after stage 3. *)

Definition event_generator (conversation_id : str)
    (messages : list ConvMessage) (request_content : str) : M unit :=
  try_except
    (effect (Store (add_user_message conversation_id request_content)) ;;;
     let is_first_message := Nat.eqb (length messages) 0 in
     let previous_messages := removelast messages in
     title_task <-
       (if is_first_message
        then t <- run_task (generate_conversation_title request_content) ;;
             ret (Some t)
        else ret None) ;;
     effect (Yield stage1_start) ;;;
     stage1_results <-
       stage1_collect_responses request_content (history_of previous_messages) ;;
     effect (Yield (stage1_complete stage1_results)) ;;;
     effect (Yield stage2_start) ;;;
     ' (stage2_results, label_to_model) <-
       stage2_collect_rankings request_content stage1_results
         (history_of previous_messages) ;;
     aggregate_rankings <-
       lift (calculate_aggregate_rankings stage2_results label_to_model) ;;
     effect (Yield (stage2_complete stage2_results label_to_model
                      aggregate_rankings)) ;;;
     effect (Yield stage3_start) ;;;
     stage3_result <-
       stage3_synthesize_final request_content stage1_results stage2_results
         (history_of previous_messages) ;;
     effect (Yield (stage3_complete stage3_result)) ;;;
     match title_task with
     | Some (Ok title) =>
         effect (Store (update_conversation_title conversation_id title)) ;;;
         effect (Yield (title_complete title))
     | Some (Raise _) => ret tt
     | None => ret tt
     end ;;;
     effect (Store (add_assistant_message conversation_id stage1_results
                      stage2_results stage3_result)) ;;;
     effect (Yield complete))
    (fun e => effect (Yield (error e))).

End Council.

(** ** Notions used in the statements *)

(** A string has a border when a proper non-empty suffix of it is also a
    prefix of it; the occurrences of a string without border cannot
    overlap. *)
Definition border_free (m : str) : bool :=
  forallb (fun k => negb (startswith (skipn k m) m)) (seq 1 (length m - 1)).

(** What a match of the numbered pattern looks like: digits, a full stop,
    whitespace and a label. *)
Definition numbered_item (ds ws : str) (c : char) : str :=
  ds ++ 46%N :: ws ++ response_label c.

(** The label of a numbered match: its last ten characters. *)
Definition label_token (m : str) : str := skipn (length m - 10) m.

(** A judge that announces the marker before using it. *)
Definition announced_marker_pre : str := lit "The FINAL RANKING: follows." ++ nl.
Definition announced_marker_post : str :=
  nl ++ lit "1. Response B" ++ nl ++ lit "2. Response A".

(** The labels the parser finds in a text (the parser has a result on
    every text, see [parse_ranking_never_raises]). *)
Definition parsed_labels (ranking_text : str) : list str :=
  match parse_ranking_from_text ranking_text with
  | Ok labels => labels
  | Raise _ => []
  end.

(** The request [query_model] logs. *)
Definition request (model : str) (messages : list Message) (max_tokens : nat)
    : Call :=
  {| call_model := model; call_messages := messages;
     call_max_tokens := max_tokens |}.

(** The requests of one fan-out, in the order they are logged. *)
Definition fan_out_calls (models : list str) (messages : list Message)
    : Log :=
  map (fun model => Invoke (request model messages 2048)) models.

(** The requests, the stored operations and the events of a log. *)
Definition invocations (log : Log) : list Call :=
  flat_map (fun e => match e with Invoke c => [c] | _ => [] end) log.

Definition stored (log : Log) : list StorageOp :=
  flat_map (fun e => match e with Store op => [op] | _ => [] end) log.

Definition yielded (log : Log) : list Event :=
  flat_map (fun e => match e with Yield ev => [ev] | _ => [] end) log.

(** A request to the chairman: one that carries the chairman's system
    message. The chairman model is also a council member, so the model name
    alone does not tell. *)
Definition is_chairman_call (c : Call) : Prop :=
  exists prompt, call_messages c = stage3_messages prompt.

(** An oracle under which every request fails. *)
Definition no_reply : Oracle := fun _ _ => None.

(** An oracle under which the council answers and ranks, and the chairman
    fails. *)
Definition chairman_down : Oracle :=
  fun _ c =>
    match call_messages c with
    | m :: _ =>
        if str_eqb (content m)
             (lit "You are the Chairman synthesizing responses from multiple AI models.")
        then None
        else Some (lit "FINAL RANKING:" ++ nl ++ lit "1. Response A")
    | [] => None
    end.

(** [n] stage-1 answers, of models named model00, model01, ... *)
Definition sample_answers (n : nat) : list ModelAnswer :=
  map (fun i =>
         {| answer_model :=
              lit "model" ++
              [(48 + N.of_nat (i / 10))%N; (48 + N.of_nat (i mod 10))%N];
            response := lit "An answer." |})
      (seq 0 n).

(** The label of the answer at index [i]: [chr(65 + i)]. *)
Definition label_at (i : nat) : char := (65 + N.of_nat i)%N.

(** The pairs of the registry of [stage1_results], the first answer having
    index [start]. *)
Fixpoint label_pairs (start : nat) (stage1_results : list ModelAnswer)
    : list (str * str) :=
  match stage1_results with
  | [] => []
  | a :: rest =>
      (response_label (label_at start), answer_model a) ::
      label_pairs (S start) rest
  end.

(** The largest number of answers [chr(65 + i)] can label. *)
Definition max_labels : N := 1114047%N.

Definition sample_query : str := lit "Why is the sky blue?".


(** *** The aggregate, stated from the judges' sequences *)

(** The positions that a sequence of indexed labels gives to model [m]:
    those of the labels the registry maps to [m]. *)
Definition positions_among (label_to_model : dict str)
    (indexed : list (nat * str)) (m : str) : list nat :=
  flat_map
    (fun pl =>
       match dict_get label_to_model (snd pl) with
       | Some m' => if str_eqb m' m then [fst pl] else []
       | None => []
       end)
    indexed.

(** The 1-based positions of model [m] in one judge's sequence. *)
Definition judge_positions (label_to_model : dict str) (parsed : list str)
    (m : str) : list nat :=
  positions_among label_to_model (enumerate parsed 1) m.

(** The positions recorded for model [m] over all judges, judge by judge. *)
Definition recorded_positions (label_to_model : dict str)
    (stage2_results : list JudgeRanking) (m : str) : list nat :=
  flat_map
    (fun r => judge_positions label_to_model (parsed_labels (ranking r)) m)
    stage2_results.

(** The judges in whose sequence model [m] has a position. *)
Definition judges_ranking (label_to_model : dict str)
    (stage2_results : list JudgeRanking) (m : str) : list JudgeRanking :=
  filter
    (fun r =>
       match judge_positions label_to_model (parsed_labels (ranking r)) m with
       | [] => false
       | _ :: _ => true
       end)
    stage2_results.

(** The entry of a model with the given positions: their mean as Python
    computes it, rounded to two decimals, and their number. *)
Definition entry_of (m : str) (positions : list nat) : AggregateEntry :=
  {| model := m;
     average_rank :=
       round2 (int_true_div (Z.of_nat (list_sum positions))
                            (Z.of_nat (length positions)));
     rankings_count := length positions |}.

Definition positions_of (model_positions : dict (list nat)) (m : str)
    : list nat :=
  match dict_get model_positions m with
  | Some l => l
  | None => []
  end.

(** What holds of [model_positions] throughout: no key twice, no key with an
    empty list. *)
Definition well_formed (model_positions : dict (list nat)) : Prop :=
  NoDup (map fst model_positions) /\
  forall k l, In (k, l) model_positions -> l <> [].

(** No element is followed by a smaller one. *)
Definition ascending {A} (lt : A -> A -> bool) : list A -> Prop :=
  StronglySorted (fun a b => lt b a = false).

(** [x] comes before [y] in ascending order of [average_rank]. *)
Definition rank_le (x y : AggregateEntry) : Prop :=
  SFleb (average_rank x) (average_rank y) = true.

(** *** The scenarios of the claims *)

(** Three stage-1 answers, labelled A, B and C in this order. *)
Definition three_answers : list ModelAnswer :=
  [{| answer_model := lit "llama-3.1-8b-instant";
      response := lit "The first answer." |};
   {| answer_model := lit "llama-3.3-70b-versatile";
      response := lit "The second answer." |};
   {| answer_model := lit "openai/gpt-oss-120b";
      response := lit "The third answer." |}].

Definition three_registry : dict str :=
  make_label_to_model (map label_at (seq 0 3)) three_answers.

Definition judge_of (judge text : str) : JudgeRanking :=
  {| judge_model := judge; ranking := text;
     parsed_ranking := parsed_labels text |}.

(** The first judge: the marker and three numbered lines. *)
Definition marker_ranking : str :=
  lit "FINAL RANKING:" ++ nl ++ lit "1. Response C" ++ nl ++
  lit "2. Response A" ++ nl ++ lit "3. Response B".

(** The second judge: free text that names A, then C. *)
Definition free_ranking : str :=
  lit "Response A is more complete than Response C.".

(** A judge that names the same answer twice. *)
Definition repeating_ranking : str :=
  lit "Response A is clear. Response A is also correct.".

(** *** Well-formed numbered lines *)

(** The line "<digits>. Response <letter>". *)
Definition numbered_line (ds : str) (c : char) : str :=
  ds ++ lit ". Response " ++ [c].

(** A ranking section made of such lines, each after a line break. *)
Definition numbered_lines (items : list (str * char)) : str :=
  flat_map (fun it => nl ++ numbered_line (fst it) (snd it)) items.

(** The number of a line is a non-empty run of decimal digits, its letter
    an uppercase letter. *)
Definition well_formed_item (it : str * char) : Prop :=
  fst it <> [] /\ forallb is_decimal (fst it) = true /\
  is_upper_AZ (snd it) = true.

(** *** Replies that depend on the request only *)

(** An oracle that gives the same reply to the same request, whatever was
    done before. *)
Definition stateless (invoke : Oracle) : Prop :=
  forall log log' c, invoke log c = invoke log' c.

(** A computation whose result does not depend on the log and that only
    appends to the log. *)
Definition appends {A} (m : M A) : Prop :=
  forall log, m log = (fst (m []), log ++ snd (m [])).

(** ** Notions used in the further properties *)


(** "Response <uppercase letter>" *)
Definition is_label (x : str) : Prop :=
  exists c, is_upper_AZ c = true /\ x = response_label c.

(** Free text that names answers: each item is some text followed by the
    label of a letter. *)
Definition mentions (items : list (str * char)) : str :=
  flat_map (fun it => fst it ++ response_label (snd it)) items.

(** The text before a mention does not itself hold "Response ", and the
    letter is an uppercase letter. *)
Definition well_formed_mention (it : str * char) : Prop :=
  contains (lit "Response ") (fst it) = false /\ is_upper_AZ (snd it) = true.

(** The models the judges' sequences name, judge by judge and in the order
    of each sequence: one per label that the registry knows. *)
Definition named_models (label_to_model : dict str) (labels : list str)
    : list str :=
  flat_map
    (fun label =>
       match dict_get label_to_model label with
       | Some m => [m]
       | None => []
       end)
    labels.

(** The distinct elements of [seen] followed by those of [l], each where it
    first appears. *)
Fixpoint first_seen (seen l : list str) : list str :=
  match l with
  | [] => seen
  | m :: l' =>
      if existsb (fun k => str_eqb k m) seen
      then first_seen seen l'
      else first_seen (seen ++ [m]) l'
  end.

(** The models in the order in which the judges first name them. *)
Definition first_observed (label_to_model : dict str)
    (stage2_results : list JudgeRanking) : list str :=
  first_seen []
    (flat_map
       (fun r => named_models label_to_model (parsed_labels (ranking r)))
       stage2_results).

(** [x] occurs in [l] before an occurrence of [y]. *)
Inductive precedes {A} (x y : A) : list A -> Prop :=
| precedes_here (l : list A) : In y l -> precedes x y (x :: l)
| precedes_later (z : A) (l : list A) :
    precedes x y l -> precedes x y (z :: l).



(** The replies to the requests of one fan-out: each is what the oracle
    gives after the requests before it. *)
Fixpoint replies (invoke : Oracle) (log : Log) (models : list str)
    (messages : list Message) : list (option str) :=
  match models with
  | [] => []
  | model :: rest =>
      invoke log (request model messages 2048) ::
      replies invoke (log ++ [Invoke (request model messages 2048)]) rest
        messages
  end.

(** The models that replied, with the content of their reply. *)
Definition successful (responses : list (str * option str))
    : list (str * str) :=
  flat_map
    (fun mr => match snd mr with Some c => [(fst mr, c)] | None => [] end)
    responses.

Definition answer_of (mc : str * str) : ModelAnswer :=
  {| answer_model := fst mc; response := snd mc |}.

(** A request to a judge: one that carries the evaluator's system
    message. *)
Definition is_judge_call (c : Call) : Prop :=
  exists prompt, call_messages c = stage2_messages prompt.


(** ** Conversation storage ([backend/storage.py])

    Every conversation is one JSON file under [DATA_DIR]. The model keeps
    the files as a dict from the path to the conversation the file holds:
    the files are those this module wrote, so each holds the five keys of
    [create_conversation], and [json.load] gives back what [json.dump]
    wrote (strings, lists and dicts of strings). Paths are compared as
    strings, the directory of a path exists and reading, writing and
    removing a file do not fail. [datetime.now().isoformat()] is a reading
    of a clock: [isoformat n] is what the clock gives the [n]-th time it is
    read. The debug output of [print] is left out. *)

Inductive StoredMessage :=
| user_message (content timestamp : str)
| assistant_message (stage1 : list ModelAnswer) (stage2 : list JudgeRanking)
    (stage3 : ModelAnswer) (timestamp : str).

Record Conversation := {
  conv_id : str;
  created_at : str;
  conv_title : str;
  conv_messages : list StoredMessage;
  updated_at : str
}.

Record World := { files : dict Conversation; ticks : nat }.

(** [del d[k]] *)
Fixpoint dict_del {V} (d : dict V) (k : str) : dict V :=
  match d with
  | [] => []
  | (k', v) :: d' =>
      if str_eqb k' k then dict_del d' k else (k', v) :: dict_del d' k
  end.

(** [s.endswith(suffix)] *)
Definition endswith (suffix s : str) : bool :=
  startswith (rev suffix) (rev s).

(** [os.path.join(a, b)] of [posixpath] *)
Definition path_join (a b : str) : str :=
  if startswith (lit "/") b then b
  else
    match a with
    | [] => a ++ b
    | _ :: _ => if endswith (lit "/") a then a ++ b else a ++ lit "/" ++ b
    end.

Definition DATA_DIR : str := lit "data/conversations".

(** [conversation["messages"].append(message)], [conversation["title"] =
    title] and [conversation["updated_at"] = t] on a loaded conversation. *)
Definition append_message (message : StoredMessage) (c : Conversation)
    : Conversation :=
  {| conv_id := conv_id c; created_at := created_at c;
     conv_title := conv_title c;
     conv_messages := conv_messages c ++ [message];
     updated_at := updated_at c |}.

Definition set_title (title : str) (c : Conversation) : Conversation :=
  {| conv_id := conv_id c; created_at := created_at c;
     conv_title := title;
     conv_messages := conv_messages c;
     updated_at := updated_at c |}.

Definition set_updated_at (t : str) (c : Conversation) : Conversation :=
  {| conv_id := conv_id c; created_at := created_at c;
     conv_title := conv_title c;
     conv_messages := conv_messages c;
     updated_at := t |}.

Module storage.
Section Clock.

Variable isoformat : nat -> str.

Definition datetime_now (w : World) : str * World :=
  (isoformat (ticks w), {| files := files w; ticks := S (ticks w) |}).

(** [ensure_data_dir] leaves the files as they are. *)
Definition get_conversation_filepath (conversation_id : str) : str :=
  path_join DATA_DIR (conversation_id ++ lit ".json").

(** [with open(filepath, 'w') as f: json.dump(conversation, f, ...)] *)
Definition write_file (filepath : str) (conversation : Conversation)
    (w : World) : World :=
  {| files := dict_set (files w) filepath conversation; ticks := ticks w |}.

Definition create_conversation (conversation_id : str) (w : World)
    : Conversation * World :=
  let '(t1, w) := datetime_now w in
  let '(t2, w) := datetime_now w in
  let conversation :=
    {| conv_id := conversation_id;
       created_at := t1;
       conv_title := lit "New Conversation";
       conv_messages := [];
       updated_at := t2 |} in
  let filepath := get_conversation_filepath conversation_id in
  (conversation, write_file filepath conversation w).

Definition get_conversation (conversation_id : str) (w : World)
    : option Conversation :=
  dict_get (files w) (get_conversation_filepath conversation_id).

Definition save_conversation (conversation_id : str)
    (conversation : Conversation) (w : World) : World :=
  let filepath := get_conversation_filepath conversation_id in
  let '(t, w) := datetime_now w in
  write_file filepath (set_updated_at t conversation) w.

Definition add_user_message (conversation_id content : str) (w : World)
    : bool * World :=
  match get_conversation conversation_id w with
  | None => (false, w)
  | Some conversation =>
      let '(t, w) := datetime_now w in
      let message := user_message content t in
      let conversation := append_message message conversation in
      let '(t', w) := datetime_now w in
      let conversation := set_updated_at t' conversation in
      (true, save_conversation conversation_id conversation w)
  end.

Definition add_assistant_message (conversation_id : str)
    (stage1_results : list ModelAnswer) (stage2_results : list JudgeRanking)
    (stage3_result : ModelAnswer) (w : World) : bool * World :=
  match get_conversation conversation_id w with
  | None => (false, w)
  | Some conversation =>
      let '(t, w) := datetime_now w in
      let message :=
        assistant_message stage1_results stage2_results stage3_result t in
      let conversation := append_message message conversation in
      let '(t', w) := datetime_now w in
      let conversation := set_updated_at t' conversation in
      (true, save_conversation conversation_id conversation w)
  end.

Definition update_conversation_title (conversation_id title : str)
    (w : World) : bool * World :=
  match get_conversation conversation_id w with
  | None => (false, w)
  | Some conversation =>
      let conversation := set_title title conversation in
      let '(t, w) := datetime_now w in
      let conversation := set_updated_at t conversation in
      (true, save_conversation conversation_id conversation w)
  end.

Definition delete_conversation (conversation_id : str) (w : World)
    : bool * World :=
  let filepath := get_conversation_filepath conversation_id in
  if dict_mem (files w) filepath
  then (true, {| files := dict_del (files w) filepath; ticks := ticks w |})
  else (false, w).

End Clock.
End storage.

(** ** The message endpoints ([backend/main.py]) *)

(** A stored message as the council reads it: the role, the content of a
    user message, the stage-3 result of an assistant message. *)
Definition as_conv_message (m : StoredMessage) : ConvMessage :=
  match m with
  | user_message content _ =>
      {| msg_role := lit "user"; msg_content := content;
         msg_stage3 := None |}
  | assistant_message _ _ stage3 _ =>
      {| msg_role := lit "assistant"; msg_content := [];
         msg_stage3 := Some stage3 |}
  end.

Definition loaded_messages (conversation : Conversation)
    : list ConvMessage :=
  map as_conv_message (conv_messages conversation).

(** The response of an endpoint: [HTTPException(status_code=404)], or the
    value returned. *)
Inductive http (A : Type) :=
| HTTP_404
| HTTP_200 (body : A).
Arguments HTTP_404 {A}.
Arguments HTTP_200 {A} body.

Record SendResult := {
  sent_conversation_id : str;
  sent_stage1 : list ModelAnswer;
  sent_stage2 : list JudgeRanking;
  sent_stage3 : ModelAnswer;
  sent_metadata : option Metadata;
  sent_is_first_message : bool
}.

(** [recent_text] of [send_message]: a line for each user message among
    the last three of the loaded conversation. *)
Definition recent_text_of (messages : list ConvMessage) : str :=
  flat_map
    (fun msg =>
       if str_eqb (msg_role msg) (lit "user")
       then lit "User: " ++ msg_content msg ++ nl
       else [])
    (last_n 3 messages).

Section Endpoints.

Variable invoke : Oracle.

(** [conversation] is what [storage.get_conversation(conversation_id)]
    gave when the request came in. *)
Definition send_message (conversation_id : str)
    (conversation : option Conversation) (request_content : str)
    : M (http SendResult) :=
  match conversation with
  | None => ret HTTP_404
  | Some conversation =>
      let messages := loaded_messages conversation in
      let is_first_message := Nat.eqb (length messages) 0 in
      effect (Store (add_user_message conversation_id request_content)) ;;;
      (if is_first_message
       then title <- generate_conversation_title invoke request_content ;;
            effect (Store (update_conversation_title conversation_id title))
       else ret tt) ;;;
      let previous_messages := removelast messages in
      r <- run_full_council invoke request_content previous_messages ;;
      let '(stage1_results, stage2_results, stage3_result, metadata) := r in
      effect (Store (add_assistant_message conversation_id stage1_results
                       stage2_results stage3_result)) ;;;
      (if negb is_first_message &&
          str_eqb (conv_title conversation) (lit "New Conversation")
       then
         let recent_text := recent_text_of messages in
         match recent_text with
         | [] => ret tt
         | _ :: _ =>
             title <- generate_conversation_title invoke recent_text ;;
             effect (Store (update_conversation_title conversation_id title))
         end
       else ret tt) ;;;
      ret (HTTP_200
             {| sent_conversation_id := conversation_id;
                sent_stage1 := stage1_results;
                sent_stage2 := stage2_results;
                sent_stage3 := stage3_result;
                sent_metadata := metadata;
                sent_is_first_message := is_first_message |})
  end.

End Endpoints.

(** *** What a run leaves in the store *)



(** A conversation id that is a file name on any common file system: it is
    short, in ASCII, and holds no separator and no null character. The ids
    that the server makes ([uuid4]) are of this kind. Conversations of
    different such ids are different files where file names are told apart
    byte by byte. *)
Definition file_name (conversation_id : str) : Prop :=
  length conversation_id <= 250 /\
  forall c, In c conversation_id ->
            c <> 47%N /\ c <> 0%N /\ (c < 128)%N.

(** *** A store for the examples *)

(** A clock that reads "T", "T+", "T++", ... *)
Definition sample_clock (n : nat) : str := lit "T" ++ repeat 43%N n.

(** The store after [create_conversation("c1")] on an empty directory. *)
Definition sample_store : World :=
  snd (storage.create_conversation sample_clock (lit "c1")
         {| files := []; ticks := 0 |}).

Definition sample_conversation : Conversation :=
  {| conv_id := lit "c1";
     created_at := lit "T";
     conv_title := lit "New Conversation";
     conv_messages := [];
     updated_at := lit "T+" |}.

(** * Properties *)

(** ** Strings *)

Lemma char_eqb_eq (c d : char) : char_eqb c d = true <-> c = d.
Proof. apply N.eqb_eq. Qed.

Lemma char_eqb_refl (c : char) : char_eqb c c = true.
Proof. apply N.eqb_refl. Qed.

Lemma str_eqb_eq (s t : str) : str_eqb s t = true <-> s = t.
Proof.
  revert t; induction s as [|c s IH]; intros [|d t]; simpl;
    try (split; [discriminate | discriminate]); try tauto.
  rewrite andb_true_iff, char_eqb_eq, IH.
  split; [intros [-> ->]; reflexivity | intros H; inversion H; auto].
Qed.

Lemma str_eqb_refl (s : str) : str_eqb s s = true.
Proof. apply str_eqb_eq; reflexivity. Qed.

Lemma str_eqb_neq (s t : str) : str_eqb s t = false <-> s <> t.
Proof.
  rewrite <- str_eqb_eq. destruct (str_eqb s t); split; congruence.
Qed.

Lemma startswith_spec (p s : str) :
  startswith p s = true <-> exists t, s = p ++ t.
Proof.
  revert s; induction p as [|c p IH]; intros s; simpl.
  - split; [eauto | reflexivity].
  - destruct s as [|d s].
    + split; [discriminate | intros [t H]; discriminate].
    + rewrite andb_true_iff, char_eqb_eq, IH. split.
      * intros [-> [t ->]]. eauto.
      * intros [t H]. inversion H; subst. eauto.
Qed.

Lemma startswith_refl_app (p t : str) : startswith p (p ++ t) = true.
Proof. apply startswith_spec; eauto. Qed.

Lemma contains_unfold (sub s : str) :
  contains sub s =
  startswith sub s || match s with [] => false | _ :: s' => contains sub s' end.
Proof. destruct s; reflexivity. Qed.

Lemma contains_spec (sub s : str) :
  contains sub s = true <-> exists pre post, s = pre ++ sub ++ post.
Proof.
  split.
  - induction s as [|c s IH]; rewrite contains_unfold, orb_true_iff.
    + intros [H | H]; [|discriminate].
      apply startswith_spec in H as [t H]. exists [], t. exact H.
    + intros [H | H].
      * apply startswith_spec in H as [t H]. exists [], t. exact H.
      * destruct (IH H) as (pre & post & ->). exists (c :: pre), post.
        reflexivity.
  - intros (pre & post & ->). induction pre as [|c pre IH].
    + rewrite contains_unfold. simpl. now rewrite startswith_refl_app.
    + change (contains sub (c :: (pre ++ sub ++ post)) = true).
      rewrite contains_unfold, IH. apply orb_true_r.
Qed.

Lemma contains_false_skipn (sub s : str) (i : nat) :
  contains sub s = false -> startswith sub (skipn i s) = false.
Proof.
  revert i; induction s as [|c s IH]; intros i; rewrite contains_unfold;
    intros H; apply orb_false_iff in H as [H1 H2].
  - now rewrite skipn_nil.
  - destruct i; simpl; auto.
Qed.

Lemma startswith_shorter (p s t : str) :
  length p <= length s -> startswith p (s ++ t) = true -> startswith p s = true.
Proof.
  intros Hlen H. apply startswith_spec in H as [u H].
  apply app_eq_app in H as [l [[-> _] | [-> H]]].
  - apply startswith_refl_app.
  - rewrite length_app in Hlen. destruct l; [|simpl in Hlen; lia].
    rewrite app_nil_r. apply startswith_spec. exists []. now rewrite app_nil_r.
Qed.

Lemma FINAL_RANKING_border_free : border_free FINAL_RANKING = true.
Proof. reflexivity. Qed.

Lemma border_free_no_overlap (m x rest : str) :
  border_free m = true -> x <> [] -> length x < length m ->
  startswith m (x ++ m ++ rest) = false.
Proof.
  intros Hb Hx Hlen. destruct (startswith m (x ++ m ++ rest)) eqn:E; auto.
  exfalso. apply startswith_spec in E as [u E].
  apply app_eq_app in E as [l [[-> E] | [E1 E2]]].
  - rewrite length_app in Hlen. lia.
  - unfold border_free in Hb. rewrite forallb_forall in Hb.
    assert (Hin : In (length x) (seq 1 (length m - 1))).
    { apply in_seq. destruct x; [congruence | simpl in *; lia]. }
    apply Hb in Hin. apply negb_true_iff in Hin.
    assert (Hs : skipn (length x) m = l).
    { rewrite E1. rewrite skipn_app, skipn_all, Nat.sub_diag. reflexivity. }
    rewrite Hs in Hin.
    assert (startswith l m = true); [|congruence].
    apply startswith_shorter with (t := rest).
    + rewrite E1, length_app. lia.
    + apply startswith_spec. eauto.
Qed.

(** ** [split] around a single occurrence of the separator *)

Lemma split_go_skip (sep x rest cur : str) :
  split_go sep (x ++ rest) (length x) cur = split_go sep rest 0 cur.
Proof. induction x as [|c x IH]; simpl; auto. Qed.

Lemma split_go_nomatch (sep pre rest cur : str) :
  (forall i, i < length pre -> startswith sep (skipn i (pre ++ rest)) = false) ->
  split_go sep (pre ++ rest) 0 cur = split_go sep rest 0 (rev pre ++ cur).
Proof.
  revert cur; induction pre as [|c pre IH]; intros cur H; [reflexivity|].
  simpl app. cbn [split_go].
  assert (H0 := H 0 ltac:(simpl; lia)). cbn [skipn app] in H0. rewrite H0.
  rewrite IH.
  - simpl rev. now rewrite <- app_assoc.
  - intros i Hi. apply (H (S i)). simpl; lia.
Qed.

Lemma split_go_match (sep rest cur : str) :
  sep <> [] ->
  split_go sep (sep ++ rest) 0 cur = rev cur :: split_go sep rest 0 [].
Proof.
  destruct sep as [|c sep]; [congruence|]. intros _.
  simpl app. cbn [split_go].
  change (c :: sep ++ rest) with ((c :: sep) ++ rest).
  rewrite startswith_refl_app. f_equal.
  replace (length (c :: sep) - 1) with (length sep) by (simpl; lia).
  apply split_go_skip.
Qed.

Lemma split_go_end (sep s cur : str) :
  contains sep s = false -> split_go sep s 0 cur = [rev cur ++ s].
Proof.
  intros H. rewrite <- (app_nil_r s) at 1. rewrite split_go_nomatch.
  - simpl. now rewrite rev_app_distr, rev_involutive.
  - intros i _. rewrite app_nil_r. now apply contains_false_skipn.
Qed.

Lemma split_single (sep pre post : str) :
  sep <> [] -> border_free sep = true ->
  contains sep pre = false -> contains sep post = false ->
  split sep (pre ++ sep ++ post) = [pre; post].
Proof.
  intros Hne Hb Hpre Hpost. unfold split.
  rewrite split_go_nomatch, split_go_match, split_go_end; auto.
  - now rewrite app_nil_r, rev_involutive.
  - intros i Hi. rewrite skipn_app.
    replace (i - length pre) with 0 by lia. cbn [skipn].
    destruct (Nat.le_gt_cases (length sep) (length (skipn i pre))) as [L | L].
    + destruct (startswith sep (skipn i pre ++ sep ++ post)) eqn:E; auto.
      apply startswith_shorter in E; auto.
      now rewrite contains_false_skipn in E.
    + apply border_free_no_overlap; auto.
      intros E. apply (f_equal (@length _)) in E.
      rewrite length_skipn in E. simpl in E. lia.
Qed.

(** ** The matcher *)

Lemma star_match_inv (p : char -> bool) (k : str -> nat -> option nat)
    (s : str) (n r : nat) :
  star_match p s n k = Some r ->
  exists j, j <= length s /\ forallb p (firstn j s) = true /\
            k (skipn j s) (n + j) = Some r.
Proof.
  revert n; induction s as [|d s IH]; intros n; simpl.
  - intros H. exists 0. simpl. rewrite Nat.add_0_r. auto.
  - destruct (p d) eqn:Hd.
    + destruct (star_match p s (S n) k) eqn:E.
      * intros H; inversion H; subst. destruct (IH _ E) as (j & Hj & Hall & Hk).
        exists (S j). simpl. rewrite Hd, Hall.
        replace (n + S j) with (S n + j) by lia. repeat split; auto. lia.
      * intros H. exists 0. simpl. rewrite Nat.add_0_r.
        repeat split; auto. lia.
    + intros H. exists 0. simpl. rewrite Nat.add_0_r. repeat split; auto. lia.
Qed.

Lemma Str_match_inv (p : str) (r' : regex) (k : str -> nat -> option nat)
    (s : str) (n x : nat) :
  rmatch (Str p r') s n k = Some x ->
  exists rest, s = p ++ rest /\ rmatch r' rest (n + length p) k = Some x.
Proof.
  revert s n; induction p as [|c p IH]; intros s n; simpl.
  - intros H. exists s. now rewrite Nat.add_0_r.
  - destruct s as [|d s]; [discriminate|].
    destruct (char_eqb c d) eqn:E; [|discriminate].
    apply char_eqb_eq in E; subst d. intros H.
    destruct (IH _ _ H) as (rest & -> & Hr). exists rest.
    replace (n + S (length p)) with (S n + length p) by lia. auto.
Qed.

Lemma Str_match (p : str) (r' : regex) (k : str -> nat -> option nat)
    (rest : str) (n : nat) :
  rmatch (Str p r') (p ++ rest) n k = rmatch r' rest (n + length p) k.
Proof.
  revert n; induction p as [|c p IH]; intros n; simpl.
  - now rewrite Nat.add_0_r.
  - rewrite char_eqb_refl, IH. f_equal. lia.
Qed.

Lemma label_match_inv (k : str -> nat -> option nat) (s : str) (n x : nat) :
  rmatch label_re s n k = Some x ->
  exists c rest, s = response_label c ++ rest /\ is_upper_AZ c = true /\
                 k rest (n + 10) = Some x.
Proof.
  unfold label_re. intros H. apply Str_match_inv in H as (rest & -> & H).
  simpl in H. destruct rest as [|c rest]; [discriminate|].
  destruct (is_upper_AZ c) eqn:Hc; [|discriminate].
  exists c, rest. unfold response_label. rewrite <- app_assoc.
  repeat split; auto. rewrite <- H. f_equal.
  change (length (lit "Response ")) with 9. lia.
Qed.

Lemma match_at_label_inv (s : str) (n : nat) :
  match_at label_re s = Some n ->
  exists c rest, s = response_label c ++ rest /\ is_upper_AZ c = true /\ n = 10.
Proof.
  intros H. apply label_match_inv in H as (c & rest & -> & Hc & H).
  inversion H. eauto.
Qed.

Lemma match_at_label (c : char) (rest : str) :
  is_upper_AZ c = true -> match_at label_re (response_label c ++ rest) = Some 10.
Proof.
  intros Hc. unfold match_at, label_re, response_label.
  rewrite <- app_assoc, Str_match. simpl. now rewrite Hc.
Qed.

Lemma match_at_label_head (d : char) (s : str) :
  d <> 82%N -> match_at label_re (d :: s) = None.
Proof.
  intros Hd. destruct (match_at label_re (d :: s)) eqn:E; auto.
  apply match_at_label_inv in E as (c & rest & E & _).
  inversion E. congruence.
Qed.

Lemma match_at_numbered_inv (s : str) (n : nat) :
  match_at numbered_re s = Some n ->
  exists ds ws c,
    firstn n s = numbered_item ds ws c /\ n = length (numbered_item ds ws c) /\
    ds <> [] /\ forallb is_decimal ds = true /\
    forallb is_space ws = true /\ is_upper_AZ c = true.
Proof.
  unfold match_at, numbered_re. cbn [rmatch].
  destruct s as [|d s]; [discriminate|].
  destruct (is_decimal d) eqn:Hd; [|discriminate].
  intros H. apply star_match_inv in H as (j & Hj & Hds & H).
  destruct (skipn j s) as [|dot s2] eqn:Es; [discriminate|].
  destruct (char_eqb 46%N dot) eqn:Edot; [|discriminate].
  apply char_eqb_eq in Edot; subst dot.
  apply star_match_inv in H as (j2 & Hj2 & Hws & H).
  apply label_match_inv in H as (c & rest & Er & Hc & H).
  injection H as Hn.
  exists (d :: firstn j s), (firstn j2 s2), c.
  assert (Hs : d :: s =
               numbered_item (d :: firstn j s) (firstn j2 s2) c ++ rest).
  { unfold numbered_item. simpl. f_equal.
    rewrite <- (firstn_skipn j s) at 1. rewrite Es, <- app_assoc. f_equal.
    simpl. f_equal. rewrite <- (firstn_skipn j2 s2) at 1.
    rewrite Er, <- !app_assoc. reflexivity. }
  assert (Hlen : length (numbered_item (d :: firstn j s) (firstn j2 s2) c) = n).
  { unfold numbered_item, response_label. simpl length.
    rewrite !length_app. simpl length. rewrite !length_app. simpl length.
    rewrite !length_firstn. change (length (lit "Response ")) with 9. lia. }
  repeat split; auto.
  - rewrite Hs, <- Hlen. rewrite firstn_app, firstn_all, Nat.sub_diag.
    simpl. now rewrite app_nil_r.
  - discriminate.
  - simpl. now rewrite Hd, Hds.
Qed.

Lemma label_token_numbered_item (ds ws : str) (c : char) :
  label_token (numbered_item ds ws c) = response_label c.
Proof.
  unfold label_token, numbered_item.
  change (ds ++ 46%N :: ws ++ response_label c)
    with (ds ++ [46%N] ++ ws ++ response_label c).
  rewrite !app_assoc. rewrite length_app.
  change (length (response_label c)) with 10.
  rewrite Nat.add_sub, skipn_app, skipn_all, Nat.sub_diag. reflexivity.
Qed.

Lemma search_unfold (r : regex) (s : str) :
  search r s =
  match match_at r s with
  | Some n => Some (firstn n s)
  | None => match s with [] => None | _ :: s' => search r s' end
  end.
Proof. destruct s; reflexivity. Qed.

Lemma search_skip (r : regex) (x s : str) :
  (forall d t, In d x -> match_at r (d :: t) = None) ->
  search r (x ++ s) = search r s.
Proof.
  intros H. induction x as [|d x IH]; [reflexivity|].
  simpl app. rewrite search_unfold, H by (left; reflexivity).
  apply IH. intros; apply H; right; assumption.
Qed.

Lemma is_decimal_not_R (d : char) : is_decimal d = true -> d <> 82%N.
Proof. intros H ->. discriminate. Qed.

Lemma is_space_not_R (d : char) : is_space d = true -> d <> 82%N.
Proof. intros H ->. discriminate. Qed.

Lemma search_label_numbered_item (ds ws : str) (c : char) :
  forallb is_decimal ds = true -> forallb is_space ws = true ->
  is_upper_AZ c = true ->
  search label_re (numbered_item ds ws c) = Some (response_label c).
Proof.
  intros Hds Hws Hc. unfold numbered_item.
  rewrite forallb_forall in Hds, Hws.
  rewrite search_skip.
  2:{ intros d t Hin. apply match_at_label_head, is_decimal_not_R; auto. }
  change (46%N :: ws ++ response_label c)
    with ([46%N] ++ ws ++ response_label c).
  rewrite search_skip.
  2:{ intros d t [<- | []]. apply match_at_label_head. discriminate. }
  rewrite search_skip.
  2:{ intros d t Hin. apply match_at_label_head, is_space_not_R; auto. }
  rewrite search_unfold.
  rewrite <- (app_nil_r (response_label c)) at 1.
  rewrite match_at_label by assumption. reflexivity.
Qed.

(** ** [findall] *)

Lemma findall_go_In (r : regex) (s : str) (skip : nat) (m : str) :
  In m (findall_go r s skip) ->
  exists i n, match_at r (skipn i s) = Some n /\ m = firstn n (skipn i s).
Proof.
  revert skip; induction s as [|c s IH]; intros skip; simpl; [tauto|].
  destruct skip as [|k].
  - destruct (match_at r (c :: s)) as [n|] eqn:E.
    + intros [<- | H].
      * exists 0, n. auto.
      * destruct (IH _ H) as (i & n' & H1 & H2). exists (S i), n'. auto.
    + intros H. destruct (IH _ H) as (i & n' & H1 & H2). exists (S i), n'. auto.
  - intros H. destruct (IH _ H) as (i & n' & H1 & H2). exists (S i), n'. auto.
Qed.

Lemma findall_go_nil (r : regex) (s : str) (skip : nat) :
  (forall i, match_at r (skipn i s) = None) -> findall_go r s skip = [].
Proof.
  revert skip; induction s as [|c s IH]; intros skip H; [reflexivity|].
  simpl. destruct skip.
  - assert (H0 := H 0). cbn [skipn] in H0. rewrite H0.
    apply IH. intros i. apply (H (S i)).
  - apply IH. intros i. apply (H (S i)).
Qed.

Lemma findall_label_shape (s m : str) :
  In m (findall label_re s) ->
  exists c, is_upper_AZ c = true /\ m = response_label c.
Proof.
  intros H. apply findall_go_In in H as (i & n & H & ->).
  apply match_at_label_inv in H as (c & rest & -> & Hc & ->).
  exists c. split; [assumption | reflexivity].
Qed.

Lemma findall_numbered_shape (s m : str) :
  In m (findall numbered_re s) ->
  exists ds ws c,
    m = numbered_item ds ws c /\ ds <> [] /\ forallb is_decimal ds = true /\
    forallb is_space ws = true /\ is_upper_AZ c = true.
Proof.
  intros H. apply findall_go_In in H as (i & n & H & ->).
  apply match_at_numbered_inv in H as (ds & ws & c & H1 & _ & H0 & H2 & H3 & H4).
  exists ds, ws, c. auto.
Qed.

Lemma res_map_ok {A B} (f : A -> res B) (g : A -> B) (l : list A) :
  (forall a, In a l -> f a = Ok (g a)) -> res_map f l = Ok (map g l).
Proof.
  induction l as [|a l IH]; intros H; [reflexivity|]. simpl.
  rewrite H by (left; reflexivity). simpl.
  rewrite IH by (intros; apply H; right; assumption). reflexivity.
Qed.

(** The inner [re.search] always finds the label of a numbered match, so
    the comprehension over the numbered matches does not raise. *)
Lemma numbered_labels_ok (s : str) :
  res_map (search_group label_re) (findall numbered_re s) =
  Ok (map label_token (findall numbered_re s)).
Proof.
  apply res_map_ok. intros m Hm.
  apply findall_numbered_shape in Hm as (ds & ws & c & -> & _ & Hds & Hws & Hc).
  unfold search_group.
  rewrite search_label_numbered_item, label_token_numbered_item; auto.
Qed.

(** The parser is total: it has a result on every text. *)
Lemma parse_ranking_never_raises (ranking_text : str) :
  exists labels, parse_ranking_from_text ranking_text = Ok labels.
Proof.
  unfold parse_ranking_from_text.
  destruct (contains FINAL_RANKING ranking_text); [|eauto].
  destruct (2 <=? length (split FINAL_RANKING ranking_text)); [|eauto].
  destruct (findall numbered_re _) eqn:E; [eauto|].
  rewrite <- E, numbered_labels_ok. eauto.
Qed.

(** ** Well-formed numbered lines are found as they are written *)

Lemma star_match_greedy (p : char -> bool) (k : str -> nat -> option nat)
    (x rest : str) (n r : nat) :
  forallb p x = true ->
  match rest with [] => True | d :: _ => p d = false end ->
  k rest (n + length x) = Some r ->
  star_match p (x ++ rest) n k = Some r.
Proof.
  revert n; induction x as [|d x IH]; intros n Hx Hrest Hk.
  - simpl in *. rewrite Nat.add_0_r in Hk.
    destruct rest as [|d rest]; simpl; [exact Hk|]. now rewrite Hrest.
  - simpl in Hx. apply andb_true_iff in Hx as [Hd Hx].
    simpl. rewrite Hd, (IH (S n)); auto.
    rewrite <- Hk. f_equal. simpl. lia.
Qed.

Lemma match_at_numbered_line (ds : str) (c : char) (rest : str) :
  ds <> [] -> forallb is_decimal ds = true -> is_upper_AZ c = true ->
  match_at numbered_re (numbered_line ds c ++ rest) =
  Some (length (numbered_line ds c)).
Proof.
  intros Hne Hds Hc. destruct ds as [|d ds]; [congruence|].
  simpl in Hds. apply andb_true_iff in Hds as [Hd Hds].
  unfold match_at, numbered_re, numbered_line. cbn [rmatch app].
  rewrite Hd, <- app_assoc.
  apply star_match_greedy; [exact Hds | reflexivity |].
  change (lit ". Response " ++ [c]) with ([46%N; 32%N] ++ response_label c).
  rewrite <- !app_assoc. cbn [app rmatch]. rewrite char_eqb_refl.
  change (32%N :: response_label c ++ rest)
    with ([32%N] ++ response_label c ++ rest).
  apply star_match_greedy; [reflexivity | reflexivity |].
  unfold label_re, response_label. rewrite <- app_assoc, Str_match.
  cbn [app rmatch]. rewrite Hc. f_equal.
  cbn [length]. rewrite !length_app. simpl. lia.
Qed.

Lemma findall_go_skip (r : regex) (x rest : str) :
  findall_go r (x ++ rest) (length x) = findall_go r rest 0.
Proof.
  induction x as [|c x IH]; [reflexivity|].
  destruct rest; simpl in *; auto.
Qed.

Lemma findall_go_cons (r : regex) (c : char) (s : str) :
  findall_go r (c :: s) 0 =
  match match_at r (c :: s) with
  | Some n => firstn n (c :: s) :: findall_go r s (n - 1)
  | None => findall_go r s 0
  end.
Proof. reflexivity. Qed.

Lemma findall_numbered_lines (items : list (str * char)) :
  Forall well_formed_item items ->
  findall numbered_re (numbered_lines items) =
  map (fun it => numbered_line (fst it) (snd it)) items.
Proof.
  unfold findall. induction 1 as [|[ds c] items (Hne & Hds & Hc) _ IH];
    [reflexivity|].
  simpl fst in *; simpl snd in *.
  cbn [numbered_lines flat_map map fst snd]. fold (numbered_lines items).
  unfold nl at 1. rewrite <- app_assoc. cbn [app].
  rewrite findall_go_cons.
  assert (Hnl : forall x, match_at numbered_re (10%N :: x) = None)
    by reflexivity.
  rewrite Hnl.
  pose proof (match_at_numbered_line ds c (numbered_lines items) Hne Hds Hc)
    as Hm.
  destruct (numbered_line ds c) as [|d tl] eqn:El.
  { destruct ds; [congruence | discriminate]. }
  cbn [app] in *. rewrite findall_go_cons, Hm.
  change (d :: tl ++ numbered_lines items)
    with ((d :: tl) ++ numbered_lines items).
  rewrite firstn_app, firstn_all, Nat.sub_diag. cbn [firstn].
  rewrite app_nil_r. f_equal.
  replace (length (d :: tl) - 1) with (length tl) by (simpl; lia).
  rewrite findall_go_skip. exact IH.
Qed.

Lemma contains_In (sub s : str) (c : char) :
  contains sub s = true -> In c sub -> In c s.
Proof.
  intros H Hc. apply contains_spec in H as (pre & post & ->).
  apply in_or_app. right. apply in_or_app. now left.
Qed.

Lemma numbered_lines_no_colon (items : list (str * char)) :
  Forall well_formed_item items -> ~ In 58%N (numbered_lines items).
Proof.
  induction 1 as [|[ds c] items (Hne & Hds & Hc) _ IH]; [simpl; tauto|].
  simpl fst in *; simpl snd in *.
  cbn [numbered_lines flat_map fst snd]. fold (numbered_lines items).
  unfold numbered_line. rewrite <- !app_assoc.
  rewrite !in_app_iff. intros [H | [H | [H | [H | H]]]]; auto.
  - simpl in H. destruct H as [H | []]. discriminate.
  - rewrite forallb_forall in Hds. apply Hds in H. discriminate.
  - vm_compute in H. repeat destruct H as [H | H]; try discriminate; auto.
  - destruct H as [-> | []]. discriminate.
Qed.

Lemma label_token_numbered_line (ds : str) (c : char) :
  label_token (numbered_line ds c) = response_label c.
Proof.
  change (numbered_line ds c) with (numbered_item ds [32%N] c).
  apply label_token_numbered_item.
Qed.

(** ** The ranking parser: claims C2 and C9 *)

(** C2, as stated, fails: the text below contains the marker followed by two
    well-formed numbered lines, and the parser returns no label at all,
    because it reads the section between the first and the second
    occurrence of the marker. *)
Lemma parse_ranking_marker_twice :
  findall numbered_re announced_marker_post =
    [lit "1. Response B"; lit "2. Response A"] /\
  parse_ranking_from_text
    (announced_marker_pre ++ FINAL_RANKING ++ announced_marker_post) = Ok [] /\
  parse_ranking_from_text
    (announced_marker_pre ++ FINAL_RANKING ++ announced_marker_post) <>
    Ok [lit "Response B"; lit "Response A"].
Proof.
  split; [reflexivity|]. split; [reflexivity|]. discriminate.
Qed.

(** After a single occurrence of the marker the parser reads the numbered
    matches of what follows it. *)
Lemma parse_ranking_after_marker (pre post : str) :
  contains FINAL_RANKING pre = false ->
  contains FINAL_RANKING post = false ->
  findall numbered_re post <> [] ->
  parse_ranking_from_text (pre ++ FINAL_RANKING ++ post) =
    Ok (map label_token (findall numbered_re post)).
Proof.
  intros Hpre Hpost Hne. unfold parse_ranking_from_text.
  assert (Hc : contains FINAL_RANKING (pre ++ FINAL_RANKING ++ post) = true)
    by (apply contains_spec; eauto).
  rewrite Hc, split_single; auto using FINAL_RANKING_border_free;
    [|discriminate].
  cbn [length Nat.leb nth].
  destruct (findall numbered_re post) eqn:E; [congruence|].
  rewrite <- E. apply numbered_labels_ok.
Qed.

(** In particular, after a single marker followed by well-formed numbered
    lines and nothing else, the parser returns the labels of the lines,
    line by line. *)
Lemma parse_ranking_numbered_lines (pre : str) (items : list (str * char)) :
  contains FINAL_RANKING pre = false ->
  items <> [] -> Forall well_formed_item items ->
  parse_ranking_from_text (pre ++ FINAL_RANKING ++ numbered_lines items) =
    Ok (map (fun it => response_label (snd it)) items).
Proof.
  intros Hpre Hne Hwf. rewrite parse_ranking_after_marker; auto.
  - rewrite findall_numbered_lines, map_map by assumption. f_equal.
    apply map_ext. intros [ds c]. apply label_token_numbered_line.
  - destruct (contains FINAL_RANKING (numbered_lines items)) eqn:E; auto.
    exfalso. apply (numbered_lines_no_colon items Hwf).
    apply (contains_In _ _ _ E). vm_compute. tauto.
  - rewrite findall_numbered_lines by assumption.
    destruct items; [congruence | discriminate].
Qed.

(** C2 (amended): when the marker occurs exactly once, in a text
    [pre ++ "FINAL RANKING:" ++ post], and [post] has at least one match of
    the numbered pattern (digits, a full stop, optional whitespace,
    "Response" and an uppercase letter), the parser returns the
    "Response <letter>" tokens of those matches, in textual order; whatever
    [pre] mentions is ignored. *)
Theorem parse_ranking_single_marker (pre post : str) :
  contains FINAL_RANKING pre = false ->
  contains FINAL_RANKING post = false ->
  findall numbered_re post <> [] ->
  parse_ranking_from_text (pre ++ FINAL_RANKING ++ post) =
    Ok (map label_token (findall numbered_re post)) /\
  Forall
    (fun m => exists ds ws c,
       m = numbered_item ds ws c /\ ds <> [] /\
       forallb is_decimal ds = true /\ forallb is_space ws = true /\
       is_upper_AZ c = true /\ label_token m = response_label c)
    (findall numbered_re post).
Proof.
  intros Hpre Hpost Hne. split.
  - now apply parse_ranking_after_marker.
  - apply Forall_forall. intros m Hm.
    apply findall_numbered_shape in Hm as (ds & ws & c & -> & H0 & H1 & H2 & H3).
    exists ds, ws, c. rewrite label_token_numbered_item. auto 10.
Qed.

Lemma parse_ranking_single_marker_witness :
  parse_ranking_from_text
    (lit "Response A is short. " ++ FINAL_RANKING ++ announced_marker_post) =
    Ok [lit "Response B"; lit "Response A"].
Proof.
  apply (parse_ranking_single_marker (lit "Response A is short. ")
           announced_marker_post);
    [reflexivity | reflexivity | vm_compute; discriminate].
Defined.

(** C9: a text that contains neither the marker nor any
    "Response <uppercase letter>" is parsed to the empty sequence; the
    parser does not raise. *)
Theorem parse_ranking_nothing_to_find (ranking_text : str) :
  contains FINAL_RANKING ranking_text = false ->
  (forall c, is_upper_AZ c = true ->
             contains (response_label c) ranking_text = false) ->
  parse_ranking_from_text ranking_text = Ok [].
Proof.
  intros Hm Hl. unfold parse_ranking_from_text. rewrite Hm. f_equal.
  apply findall_go_nil. intros i.
  destruct (match_at label_re (skipn i ranking_text)) eqn:E; auto.
  apply match_at_label_inv in E as (c & rest & E & Hc & _).
  assert (H : contains (response_label c) ranking_text = true).
  { apply contains_spec. exists (firstn i ranking_text), rest.
    rewrite <- E. symmetry. apply firstn_skipn. }
  rewrite Hl in H by assumption. discriminate.
Qed.

Lemma contains_app_l (a b s : str) :
  contains (a ++ b) s = true -> contains a s = true.
Proof.
  rewrite !contains_spec. intros (pre & post & ->).
  exists pre, (b ++ post). now rewrite <- app_assoc.
Qed.

Lemma parse_ranking_nothing_to_find_witness :
  parse_ranking_from_text (lit "I cannot rank these responses.") = Ok [].
Proof.
  apply parse_ranking_nothing_to_find; [reflexivity|].
  intros c _.
  destruct (contains (response_label c) (lit "I cannot rank these responses."))
    eqn:E; [|reflexivity].
  apply contains_app_l in E. vm_compute in E. discriminate.
Defined.

(** ** Running the pipeline *)

Lemma parse_ranking_parsed_labels (ranking_text : str) :
  parse_ranking_from_text ranking_text = Ok (parsed_labels ranking_text).
Proof.
  unfold parsed_labels.
  destruct (parse_ranking_never_raises ranking_text) as [l ->]. reflexivity.
Qed.

Section Runs.

Variable invoke : Oracle.

Lemma bind_Ok {A B} (m : M A) (f : A -> M B) (log log' : Log) (a : A) :
  m log = (Ok a, log') -> bind m f log = f a log'.
Proof. unfold bind. now intros ->. Qed.

Lemma query_model_run (model : str) (messages : list Message)
    (max_tokens : nat) (log : Log) :
  query_model invoke model messages max_tokens log =
  (Ok (invoke log (request model messages max_tokens)),
   log ++ [Invoke (request model messages max_tokens)]).
Proof. reflexivity. Qed.

Lemma fan_out_run (models : list str) (messages : list Message) (log : Log) :
  exists responses,
    length responses = length models /\
    mapM (fun model => query_model invoke model messages 2048) models log =
    (Ok responses, log ++ fan_out_calls models messages).
Proof.
  revert log; induction models as [|m models IH]; intros log.
  - exists []. simpl. unfold ret. now rewrite app_nil_r.
  - destruct (IH (log ++ [Invoke (request m messages 2048)]))
      as (rs & Hlen & Hrun).
    exists (invoke log (request m messages 2048) :: rs). split.
    + simpl. now rewrite Hlen.
    + cbn [mapM]. rewrite (@bind_Ok _ _ _ _ _ _ _ (query_model_run _ _ _ _)).
      rewrite (@bind_Ok _ _ _ _ _ _ _ Hrun). unfold ret, fan_out_calls. simpl map.
      now rewrite <- app_assoc.
Qed.

Lemma length_dict_set {V} (d : dict V) (k : str) (v : V) :
  length (dict_set d k v) <= S (length d).
Proof.
  induction d as [|[k' v'] d IH]; simpl; [lia|].
  destruct (str_eqb k' k); simpl; lia.
Qed.

Lemma length_dict_of_pairs {V} (pairs : list (str * V)) :
  length (dict_of_pairs pairs) <= length pairs.
Proof.
  unfold dict_of_pairs.
  assert (G : forall d, length (fold_left
                (fun d kv => dict_set d (fst kv) (snd kv)) pairs d)
              <= length d + length pairs).
  { induction pairs as [|kv pairs IH]; intros d; simpl; [lia|].
    specialize (IH (dict_set d (fst kv) (snd kv))).
    pose proof (length_dict_set d (fst kv) (snd kv)). lia. }
  apply (G []).
Qed.

Lemma length_successes {A B} (f : str * A -> B) (d : dict (option A)) :
  length (flat_map (fun mr => match snd mr with
                              | Some c => [f (fst mr, c)]
                              | None => []
                              end) d) <= length d.
Proof.
  induction d as [|[k [c|]] d IH]; simpl; lia.
Qed.

Lemma query_models_parallel_run (models : list str) (messages : list Message)
    (log : Log) :
  exists responses,
    length responses <= length models /\
    query_models_parallel invoke models messages log =
    (Ok responses, log ++ fan_out_calls models messages).
Proof.
  destruct (fan_out_run models messages log) as (rs & Hlen & Hrun).
  exists (dict_of_pairs (combine models rs)). split.
  - etransitivity; [apply length_dict_of_pairs|].
    rewrite length_combine. lia.
  - unfold query_models_parallel. now rewrite (@bind_Ok _ _ _ _ _ _ _ Hrun).
Qed.

(** Stage 1 does not raise, answers for at most the council's members and
    logs one request per member. *)
Lemma stage1_run (user_query : str) (conversation_history : option str)
    (log : Log) :
  exists stage1_results,
    length stage1_results <= length COUNCIL_MODELS /\
    stage1_collect_responses invoke user_query conversation_history log =
    (Ok stage1_results,
     log ++ fan_out_calls COUNCIL_MODELS
              (stage1_messages user_query conversation_history)).
Proof.
  destruct (query_models_parallel_run COUNCIL_MODELS
              (stage1_messages user_query conversation_history) log)
    as (rs & Hlen & Hrun).
  eexists. split; [|unfold stage1_collect_responses;
                     rewrite (@bind_Ok _ _ _ _ _ _ _ Hrun); reflexivity].
  etransitivity; [|exact Hlen].
  apply (length_successes
           (fun mc => {| answer_model := fst mc; response := snd mc |})).
Qed.

Lemma make_labels_ok (n : nat) :
  (N.of_nat n <= max_labels)%N ->
  make_labels n = Ok (map label_at (seq 0 n)).
Proof.
  intros Hn. unfold make_labels. apply res_map_ok.
  intros i Hi. apply in_seq in Hi. unfold chr, label_at.
  replace (65 + N.of_nat i <? 1114112)%N with true; [reflexivity|].
  symmetry. apply N.ltb_lt. unfold max_labels in Hn. lia.
Qed.

Lemma parse_all_run (replies : list (str * str)) (log : Log) :
  mapM (fun full_text =>
          parsed <- lift (parse_ranking_from_text (snd full_text)) ;;
          ret {| judge_model := fst full_text;
                 ranking := snd full_text;
                 parsed_ranking := parsed |})
       replies log =
  (Ok (map (fun full_text =>
              {| judge_model := fst full_text;
                 ranking := snd full_text;
                 parsed_ranking := parsed_labels (snd full_text) |})
           replies), log).
Proof.
  set (f := fun full_text : str * str => _).
  induction replies as [|r replies IH]; [reflexivity|].
  assert (Hf : f r log =
               (Ok {| judge_model := fst r; ranking := snd r;
                      parsed_ranking := parsed_labels (snd r) |}, log)).
  { unfold f, bind, lift, ret. now rewrite parse_ranking_parsed_labels. }
  cbn [mapM map].
  rewrite (@bind_Ok _ _ _ _ _ _ _ Hf), (@bind_Ok _ _ _ _ _ _ _ IH).
  reflexivity.
Qed.

(** Stage 2 does not raise on a list of answers that [chr] can label. *)
Lemma stage2_run (user_query : str) (stage1_results : list ModelAnswer)
    (conversation_history : option str) (log : Log) :
  (N.of_nat (length stage1_results) <= max_labels)%N ->
  let labels :=
    map label_at (seq 0 (length stage1_results)) in
  exists stage2_results,
    stage2_collect_rankings invoke user_query stage1_results
      conversation_history log =
    (Ok (stage2_results, make_label_to_model labels stage1_results),
     log ++ fan_out_calls COUNCIL_MODELS
              (stage2_messages
                 (ranking_prompt user_query labels stage1_results
                    conversation_history))).
Proof.
  intros Hlen labels. unfold stage2_collect_rankings.
  unfold bind at 1. unfold lift. rewrite (make_labels_ok _ Hlen).
  fold labels.
  destruct (query_models_parallel_run COUNCIL_MODELS
              (stage2_messages
                 (ranking_prompt user_query labels stage1_results
                    conversation_history)) log) as (rs & _ & Hrun).
  rewrite (@bind_Ok _ _ _ _ _ _ _ Hrun). unfold bind. rewrite parse_all_run.
  eexists. reflexivity.
Qed.

Lemma stage3_run (user_query : str) (stage1_results : list ModelAnswer)
    (stage2_results : list JudgeRanking) (conversation_history : option str)
    (log : Log) :
  let c := request CHAIRMAN_MODEL
             (stage3_messages
                (chairman_prompt user_query stage1_results stage2_results
                   conversation_history)) 2048 in
  stage3_synthesize_final invoke user_query stage1_results stage2_results
    conversation_history log =
  (Ok match invoke log c with
      | None => synthesis_error
      | Some r => {| answer_model := CHAIRMAN_MODEL; response := r |}
      end,
   log ++ [Invoke c]).
Proof.
  intros c. unfold stage3_synthesize_final.
  rewrite (@bind_Ok _ _ _ _ _ _ _ (query_model_run _ _ _ _)). fold c.
  destruct (invoke log c); reflexivity.
Qed.

Lemma collect_positions_ok (label_to_model : dict str)
    (stage2_results : list JudgeRanking) (model_positions : dict (list nat)) :
  exists final,
    collect_positions label_to_model model_positions stage2_results = Ok final.
Proof.
  revert model_positions; induction stage2_results as [|r rest IH];
    intros mp; simpl; [eauto|].
  rewrite parse_ranking_parsed_labels. simpl. apply IH.
Qed.

(** The aggregator does not raise. *)
Lemma calculate_aggregate_rankings_ok (stage2_results : list JudgeRanking)
    (label_to_model : dict str) :
  exists aggregate,
    calculate_aggregate_rankings stage2_results label_to_model = Ok aggregate.
Proof.
  unfold calculate_aggregate_rankings.
  destruct (collect_positions_ok label_to_model stage2_results [])
    as [final ->]. simpl. eauto.
Qed.

Lemma COUNCIL_MODELS_labelled (n : nat) :
  n <= length COUNCIL_MODELS -> (N.of_nat n <= max_labels)%N.
Proof. unfold max_labels. simpl. lia. Qed.

(** The batch pipeline always returns: no exception leaves it. When stage 1
    has answers, stage 3 is what the chairman's request gives. *)
Lemma run_full_council_returns (user_query : str)
    (conversation_messages : list ConvMessage) (log : Log) :
  exists s1 s2 s3 md log',
    run_full_council invoke user_query conversation_messages log =
      (Ok (s1, s2, s3, md), log') /\
    (s1 <> [] ->
     exists log3 c,
       is_chairman_call c /\ md <> None /\
       s3 = match invoke log3 c with
            | None => synthesis_error
            | Some r => {| answer_model := CHAIRMAN_MODEL; response := r |}
            end).
Proof.
  unfold run_full_council.
  destruct (stage1_run user_query (history_of conversation_messages) log)
    as (s1 & Hlen & H1).
  rewrite (@bind_Ok _ _ _ _ _ _ _ H1).
  destruct s1 as [|a s1'] eqn:Es1.
  - exists [], [], all_failed, None. eexists. split; [reflexivity|congruence].
  - rewrite <- Es1 in *. clear Es1.
    destruct (stage2_run user_query s1 (history_of conversation_messages)
                (log ++ fan_out_calls COUNCIL_MODELS
                   (stage1_messages user_query
                      (history_of conversation_messages)))
                (COUNCIL_MODELS_labelled _ Hlen)) as (s2 & H2).
    rewrite (@bind_Ok _ _ _ _ _ _ _ H2). cbv beta iota.
    destruct (calculate_aggregate_rankings_ok s2
                (make_label_to_model
                   (map label_at (seq 0 (length s1))) s1))
      as (aggr & Ha).
    unfold bind at 1. unfold lift. rewrite Ha.
    rewrite (@bind_Ok _ _ _ _ _ _ _ (stage3_run _ _ _ _ _)). unfold ret.
    do 5 eexists. split; [reflexivity|]. intros _.
    do 2 eexists. split; [|split; [|reflexivity]].
    + eexists. reflexivity.
    + discriminate.
Qed.

End Runs.

(** ** Claim C1: total failure of stage 1 *)

(** C1: when stage 1 has no successful response, [run_full_council] returns
    the error result (no stage-1 answer, no stage-2 ranking, the message of
    the model "error", no metadata), and the log holds the stage-1 requests
    and nothing after them: neither stage 2 nor stage 3 is invoked. *)
Theorem run_full_council_stage1_empty (invoke : Oracle) (user_query : str)
    (conversation_messages : list ConvMessage) (log : Log) :
  fst (stage1_collect_responses invoke user_query
         (history_of conversation_messages) log) = Ok [] ->
  run_full_council invoke user_query conversation_messages log =
    (Ok ([], [],
         {| answer_model := lit "error";
            response := lit "All models failed to respond. Please try again." |},
         None),
     log ++ fan_out_calls COUNCIL_MODELS
              (stage1_messages user_query (history_of conversation_messages))).
Proof.
  intros H. unfold run_full_council.
  destruct (stage1_run invoke user_query (history_of conversation_messages) log)
    as (s1 & _ & H1).
  rewrite H1 in H. simpl in H. injection H as ->.
  rewrite (@bind_Ok _ _ _ _ _ _ _ H1). reflexivity.
Qed.

Lemma run_full_council_stage1_empty_witness :
  run_full_council no_reply sample_query [] [] =
    (Ok ([], [],
         {| answer_model := lit "error";
            response := lit "All models failed to respond. Please try again." |},
         None),
     [] ++ fan_out_calls COUNCIL_MODELS (stage1_messages sample_query None)).
Proof.
  apply (run_full_council_stage1_empty no_reply sample_query [] []).
  reflexivity.
Defined.

(** ** Claim C7: failure of the chairman *)

(** C7: under an oracle that fails every request to the chairman,
    [stage3_synthesize_final] returns the chairman's record with the fixed
    text "Error: Unable to generate final synthesis.", and
    [run_full_council] returns a result, not an exception; when stage 1 had
    answers, the stage-3 part of that result is the same fixed record and
    the metadata are present. *)
Theorem chairman_failure_is_recovered (invoke : Oracle) :
  (forall log c, is_chairman_call c -> invoke log c = None) ->
  (forall user_query stage1_results stage2_results conversation_history log,
     fst (stage3_synthesize_final invoke user_query stage1_results
            stage2_results conversation_history log) =
     Ok {| answer_model := CHAIRMAN_MODEL;
           response := lit "Error: Unable to generate final synthesis." |}) /\
  (forall user_query conversation_messages log,
     exists s1 s2 s3 md log',
       run_full_council invoke user_query conversation_messages log =
         (Ok (s1, s2, s3, md), log') /\
       (s1 <> [] -> s3 = synthesis_error /\ md <> None)).
Proof.
  intros Hfail. split.
  - intros. rewrite stage3_run. simpl fst.
    rewrite Hfail; [reflexivity|]. eexists. reflexivity.
  - intros.
    destruct (run_full_council_returns invoke user_query conversation_messages
                log) as (s1 & s2 & s3 & md & log' & Hrun & Hs3).
    exists s1, s2, s3, md, log'. split; [exact Hrun|].
    intros Hne. destruct (Hs3 Hne) as (log3 & c & Hc & Hmd & ->).
    rewrite (Hfail _ _ Hc). auto.
Qed.

Lemma chairman_down_fails (log : Log) (c : Call) :
  is_chairman_call c -> chairman_down log c = None.
Proof.
  intros [prompt H]. unfold chairman_down. rewrite H. reflexivity.
Qed.

Lemma chairman_failure_is_recovered_witness :
  fst (stage3_synthesize_final chairman_down sample_query (sample_answers 2)
         [] None []) =
  Ok {| answer_model := CHAIRMAN_MODEL;
        response := lit "Error: Unable to generate final synthesis." |}.
Proof.
  apply (chairman_failure_is_recovered chairman_down chairman_down_fails).
Defined.

(** ** Claim C10: the title of a successful reply *)

Lemma lstrip_spec (p : char -> bool) (s : str) :
  exists l, s = l ++ lstrip p s /\ forallb p l = true /\
            match lstrip p s with a :: _ => p a = false | [] => True end.
Proof.
  induction s as [|c s (l & Hs & Hl & Hhd)]; simpl.
  - exists []. auto.
  - destruct (p c) eqn:Hc.
    + exists (c :: l). simpl. rewrite Hc, Hl. split; [now f_equal | auto].
    + exists []. auto.
Qed.

Lemma rstrip_spec (p : char -> bool) (s : str) :
  exists r, s = rstrip p s ++ r /\ forallb p r = true /\
            match rev (rstrip p s) with a :: _ => p a = false | [] => True end.
Proof.
  unfold rstrip. destruct (lstrip_spec p (rev s)) as (l & Hs & Hl & Hhd).
  exists (rev l). repeat split.
  - rewrite <- rev_app_distr, <- Hs. symmetry. apply rev_involutive.
  - rewrite forallb_forall in *. intros x Hx. apply Hl. now apply in_rev.
  - now rewrite rev_involutive.
Qed.

(** [strip] removes a run of the given characters at each end, and what is
    left neither begins nor ends with one of them. *)
Lemma strip_spec (p : char -> bool) (s : str) :
  exists l r,
    s = l ++ strip p s ++ r /\ forallb p l = true /\ forallb p r = true /\
    match strip p s with a :: _ => p a = false | [] => True end /\
    match rev (strip p s) with a :: _ => p a = false | [] => True end.
Proof.
  unfold strip. destruct (lstrip_spec p s) as (l & Hs & Hl & Hhd).
  destruct (rstrip_spec p (lstrip p s)) as (r & Hs' & Hr & Hlast).
  exists l, r. repeat split; auto.
  - now rewrite <- Hs'.
  - rewrite Hs' in Hhd. destruct (rstrip p (lstrip p s)); simpl in *; auto.
Qed.



(** ** Claim C6: more than 26 answers *)

Lemma dict_get_app {V} (d e : dict V) (k : str) :
  dict_get (d ++ e) k =
  match dict_get d k with
  | Some v => Some v
  | None => dict_get e k
  end.
Proof.
  induction d as [|[k' v'] d IH]; simpl; [reflexivity|].
  destruct (str_eqb k' k); auto.
Qed.

Lemma dict_set_fresh {V} (d : dict V) (k : str) (v : V) :
  dict_get d k = None -> dict_set d k v = d ++ [(k, v)].
Proof.
  induction d as [|[k' v'] d IH]; simpl; [reflexivity|].
  destruct (str_eqb k' k); [discriminate|]. intros H. now rewrite IH.
Qed.

Lemma dict_get_not_In {V} (d : dict V) (k : str) :
  ~ In k (map fst d) -> dict_get d k = None.
Proof.
  induction d as [|[k' v'] d IH]; simpl; [reflexivity|]. intros H.
  destruct (str_eqb k' k) eqn:E.
  - apply str_eqb_eq in E. tauto.
  - apply IH. tauto.
Qed.

Lemma dict_get_In {V} (d : dict V) (k : str) (v : V) :
  NoDup (map fst d) -> In (k, v) d -> dict_get d k = Some v.
Proof.
  induction d as [|[k' v'] d IH]; simpl; [tauto|].
  intros Hnd [H | H]; inversion Hnd; subst.
  - inversion H; subst. now rewrite str_eqb_refl.
  - destruct (str_eqb k' k) eqn:E; auto.
    apply str_eqb_eq in E; subst k'.
    exfalso. apply H2. apply (in_map fst) in H. exact H.
Qed.

(** A comprehension over distinct keys gives the pairs in their order. *)
Lemma dict_of_pairs_NoDup {V} (pairs : list (str * V)) :
  NoDup (map fst pairs) -> dict_of_pairs pairs = pairs.
Proof.
  unfold dict_of_pairs.
  assert (G : forall d,
             (forall k, In k (map fst pairs) -> dict_get d k = None) ->
             NoDup (map fst pairs) ->
             fold_left (fun d kv => dict_set d (fst kv) (snd kv)) pairs d =
             d ++ pairs).
  { induction pairs as [|[k v] pairs IH]; intros d Hd Hnd; simpl.
    - now rewrite app_nil_r.
    - inversion Hnd; subst.
      rewrite dict_set_fresh by (apply Hd; left; reflexivity).
      rewrite IH; auto.
      + now rewrite <- app_assoc.
      + intros k' Hk'. rewrite dict_get_app, Hd by (right; exact Hk').
        simpl. destruct (str_eqb k k') eqn:E; auto.
        apply str_eqb_eq in E; subst. contradiction. }
  intros H. apply (G []); auto.
Qed.

Lemma response_label_inj (c d : char) :
  response_label c = response_label d -> c = d.
Proof.
  unfold response_label. intros H. apply app_inv_head in H. congruence.
Qed.

Lemma label_pairs_combine (stage1_results : list ModelAnswer) (start : nat) :
  map (fun lr => (response_label (fst lr), answer_model (snd lr)))
      (combine (map label_at (seq start (length stage1_results)))
               stage1_results) =
  label_pairs start stage1_results.
Proof.
  revert start; induction stage1_results as [|a rest IH]; intros start;
    simpl; [reflexivity|]. now rewrite IH.
Qed.

Lemma label_pairs_keys (stage1_results : list ModelAnswer) (start : nat)
    (k : str) :
  In k (map fst (label_pairs start stage1_results)) ->
  exists i, start <= i /\ k = response_label (label_at i).
Proof.
  revert start; induction stage1_results as [|a rest IH]; intros start;
    simpl; [tauto|].
  intros [<- | H]; [eauto|].
  destruct (IH _ H) as (i & Hi & ->). exists i. split; [lia | reflexivity].
Qed.

Lemma label_pairs_NoDup (stage1_results : list ModelAnswer) (start : nat) :
  NoDup (map fst (label_pairs start stage1_results)).
Proof.
  revert start; induction stage1_results as [|a rest IH]; intros start;
    simpl; constructor; auto.
  intros H. apply label_pairs_keys in H as (i & Hi & H).
  apply response_label_inj in H. unfold label_at in H. lia.
Qed.

Lemma label_pairs_nth (stage1_results : list ModelAnswer) (start i : nat)
    (a : ModelAnswer) :
  nth_error stage1_results i = Some a ->
  In (response_label (label_at (start + i)), answer_model a)
     (label_pairs start stage1_results).
Proof.
  revert start i; induction stage1_results as [|b rest IH]; intros start i;
    destruct i; simpl; try discriminate.
  - intros H; inversion H; subst. rewrite Nat.add_0_r. now left.
  - intros H. right. rewrite <- Nat.add_succ_comm. now apply IH.
Qed.

(** The registry of stage 2 maps the label of every answer to its model. *)
Lemma make_label_to_model_pairs (stage1_results : list ModelAnswer) :
  make_label_to_model (map label_at (seq 0 (length stage1_results)))
    stage1_results = label_pairs 0 stage1_results.
Proof.
  unfold make_label_to_model. rewrite label_pairs_combine.
  apply dict_of_pairs_NoDup, label_pairs_NoDup.
Qed.

(** C6, as stated, fails: on 27 answers stage 2 does not fail; it returns
    its rankings and a registry in which the 27th answer has the label
    "Response [", the character after Z. *)
Lemma stage2_labels_27_answers :
  fst (stage2_collect_rankings no_reply sample_query (sample_answers 27)
         None []) =
    Ok ([], label_pairs 0 (sample_answers 27)) /\
  dict_get (label_pairs 0 (sample_answers 27)) (lit "Response Z") =
    Some (lit "model25") /\
  dict_get (label_pairs 0 (sample_answers 27)) (lit "Response [") =
    Some (lit "model26").
Proof. repeat split; vm_compute; reflexivity. Qed.

(** C6 (amended): on a list of more than 26 answers (and of at most
    1,114,047, the number [chr(65 + i)] can label) stage 2 does not fail:
    the answer at index [i] gets the label [chr(65 + i)], the registry maps
    "Response <label>" to its model, and from index 26 on the label is not
    an uppercase letter. *)
Theorem stage2_labels_past_Z (invoke : Oracle) (user_query : str)
    (stage1_results : list ModelAnswer) (conversation_history : option str)
    (log : Log) :
  26 < length stage1_results ->
  (N.of_nat (length stage1_results) <= max_labels)%N ->
  make_labels (length stage1_results) =
    Ok (map label_at (seq 0 (length stage1_results))) /\
  (exists stage2_results log',
     stage2_collect_rankings invoke user_query stage1_results
       conversation_history log =
     (Ok (stage2_results, label_pairs 0 stage1_results), log')) /\
  (forall i a,
     nth_error stage1_results i = Some a ->
     dict_get (label_pairs 0 stage1_results) (response_label (label_at i)) =
     Some (answer_model a)) /\
  (forall i, 26 <= i -> is_upper_AZ (label_at i) = false).
Proof.
  intros _ Hmax. split; [now apply make_labels_ok|]. split; [|split].
  - destruct (stage2_run invoke user_query stage1_results
                conversation_history log Hmax) as (s2 & H).
    rewrite make_label_to_model_pairs in H. eauto.
  - intros i a H. apply dict_get_In; [apply label_pairs_NoDup|].
    now apply (label_pairs_nth stage1_results 0 i).
  - intros i Hi. unfold is_upper_AZ, label_at.
    apply andb_false_iff. right. apply N.leb_gt. lia.
Qed.

Lemma stage2_labels_past_Z_witness :
  exists stage2_results log',
    stage2_collect_rankings no_reply sample_query (sample_answers 27) None [] =
    (Ok (stage2_results, label_pairs 0 (sample_answers 27)), log').
Proof.
  apply (stage2_labels_past_Z no_reply sample_query (sample_answers 27) None []).
  - simpl. lia.
  - vm_compute. discriminate.
Defined.

(** ** Claim C4: the streaming pipeline *)

(** C4 fails on the code: a first message whose every request fails. The
    batch pipeline stops after the four requests of stage 1 with the error
    result. The streaming generator has no such check: it goes on to stage
    2 and stage 3, makes their five requests, and ends with [complete]. *)
Lemma stream_continues_after_empty_stage1 :
  fst (stage1_collect_responses no_reply sample_query None []) = Ok [] /\
  run_full_council no_reply sample_query [] [] =
    (Ok ([], [], all_failed, None),
     fan_out_calls COUNCIL_MODELS (stage1_messages sample_query None)) /\
  fst (event_generator no_reply (lit "c1") [] sample_query []) = Ok tt /\
  yielded (snd (event_generator no_reply (lit "c1") [] sample_query [])) =
    [stage1_start; stage1_complete [];
     stage2_start; stage2_complete [] [] [];
     stage3_start; stage3_complete synthesis_error;
     title_complete (lit "Why is the sky..."); complete] /\
  map call_model
    (invocations (snd (event_generator no_reply (lit "c1") [] sample_query []))) =
    [TITLE_MODEL] ++ COUNCIL_MODELS ++ COUNCIL_MODELS ++ [CHAIRMAN_MODEL].
Proof. repeat split; vm_compute; reflexivity. Qed.

(** ** The dictionary of positions *)

Lemma dict_get_set {V} (d : dict V) (k k' : str) (v : V) :
  dict_get (dict_set d k v) k' =
  if str_eqb k k' then Some v else dict_get d k'.
Proof.
  induction d as [|[k0 v0] d IH]; simpl; [reflexivity|].
  destruct (str_eqb k0 k) eqn:E; simpl.
  - apply str_eqb_eq in E; subst k0. destruct (str_eqb k k'); reflexivity.
  - rewrite IH. destruct (str_eqb k0 k') eqn:E0; [|reflexivity].
    apply str_eqb_eq in E0; subst k0.
    destruct (str_eqb k k') eqn:E1; [|reflexivity].
    apply str_eqb_eq in E1; subst k'. now rewrite str_eqb_refl in E.
Qed.

Lemma dict_set_In {V} (d : dict V) (k k' : str) (v l : V) :
  In (k', l) (dict_set d k v) -> (k' = k /\ l = v) \/ In (k', l) d.
Proof.
  induction d as [|[k0 v0] d IH]; simpl.
  - intros [H | []]. inversion H; auto.
  - destruct (str_eqb k0 k) eqn:E; simpl.
    + apply str_eqb_eq in E; subst k0.
      intros [H | H]; [inversion H; auto | auto].
    + intros [H | H]; [auto|]. destruct (IH H); auto.
Qed.

Lemma dict_set_keys {V} (d : dict V) (k : str) (v : V) :
  map fst (dict_set d k v) =
  match dict_get d k with
  | Some _ => map fst d
  | None => map fst d ++ [k]
  end.
Proof.
  induction d as [|[k0 v0] d IH]; simpl; [reflexivity|].
  destruct (str_eqb k0 k) eqn:E; simpl; [reflexivity|].
  rewrite IH. destruct (dict_get d k); reflexivity.
Qed.

Lemma dict_get_Some_In {V} (d : dict V) (k : str) (v : V) :
  dict_get d k = Some v -> In (k, v) d.
Proof.
  induction d as [|[k0 v0] d IH]; simpl; [discriminate|].
  destruct (str_eqb k0 k) eqn:E; auto.
  apply str_eqb_eq in E; subst k0. intros H; inversion H; auto.
Qed.

Lemma dict_get_None_keys {V} (d : dict V) (k : str) :
  dict_get d k = None -> ~ In k (map fst d).
Proof.
  induction d as [|[k0 v0] d IH]; simpl; [tauto|].
  destruct (str_eqb k0 k) eqn:E; [discriminate|].
  apply str_eqb_neq in E. intros H [H' | H']; [congruence | now apply IH].
Qed.

Lemma well_formed_nil : well_formed [].
Proof. split; [constructor | intros k l []]. Qed.

Lemma well_formed_append (mp : dict (list nat)) (k : str) (x : nat) :
  well_formed mp -> well_formed (dict_append mp k x).
Proof.
  intros [Hnd Hne]. unfold dict_append.
  destruct (dict_get mp k) as [l0|] eqn:E; split.
  - now rewrite dict_set_keys, E.
  - intros k' l H. apply dict_set_In in H as [[_ ->] | H]; eauto.
    now destruct l0.
  - rewrite dict_set_keys, E. apply NoDup_app; auto.
    + repeat constructor. simpl; tauto.
    + intros a Ha [<- | []]. now apply dict_get_None_keys in E.
  - intros k' l H. apply dict_set_In in H as [[_ ->] | H]; eauto.
    discriminate.
Qed.

Lemma positions_of_append (mp : dict (list nat)) (k m : str) (x : nat) :
  positions_of (dict_append mp k x) m =
  positions_of mp m ++ (if str_eqb k m then [x] else []).
Proof.
  unfold positions_of, dict_append.
  destruct (dict_get mp k) eqn:E; rewrite dict_get_set;
    destruct (str_eqb k m) eqn:Ek.
  - apply str_eqb_eq in Ek; subst. now rewrite E.
  - now rewrite app_nil_r.
  - apply str_eqb_eq in Ek; subst. now rewrite E.
  - now rewrite app_nil_r.
Qed.

(** The inner loop adds, for every model, the positions of the judge after
    those already recorded. *)
Lemma record_fold (label_to_model : dict str) (indexed : list (nat * str))
    (mp : dict (list nat)) :
  let mp' :=
    fold_left
      (fun mp pl =>
         let '(position, label) := pl in
         if dict_mem label_to_model label then
           match dict_get label_to_model label with
           | Some model_name => dict_append mp model_name position
           | None => mp
           end
         else mp)
      indexed mp in
  well_formed mp ->
  well_formed mp' /\
  forall m, positions_of mp' m =
            positions_of mp m ++ positions_among label_to_model indexed m.
Proof.
  revert mp; induction indexed as [|[position label] indexed IH];
    intros mp mp' Hwf.
  - split; [exact Hwf|]. intros m. simpl. now rewrite app_nil_r.
  - subst mp'. cbn [fold_left]. unfold dict_mem.
    destruct (dict_get label_to_model label) as [mn|] eqn:E.
    + destruct (IH (dict_append mp mn position)
                  (well_formed_append mp mn position Hwf)) as [Hwf' Hpos].
      split; [exact Hwf'|]. intros m. rewrite Hpos, positions_of_append.
      unfold positions_among. cbn [flat_map snd fst]. rewrite E.
      now rewrite <- app_assoc.
    + destruct (IH mp Hwf) as [Hwf' Hpos].
      split; [exact Hwf'|]. intros m. rewrite Hpos.
      unfold positions_among. cbn [flat_map snd fst]. now rewrite E.
Qed.

Lemma record_positions_spec (label_to_model : dict str) (parsed : list str)
    (mp : dict (list nat)) :
  well_formed mp ->
  well_formed (record_positions label_to_model mp parsed) /\
  forall m, positions_of (record_positions label_to_model mp parsed) m =
            positions_of mp m ++ judge_positions label_to_model parsed m.
Proof. apply record_fold. Qed.

(** The outer loop: the dictionary holds, for every model, the positions of
    all judges in the order of the judges. *)
Lemma collect_positions_spec (label_to_model : dict str)
    (stage2_results : list JudgeRanking) (mp : dict (list nat)) :
  well_formed mp ->
  exists final,
    collect_positions label_to_model mp stage2_results = Ok final /\
    well_formed final /\
    forall m, positions_of final m =
              positions_of mp m ++
              recorded_positions label_to_model stage2_results m.
Proof.
  revert mp; induction stage2_results as [|r rest IH]; intros mp Hwf.
  - exists mp. repeat split; try apply Hwf.
    intros m. simpl. now rewrite app_nil_r.
  - cbn [collect_positions]. rewrite parse_ranking_parsed_labels.
    cbn [res_bind].
    destruct (record_positions_spec label_to_model
                (parsed_labels (ranking r)) mp Hwf) as [Hwf' Hpos].
    destruct (IH _ Hwf') as (final & Hrun & Hwff & Hfinal).
    exists final. repeat split; try apply Hwff; auto.
    intros m. rewrite Hfinal, Hpos. unfold recorded_positions.
    cbn [flat_map]. now rewrite <- app_assoc.
Qed.

Lemma aggregate_entries_map (mp : dict (list nat)) :
  (forall k l, In (k, l) mp -> l <> []) ->
  aggregate_entries mp = map (fun ml => entry_of (fst ml) (snd ml)) mp.
Proof.
  induction mp as [|[m l] mp IH]; intros H; [reflexivity|].
  unfold aggregate_entries in *. cbn [flat_map map].
  rewrite IH by (intros; eapply H; right; eauto).
  destruct l as [|p l]; [|reflexivity].
  exfalso. now apply (H m []); [left|].
Qed.

Lemma aggregate_entries_models (mp : dict (list nat)) :
  well_formed mp -> map model (aggregate_entries mp) = map fst mp.
Proof.
  intros [_ Hne]. rewrite aggregate_entries_map by assumption.
  rewrite map_map. reflexivity.
Qed.

Lemma aggregate_entries_In (mp : dict (list nat)) (e : AggregateEntry) :
  well_formed mp ->
  In e (aggregate_entries mp) <->
  positions_of mp (model e) <> [] /\
  e = entry_of (model e) (positions_of mp (model e)).
Proof.
  intros [Hnd Hne]. rewrite aggregate_entries_map by assumption.
  rewrite in_map_iff. split.
  - intros ([m l] & <- & Hin). simpl.
    unfold positions_of. rewrite (dict_get_In mp m l Hnd Hin). eauto.
  - intros [Hpos He]. unfold positions_of in *.
    destruct (dict_get mp (model e)) as [l|] eqn:E; [|congruence].
    exists (model e, l). split; [now symmetry|].
    now apply dict_get_Some_In.
Qed.

Lemma positions_of_keys (mp : dict (list nat)) (m : str) :
  well_formed mp -> In m (map fst mp) <-> positions_of mp m <> [].
Proof.
  intros [Hnd Hne]. unfold positions_of. split.
  - intros H. apply in_map_iff in H as ([k l] & <- & Hin). simpl.
    rewrite (dict_get_In mp k l Hnd Hin). eauto.
  - destruct (dict_get mp m) as [l|] eqn:E; [|congruence].
    intros _. apply dict_get_Some_In in E.
    apply in_map_iff. exists (m, l). auto.
Qed.

(** ** Floats: the order and the absence of NaN *)

Ltac cmp_cases :=
  repeat match goal with
  | |- context [Z.compare ?a ?b] => destruct (Z.compare_spec a b); subst
  | H : context [Z.compare ?a ?b] |- _ => destruct (Z.compare_spec a b); subst
  | |- context [Pos.compare_cont Eq ?a ?b] =>
      change (Pos.compare_cont Eq a b) with (Pos.compare a b);
      destruct (Pos.compare_spec a b); subst
  | H : context [Pos.compare_cont Eq ?a ?b] |- _ =>
      change (Pos.compare_cont Eq a b) with (Pos.compare a b) in H;
      destruct (Pos.compare_spec a b); subst
  end.

Lemma float_lt_asym (x y : float) :
  float_lt x y = true -> float_lt y x = false.
Proof.
  unfold float_lt, SFltb.
  destruct x as [sx|sx| |sx mx ex], y as [sy|sy| |sy my ey];
    try destruct sx; try destruct sy; simpl; try discriminate; try reflexivity;
    cmp_cases; simpl; try discriminate; try reflexivity; try lia.
Qed.

Lemma float_lt_trans (x y z : float) :
  float_lt x y = true -> float_lt y z = true -> float_lt x z = true.
Proof.
  unfold float_lt, SFltb.
  destruct x as [sx|sx| |sx mx ex], y as [sy|sy| |sy my ey],
           z as [sz|sz| |sz mz ez];
    try destruct sx; try destruct sy; try destruct sz; simpl;
    try discriminate; try reflexivity;
    cmp_cases; simpl; try discriminate; try reflexivity; try lia.
Qed.

Lemma float_le_of_not_lt (x y : float) :
  x <> S754_nan -> y <> S754_nan -> float_lt y x = false -> SFleb x y = true.
Proof.
  unfold float_lt, SFltb, SFleb.
  destruct x as [sx|sx| |sx mx ex], y as [sy|sy| |sy my ey];
    try destruct sx; try destruct sy; simpl; try congruence;
    intros _ _; cmp_cases; simpl; try discriminate; try reflexivity; try lia.
Qed.

Lemma iter_pos_invariant {A} (P : A -> Prop) (f : A -> A) :
  (forall a, P a -> P (f a)) -> forall n a, P a -> P (iter_pos f n a).
Proof.
  intros Hf. induction n as [n IH|n IH|]; intros a Ha; simpl; auto.
Qed.

Lemma shr_1_nonneg (mrs : shr_record) :
  (0 <= shr_m mrs)%Z -> (0 <= shr_m (shr_1 mrs))%Z.
Proof.
  destruct mrs as [m r s]. simpl.
  destruct m as [|[p|p|]|[p|p|]]; simpl; lia.
Qed.

Lemma shr_nonneg (mrs : shr_record) (e n : Z) :
  (0 <= shr_m mrs)%Z -> (0 <= shr_m (fst (shr mrs e n)))%Z.
Proof.
  intros H. unfold shr. destruct n; simpl; auto.
  apply iter_pos_invariant with (P := fun a => (0 <= shr_m a)%Z); auto.
  apply shr_1_nonneg.
Qed.

Lemma shr_record_of_loc_m (m : Z) (l : location) :
  shr_m (shr_record_of_loc m l) = m.
Proof. destruct l as [|[]]; reflexivity. Qed.

Lemma shr_fexp_nonneg (prec emax m e : Z) (l : location) :
  (0 <= m)%Z -> (0 <= shr_m (fst (shr_fexp prec emax m e l)))%Z.
Proof.
  intros H. unfold shr_fexp. apply shr_nonneg.
  now rewrite shr_record_of_loc_m.
Qed.

Lemma round_nearest_even_nonneg (m : Z) (l : location) :
  (0 <= m)%Z -> (0 <= round_nearest_even m l)%Z.
Proof.
  intros H. unfold round_nearest_even.
  destruct l as [|[]]; try lia. destruct (Z.even m); lia.
Qed.

Lemma binary_round_aux_not_nan (prec emax : Z) (s : bool) (m e : Z)
    (l : location) :
  (0 <= m)%Z -> binary_round_aux prec emax s m e l <> S754_nan.
Proof.
  intros H. unfold binary_round_aux.
  pose proof (shr_fexp_nonneg prec emax m e l H) as H1.
  destruct (shr_fexp prec emax m e l) as [mrs' e'].
  simpl in H1.
  pose proof (shr_fexp_nonneg prec emax
                (round_nearest_even (shr_m mrs') (loc_of_shr_record mrs'))
                e' loc_Exact (round_nearest_even_nonneg _ _ H1)) as H2.
  destruct (shr_fexp prec emax _ e' loc_Exact) as [mrs'' e''].
  simpl in H2.
  destruct (shr_m mrs''); try discriminate; [|lia].
  destruct (e'' <=? emax - prec)%Z; discriminate.
Qed.

(** The quotient of two finite floats is a float, an infinity or a zero. *)
Lemma SFdiv_finite_not_nan (prec emax : Z) (sx sy : bool) (mx my : positive)
    (ex ey : Z) :
  SFdiv prec emax (S754_finite sx mx ex) (S754_finite sy my ey) <> S754_nan.
Proof.
  unfold SFdiv, SFdiv_core_binary.
  set (m' := match _ with Z0 => _ | Zpos _ => _ | Zneg _ => _ end).
  assert (Hm : (0 <= m')%Z).
  { unfold m'. destruct (_ - _ - _)%Z; try lia.
    apply Z.shiftl_nonneg. lia. }
  pose proof (Z_div_mod m' (Zpos my) ltac:(lia)) as Hd.
  destruct (Z.div_eucl m' (Zpos my)) as [q r].
  apply binary_round_aux_not_nan. nia.
Qed.

Lemma int_true_div_not_nan (a b : Z) :
  b <> 0%Z -> int_true_div a b <> S754_nan.
Proof.
  intros Hb. unfold int_true_div, float_of_int.
  destruct a, b; try congruence; try discriminate;
    apply SFdiv_finite_not_nan.
Qed.

Lemma round2_not_nan (x : float) : x <> S754_nan -> round2 x <> S754_nan.
Proof.
  intros Hx. destruct x as [s|s| |s m e]; try congruence; try discriminate.
  unfold round2. destruct (match e with Zneg _ => _ | _ => _ end);
    try discriminate. apply SFdiv_finite_not_nan.
Qed.

(** The mean of a non-empty list of positions is never NaN. *)
Lemma entry_of_not_nan (m : str) (positions : list nat) :
  positions <> [] -> average_rank (entry_of m positions) <> S754_nan.
Proof.
  intros H. simpl. apply round2_not_nan, int_true_div_not_nan.
  destruct positions; [congruence | simpl; lia].
Qed.

Lemma entry_of_Permutation (m : str) (l l' : list nat) :
  Permutation l l' -> entry_of m l = entry_of m l'.
Proof.
  intros H. unfold entry_of.
  now rewrite (Permutation_list_sum H), (Permutation_length H).
Qed.

(** ** The stable sort *)

Section StableSort.

Context {A : Type} (lt : A -> A -> bool).

Lemma sort_insert_Permutation (x : A) (l : list A) :
  Permutation (sort_insert lt x l) (x :: l).
Proof.
  induction l as [|y l IH]; simpl; [reflexivity|].
  destruct (lt x y); [reflexivity|].
  rewrite IH. apply perm_swap.
Qed.

Lemma stable_sort_Permutation (l : list A) : Permutation (stable_sort lt l) l.
Proof.
  unfold stable_sort.
  assert (G : forall acc,
             Permutation
               (fold_left (fun sorted x => sort_insert lt x sorted) l acc)
               (acc ++ l)).
  { induction l as [|x l IH]; intros acc; simpl.
    - now rewrite app_nil_r.
    - rewrite IH, sort_insert_Permutation. simpl.
      apply Permutation_middle. }
  apply (G []).
Qed.

Hypothesis lt_asym : forall a b, lt a b = true -> lt b a = false.
Hypothesis lt_trans : forall a b c, lt a b = true -> lt b c = true ->
                                    lt a c = true.

Lemma sort_insert_ascending (x : A) (l : list A) :
  ascending lt l -> ascending lt (sort_insert lt x l).
Proof.
  unfold ascending. induction 1 as [|y l Hs IH Hy]; simpl.
  - repeat constructor.
  - destruct (lt x y) eqn:E.
    + constructor; [constructor; assumption|].
      constructor; [now apply lt_asym|].
      rewrite Forall_forall in *. intros z Hz.
      destruct (lt z x) eqn:Ez; [|reflexivity].
      rewrite <- (Hy z Hz). symmetry. now apply lt_trans with x.
    + constructor; [exact IH|].
      rewrite Forall_forall in *. intros z Hz.
      apply (Permutation_in _ (sort_insert_Permutation x l)) in Hz.
      destruct Hz as [<- | Hz]; auto.
Qed.

Lemma stable_sort_ascending (l : list A) : ascending lt (stable_sort lt l).
Proof.
  unfold stable_sort.
  assert (G : forall acc, ascending lt acc ->
             ascending lt
               (fold_left (fun sorted x => sort_insert lt x sorted) l acc)).
  { induction l as [|x l IH]; intros acc Hacc; simpl; auto.
    apply IH, sort_insert_ascending, Hacc. }
  apply G. constructor.
Qed.

End StableSort.

Lemma StronglySorted_impl_In {A} (R R' : A -> A -> Prop) (l : list A) :
  (forall a b, In a l -> In b l -> R a b -> R' a b) ->
  StronglySorted R l -> StronglySorted R' l.
Proof.
  intros H Hs. induction Hs as [|a l Hs IH Ha]; constructor.
  - apply IH. intros x y Hx Hy. apply H; now right.
  - rewrite Forall_forall in *. intros b Hb.
    apply H; [now left | now right | now apply Ha].
Qed.

Lemma length_flat_map_filter {A B} (f : A -> list B) (l : list A) :
  (forall a, In a l -> length (f a) <= 1) ->
  length (flat_map f l) =
  length (filter (fun a => match f a with [] => false | _ :: _ => true end) l).
Proof.
  induction l as [|a l IH]; intros H; [reflexivity|].
  cbn [flat_map filter]. rewrite length_app, IH by (intros; apply H; now right).
  specialize (H a (or_introl eq_refl)).
  destruct (f a) as [|b [|c u]]; simpl in *; lia.
Qed.

(** ** The rank aggregator: claims C3, C8 and C5 *)

(** What the aggregator returns, in terms of the positions recorded for
    each model. *)
Lemma calculate_aggregate_rankings_run (stage2_results : list JudgeRanking)
    (label_to_model : dict str) :
  exists final,
    well_formed final /\
    (forall m, positions_of final m =
               recorded_positions label_to_model stage2_results m) /\
    calculate_aggregate_rankings stage2_results label_to_model =
    Ok (stable_sort (fun x y => float_lt (average_rank x) (average_rank y))
          (aggregate_entries final)).
Proof.
  destruct (collect_positions_spec label_to_model stage2_results []
              well_formed_nil) as (final & Hrun & Hwf & Hpos).
  exists final. repeat split; try apply Hwf; auto.
  unfold calculate_aggregate_rankings. now rewrite Hrun.
Qed.

(** C3, as stated, fails on the count: a single judge that names
    "Response A" twice gives the model behind A two recorded positions, and
    [rankings_count] is 2 where one judge ranked the model. *)
Lemma rankings_count_counts_positions :
  calculate_aggregate_rankings
    [judge_of (lit "openai/gpt-oss-20b") repeating_ranking] three_registry =
    Ok [{| model := lit "llama-3.1-8b-instant";
           average_rank := int_true_div 3 2;
           rankings_count := 2 |}] /\
  length (judges_ranking three_registry
            [judge_of (lit "openai/gpt-oss-20b") repeating_ranking]
            (lit "llama-3.1-8b-instant")) = 1.
Proof. split; vm_compute; reflexivity. Qed.

(** C3 (amended): the aggregator returns one entry per model that has at
    least one recorded position, a recorded position being the 1-based
    index, in a judge's parsed sequence, of a label that the registry maps
    to the model (labels absent from the registry record nothing, and a
    model without any position has no entry). The entry's [average_rank] is
    the mean of the model's positions rounded to 2 decimals, its
    [rankings_count] is the number of those positions, which is the number
    of judges who ranked the model whenever no judge gives the model two
    positions; the entries are in ascending order of [average_rank]. *)
Theorem aggregate_rankings_spec (stage2_results : list JudgeRanking)
    (label_to_model : dict str) :
  exists aggregate,
    calculate_aggregate_rankings stage2_results label_to_model = Ok aggregate /\
    NoDup (map model aggregate) /\
    (forall m, In m (map model aggregate) <->
               recorded_positions label_to_model stage2_results m <> []) /\
    (forall e, In e aggregate ->
       let positions :=
         recorded_positions label_to_model stage2_results (model e) in
       average_rank e =
         round2 (int_true_div (Z.of_nat (list_sum positions))
                              (Z.of_nat (length positions))) /\
       rankings_count e = length positions /\
       ((forall r, In r stage2_results ->
           length (judge_positions label_to_model
                     (parsed_labels (ranking r)) (model e)) <= 1) ->
        rankings_count e =
        length (judges_ranking label_to_model stage2_results (model e)))) /\
    StronglySorted rank_le aggregate.
Proof.
  destruct (calculate_aggregate_rankings_run stage2_results label_to_model)
    as (final & Hwf & Hpos & Hrun).
  set (lt := fun x y : AggregateEntry =>
               float_lt (average_rank x) (average_rank y)) in *.
  pose proof (stable_sort_Permutation lt (aggregate_entries final)) as Hperm.
  assert (Hin : forall e, In e (stable_sort lt (aggregate_entries final)) ->
                  recorded_positions label_to_model stage2_results (model e)
                    <> [] /\
                  e = entry_of (model e)
                        (recorded_positions label_to_model stage2_results
                           (model e))).
  { intros e He. apply (Permutation_in _ Hperm) in He.
    apply aggregate_entries_In in He; [|exact Hwf].
    now rewrite Hpos in He. }
  eexists. split; [exact Hrun|]. split; [|split; [|split]].
  - rewrite (Permutation_map model Hperm), aggregate_entries_models by exact Hwf.
    apply Hwf.
  - intros m.
    rewrite (Permutation_map model Hperm), aggregate_entries_models by exact Hwf.
    rewrite positions_of_keys by exact Hwf. now rewrite Hpos.
  - intros e He positions. destruct (Hin e He) as [Hne Heq].
    fold positions in Heq. split; [|split].
    + now rewrite Heq at 1.
    + now rewrite Heq at 1.
    + intros Hone. rewrite Heq at 1. simpl. unfold positions.
      apply (length_flat_map_filter
               (fun r => judge_positions label_to_model
                           (parsed_labels (ranking r)) (model e))).
      exact Hone.
  - apply StronglySorted_impl_In
      with (R := fun a b => lt b a = false).
    + intros a b Ha Hb Hab.
      destruct (Hin a Ha) as [Hna Hea], (Hin b Hb) as [Hnb Heb].
      apply float_le_of_not_lt; auto.
      * rewrite Hea. now apply entry_of_not_nan.
      * rewrite Heb. now apply entry_of_not_nan.
    + apply stable_sort_ascending.
      * intros a b. apply float_lt_asym.
      * intros a b c. apply float_lt_trans.
Qed.

(** C8: permuting the judges permutes the entries at most: the aggregator
    returns the same entries, each with the same [average_rank] and the
    same [rankings_count]. *)
Theorem aggregate_rankings_permutation (stage2_results stage2_results' :
    list JudgeRanking) (label_to_model : dict str) :
  Permutation stage2_results stage2_results' ->
  exists aggregate aggregate',
    calculate_aggregate_rankings stage2_results label_to_model =
      Ok aggregate /\
    calculate_aggregate_rankings stage2_results' label_to_model =
      Ok aggregate' /\
    Permutation aggregate aggregate'.
Proof.
  intros Hp.
  destruct (calculate_aggregate_rankings_run stage2_results label_to_model)
    as (f & Hwf & Hpos & Hrun).
  destruct (calculate_aggregate_rankings_run stage2_results' label_to_model)
    as (f' & Hwf' & Hpos' & Hrun').
  do 2 eexists. split; [exact Hrun|]. split; [exact Hrun'|].
  rewrite !stable_sort_Permutation.
  assert (Hrec : forall m,
             Permutation
               (recorded_positions label_to_model stage2_results m)
               (recorded_positions label_to_model stage2_results' m)).
  { intros m. unfold recorded_positions. now apply Permutation_flat_map. }
  apply NoDup_Permutation.
  - apply (NoDup_map_inv model). rewrite aggregate_entries_models by exact Hwf.
    apply Hwf.
  - apply (NoDup_map_inv model).
    rewrite aggregate_entries_models by exact Hwf'. apply Hwf'.
  - intros e. rewrite !aggregate_entries_In by assumption.
    rewrite Hpos, Hpos'.
    rewrite (entry_of_Permutation (model e) _ _ (Hrec (model e))).
    split; intros [Hne He]; split; auto; intros Hnil.
    + specialize (Hrec (model e)). rewrite Hnil in Hrec.
      apply Permutation_sym, Permutation_nil in Hrec. contradiction.
    + specialize (Hrec (model e)). rewrite Hnil in Hrec.
      apply Permutation_nil in Hrec. contradiction.
Qed.

Lemma aggregate_rankings_permutation_witness :
  exists aggregate aggregate',
    calculate_aggregate_rankings
      [judge_of (lit "llama-3.1-8b-instant") marker_ranking;
       judge_of (lit "openai/gpt-oss-20b") free_ranking] three_registry =
      Ok aggregate /\
    calculate_aggregate_rankings
      [judge_of (lit "openai/gpt-oss-20b") free_ranking;
       judge_of (lit "llama-3.1-8b-instant") marker_ranking] three_registry =
      Ok aggregate' /\
    Permutation aggregate aggregate'.
Proof.
  apply aggregate_rankings_permutation. apply perm_swap.
Defined.

(** C5, as stated, fails: in the scenario the models behind A and C both
    have the mean 1.5, and the first judge names C first, so the model
    behind C comes first and the model behind A second. *)
Lemma scenario_places_C_first :
  option_map (map model)
    (match calculate_aggregate_rankings
             [judge_of (lit "llama-3.1-8b-instant") marker_ranking;
              judge_of (lit "openai/gpt-oss-20b") free_ranking]
             three_registry with
     | Ok aggregate => Some aggregate
     | Raise _ => None
     end) =
  Some [lit "openai/gpt-oss-120b"; lit "llama-3.1-8b-instant";
        lit "llama-3.3-70b-versatile"] /\
  dict_get three_registry (lit "Response A") = Some (lit "llama-3.1-8b-instant") /\
  dict_get three_registry (lit "Response C") = Some (lit "openai/gpt-oss-120b").
Proof. repeat split; vm_compute; reflexivity. Qed.

(** C5 (amended): with three answers labelled A, B, C, a first judge whose
    text is the marker followed by "1. Response C", "2. Response A",
    "3. Response B", and a second judge whose text has no marker and names
    "Response A" then "Response C" and no other label, the aggregate ranking
    is: the model behind C (mean 1.5, count 2), then the model behind A
    (mean 1.5, count 2), then the model behind B (mean 3.0, count 1). The
    models behind A and C tie; C was recorded first. *)
Theorem scenario_aggregate (judge1 judge2 free_text : str) :
  contains FINAL_RANKING free_text = false ->
  findall label_re free_text = [lit "Response A"; lit "Response C"] ->
  calculate_aggregate_rankings
    [judge_of judge1 marker_ranking; judge_of judge2 free_text]
    three_registry =
  Ok [{| model := lit "openai/gpt-oss-120b";
         average_rank := int_true_div 3 2; rankings_count := 2 |};
      {| model := lit "llama-3.1-8b-instant";
         average_rank := int_true_div 3 2; rankings_count := 2 |};
      {| model := lit "llama-3.3-70b-versatile";
         average_rank := int_true_div 3 1; rankings_count := 1 |}].
Proof.
  intros Hm Hl. unfold calculate_aggregate_rankings.
  cbn [collect_positions judge_of ranking].
  assert (H1 : parse_ranking_from_text marker_ranking =
               Ok [lit "Response C"; lit "Response A"; lit "Response B"])
    by (vm_compute; reflexivity).
  assert (H2 : parse_ranking_from_text free_text =
               Ok [lit "Response A"; lit "Response C"])
    by (unfold parse_ranking_from_text; now rewrite Hm, Hl).
  rewrite H1. cbn [res_bind]. rewrite H2. cbn [res_bind].
  vm_compute. reflexivity.
Qed.

Lemma scenario_aggregate_witness :
  calculate_aggregate_rankings
    [judge_of (lit "llama-3.1-8b-instant") marker_ranking;
     judge_of (lit "openai/gpt-oss-20b") free_ranking]
    three_registry =
  Ok [{| model := lit "openai/gpt-oss-120b";
         average_rank := int_true_div 3 2; rankings_count := 2 |};
      {| model := lit "llama-3.1-8b-instant";
         average_rank := int_true_div 3 2; rankings_count := 2 |};
      {| model := lit "llama-3.3-70b-versatile";
         average_rank := int_true_div 3 1; rankings_count := 1 |}].
Proof.
  apply (scenario_aggregate (lit "llama-3.1-8b-instant")
           (lit "openai/gpt-oss-20b") free_ranking);
    vm_compute; reflexivity.
Defined.

(** ** The streaming pipeline when stage 1 has answers *)

Lemma appends_ret {A} (a : A) : appends (ret a).
Proof. intros log. unfold ret. simpl. now rewrite app_nil_r. Qed.

Lemma appends_lift {A} (r : res A) : appends (lift r).
Proof. intros log. unfold lift. simpl. now rewrite app_nil_r. Qed.

Lemma appends_effect (e : Effect) : appends (effect e).
Proof. intros log. reflexivity. Qed.

Lemma appends_bind {A B} (m : M A) (f : A -> M B) :
  appends m -> (forall a, appends (f a)) -> appends (bind m f).
Proof.
  intros Hm Hf log. unfold bind. rewrite (Hm log).
  rewrite (surjective_pairing (m [])) at 2 3.
  destruct (fst (m [])) as [a|e]; [|reflexivity].
  rewrite (Hf a (log ++ snd (m []))), (Hf a (snd (m []))). simpl.
  now rewrite app_assoc.
Qed.

Lemma appends_try_except {A} (body : M A) (handler : exn -> M A) :
  appends body -> (forall e, appends (handler e)) ->
  appends (try_except body handler).
Proof.
  intros Hm Hf log. unfold try_except. rewrite (Hm log).
  rewrite (surjective_pairing (body [])) at 2 3.
  destruct (fst (body [])) as [a|e]; [reflexivity|].
  rewrite (Hf e (log ++ snd (body []))), (Hf e (snd (body []))). simpl.
  now rewrite app_assoc.
Qed.

Lemma appends_run_task {A} (body : M A) :
  appends body -> appends (run_task body).
Proof.
  intros Hm log. unfold run_task. rewrite (Hm log).
  now destruct (body []).
Qed.

Lemma appends_mapM {A B} (f : A -> M B) (l : list A) :
  (forall a, appends (f a)) -> appends (mapM f l).
Proof.
  intros Hf. induction l as [|a l IH]; simpl.
  - apply appends_ret.
  - apply appends_bind; [apply Hf|]. intros b.
    apply appends_bind; [exact IH|]. intros bs. apply appends_ret.
Qed.

Section Stateless.

Variable invoke : Oracle.
Hypothesis invoke_stateless : stateless invoke.

Lemma appends_query_model (model : str) (messages : list Message)
    (max_tokens : nat) :
  appends (query_model invoke model messages max_tokens).
Proof.
  intros log. unfold query_model. simpl.
  now rewrite (invoke_stateless log []).
Qed.

Ltac appends_step :=
  first
    [ apply appends_ret | apply appends_lift | apply appends_effect
    | apply appends_query_model
    | apply appends_bind; [|intros]
    | apply appends_mapM; intros
    | apply appends_try_except; [|intros]
    | apply appends_run_task
    | match goal with
      | |- appends (match ?x with _ => _ end) => destruct x
      end ].

Lemma appends_query_models_parallel (models : list str)
    (messages : list Message) :
  appends (query_models_parallel invoke models messages).
Proof. unfold query_models_parallel. repeat appends_step. Qed.

Lemma appends_stage1 (user_query : str) (conversation_history : option str) :
  appends (stage1_collect_responses invoke user_query conversation_history).
Proof.
  unfold stage1_collect_responses.
  apply appends_bind; [apply appends_query_models_parallel|].
  intros. apply appends_ret.
Qed.

Lemma appends_stage2 (user_query : str) (stage1_results : list ModelAnswer)
    (conversation_history : option str) :
  appends (stage2_collect_rankings invoke user_query stage1_results
             conversation_history).
Proof.
  unfold stage2_collect_rankings.
  apply appends_bind; [apply appends_lift|]. intros labels.
  apply appends_bind; [apply appends_query_models_parallel|]. intros.
  repeat appends_step.
Qed.

Lemma appends_stage3 (user_query : str) (stage1_results : list ModelAnswer)
    (stage2_results : list JudgeRanking) (conversation_history : option str) :
  appends (stage3_synthesize_final invoke user_query stage1_results
             stage2_results conversation_history).
Proof. unfold stage3_synthesize_final. repeat appends_step. Qed.

Lemma appends_title (user_query : str) :
  appends (generate_conversation_title invoke user_query).
Proof. unfold generate_conversation_title. repeat appends_step. Qed.

End Stateless.

Lemma yielded_app (l l' : Log) : yielded (l ++ l') = yielded l ++ yielded l'.
Proof. apply flat_map_app. Qed.

Lemma yielded_fan_out_calls (models : list str) (messages : list Message) :
  yielded (fan_out_calls models messages) = [].
Proof. induction models; simpl; auto. Qed.

Lemma bind_effect {B} (e : Effect) (f : unit -> M B) (log : Log) :
  bind (effect e) f log = f tt (log ++ [e]).
Proof. reflexivity. Qed.

Lemma bind_ret {A B} (a : A) (f : A -> M B) (log : Log) :
  bind (ret a) f log = f a log.
Proof. reflexivity. Qed.

Lemma bind_lift_Ok {A B} (r : res A) (a : A) (f : A -> M B) (log : Log) :
  r = Ok a -> bind (lift r) f log = f a log.
Proof. intros ->. reflexivity. Qed.

Lemma title_task_run (invoke : Oracle) (user_query : str) (log : Log) :
  exists title,
    bind (run_task (generate_conversation_title invoke user_query))
      (fun t => ret (Some t)) log =
    (Ok (Some (Ok title)),
     log ++ [Invoke (request TITLE_MODEL (title_messages user_query) 30)]).
Proof.
  unfold bind, run_task, generate_conversation_title, bind, query_model.
  fold (request TITLE_MODEL (title_messages user_query) 30).
  destruct (invoke log _); eexists; reflexivity.
Qed.

(** For an oracle whose replies depend on the request only, and when stage 1
    has at least one answer, the streaming generator yields the payloads of
    the batch pipeline: the same stage-1 answers, the same stage-2 rankings,
    registry and aggregate, and the same stage-3 result. *)
Lemma stream_agrees_with_batch (invoke : Oracle) (conversation_id : str)
    (messages : list ConvMessage) (user_query : str) (log log' logb : Log)
    (s1 : list ModelAnswer) (s2 : list JudgeRanking) (s3 : ModelAnswer)
    (md : option Metadata) :
  stateless invoke ->
  run_full_council invoke user_query (removelast messages) log =
    (Ok (s1, s2, s3, md), logb) ->
  s1 <> [] ->
  exists label_to_model aggregate context title_events,
    md = Some {| meta_label_to_model := label_to_model;
                 meta_aggregate_rankings := aggregate;
                 had_context := context |} /\
    fst (event_generator invoke conversation_id messages user_query log') =
      Ok tt /\
    yielded (snd (event_generator invoke conversation_id messages user_query
                    log')) =
      yielded log' ++
      [stage1_start; stage1_complete s1;
       stage2_start; stage2_complete s2 label_to_model aggregate;
       stage3_start; stage3_complete s3] ++ title_events ++ [complete] /\
    (title_events = [] \/ exists title, title_events = [title_complete title]).
Proof.
  intros Hst Hrun Hne.
  set (h := history_of (removelast messages)) in *.
  pose proof (appends_stage1 invoke Hst user_query h) as A1.
  destruct (stage1_run invoke user_query h []) as (v1 & Hlen & E1).
  unfold appends in A1. rewrite E1 in A1. cbn [fst snd app] in A1.
  unfold run_full_council in Hrun. fold h in Hrun.
  rewrite (@bind_Ok _ _ _ _ _ _ _ (A1 log)) in Hrun.
  destruct v1 as [|a v1'] eqn:Ev1; [unfold ret in Hrun; congruence|].
  rewrite <- Ev1 in *. clear Ev1.
  pose proof (appends_stage2 invoke Hst user_query v1 h) as A2.
  destruct (stage2_run invoke user_query v1 h []
              (COUNCIL_MODELS_labelled _ Hlen)) as (v2 & E2).
  unfold appends in A2. rewrite E2 in A2. cbn [fst snd app] in A2.
  set (reg := make_label_to_model (map label_at (seq 0 (length v1))) v1) in *.
  rewrite (@bind_Ok _ _ _ _ _ _ _ (A2 _)) in Hrun. cbv beta iota in Hrun.
  destruct (calculate_aggregate_rankings_ok v2 reg) as (aggr & Ea).
  rewrite (bind_lift_Ok _ _ _ _ Ea) in Hrun.
  pose proof (appends_stage3 invoke Hst user_query v1 v2 h) as A3.
  unfold appends in A3.
  rewrite (stage3_run invoke user_query v1 v2 h []) in A3.
  cbn [fst snd app] in A3.
  rewrite (@bind_Ok _ _ _ _ _ _ _ (A3 _)) in Hrun.
  unfold ret in Hrun. injection Hrun as <- <- <- <- _.
  exists reg, aggr, (match h with Some _ => true | None => false end).
  unfold event_generator, try_except. fold h.
  rewrite bind_effect.
  destruct (Nat.eqb (length messages) 0).
  - destruct (title_task_run invoke user_query
                (log' ++ [Store (add_user_message conversation_id user_query)]))
      as (title & Et).
    rewrite (@bind_Ok _ _ _ _ _ _ _ Et).
    rewrite bind_effect, (@bind_Ok _ _ _ _ _ _ _ (A1 _)).
    rewrite !bind_effect, (@bind_Ok _ _ _ _ _ _ _ (A2 _)). cbv beta iota.
    rewrite (bind_lift_Ok _ _ _ _ Ea).
    rewrite !bind_effect, (@bind_Ok _ _ _ _ _ _ _ (A3 _)).
    rewrite !bind_effect. unfold bind, effect.
    exists [title_complete title]. cbn [fst snd].
    repeat split; eauto.
    rewrite !yielded_app, !yielded_fan_out_calls.
    cbn [yielded flat_map]. rewrite <- ?app_assoc. reflexivity.
  - rewrite bind_ret.
    rewrite bind_effect, (@bind_Ok _ _ _ _ _ _ _ (A1 _)).
    rewrite !bind_effect, (@bind_Ok _ _ _ _ _ _ _ (A2 _)). cbv beta iota.
    rewrite (bind_lift_Ok _ _ _ _ Ea).
    rewrite !bind_effect, (@bind_Ok _ _ _ _ _ _ _ (A3 _)).
    rewrite !bind_effect, bind_ret. unfold bind, effect.
    exists []. cbn [fst snd].
    repeat split; auto.
    rewrite !yielded_app, !yielded_fan_out_calls.
    cbn [yielded flat_map]. rewrite <- ?app_assoc. reflexivity.
Qed.

(** * Further properties *)

(** ** The context formatter *)

Lemma last_n_app {A} (older recent : list A) :
  last_n (length recent) (older ++ recent) = recent.
Proof.
  unfold last_n. rewrite length_app.
  replace (length older + length recent - length recent) with (length older)
    by lia.
  rewrite skipn_app, skipn_all, Nat.sub_diag. reflexivity.
Qed.

Lemma format_conversation_history_cons (m : ConvMessage)
    (ms : list ConvMessage) :
  format_conversation_history (m :: ms) =
  join nl
    (flat_map
       (fun msg =>
          if str_eqb (msg_role msg) (lit "user") then
            [lit "User: " ++ msg_content msg]
          else if str_eqb (msg_role msg) (lit "assistant") then
            match msg_stage3 msg with
            | Some stage3 =>
                let r := response stage3 in
                let r := if 200 <? length r
                         then firstn 200 r ++ lit "..." else r in
                [lit "Assistant: " ++ r]
            | None => []
            end
          else [])
       (last_n 6 (m :: ms))).
Proof. reflexivity. Qed.

(** Only the six most recent messages enter the history: whatever came
    before them changes nothing. *)
Theorem format_history_last_six (older recent : list ConvMessage) :
  length recent = 6 ->
  format_conversation_history (older ++ recent) =
  format_conversation_history recent.
Proof.
  intros H.
  destruct recent as [|r recent']; [discriminate|].
  destruct (older ++ r :: recent') as [|m ms] eqn:E.
  { destruct older; discriminate. }
  rewrite !format_conversation_history_cons, <- E, <- H, last_n_app.
  f_equal. f_equal. unfold last_n. now rewrite Nat.sub_diag.
Qed.

Lemma format_history_last_six_witness :
  format_conversation_history
    ([{| msg_role := lit "user"; msg_content := lit "first question";
         msg_stage3 := None |}] ++
     repeat {| msg_role := lit "user"; msg_content := lit "again";
               msg_stage3 := None |} 6) =
  format_conversation_history
    (repeat {| msg_role := lit "user"; msg_content := lit "again";
               msg_stage3 := None |} 6).
Proof.
  apply format_history_last_six. reflexivity.
Defined.





(** ** The ranking parser, further *)

(** Whatever the text, the parser returns nothing but labels of the form
    "Response <uppercase letter>". *)
Theorem parsed_labels_are_labels (ranking_text : str) :
  parse_ranking_from_text ranking_text = Ok (parsed_labels ranking_text) /\
  Forall is_label (parsed_labels ranking_text).
Proof.
  split; [apply parse_ranking_parsed_labels|].
  unfold parsed_labels, parse_ranking_from_text.
  assert (Hl : forall s, Forall is_label (findall label_re s)).
  { intros s. apply Forall_forall. intros m Hm.
    now apply findall_label_shape in Hm. }
  destruct (contains FINAL_RANKING ranking_text); [|apply Hl].
  destruct (2 <=? length (split FINAL_RANKING ranking_text)); [|apply Hl].
  destruct (findall numbered_re _) eqn:E; [apply Hl|].
  rewrite <- E, numbered_labels_ok. apply Forall_map, Forall_forall.
  intros m Hm.
  apply findall_numbered_shape in Hm as (ds & ws & c & -> & _ & _ & _ & Hc).
  rewrite label_token_numbered_item. exists c. auto.
Qed.

Lemma startswith_overlap (p x rest : str) :
  startswith p (x ++ rest) = true -> length x < length p ->
  startswith (skipn (length x) p) rest = true.
Proof.
  intros H Hlen. apply startswith_spec in H as [u H].
  apply app_eq_app in H as [l [[-> _] | [-> H]]].
  - rewrite length_app in Hlen. lia.
  - rewrite skipn_app, skipn_all, Nat.sub_diag. simpl.
    apply startswith_spec. eauto.
Qed.

(** No character of "Response " after the first is an R. *)
Lemma Response_single_R (j : nat) (rest : str) :
  1 <= j < 9 -> startswith (skipn j (lit "Response ")) (82%N :: rest) = false.
Proof.
  intros Hj.
  assert (H : forallb
                (fun j => match skipn j (lit "Response ") with
                          | c :: _ => negb (char_eqb c 82%N)
                          | [] => false
                          end)
                (seq 1 8) = true) by reflexivity.
  rewrite forallb_forall in H. specialize (H j).
  rewrite in_seq in H. specialize (H ltac:(lia)).
  destruct (skipn j (lit "Response ")) as [|c u]; [discriminate|].
  apply negb_true_iff in H. simpl. now rewrite H.
Qed.

(** No label starts inside a text without "Response " that is followed by
    a label. *)
Lemma no_label_in_filler (w : str) (c : char) (rest : str) (i : nat) :
  contains (lit "Response ") w = false -> i < length w ->
  match_at label_re (skipn i (w ++ response_label c ++ rest)) = None.
Proof.
  intros Hw Hi. rewrite skipn_app.
  replace (i - length w) with 0 by lia. cbn [skipn].
  destruct (match_at label_re _) eqn:E; [|reflexivity]. exfalso.
  apply match_at_label_inv in E as (c' & rest' & E & _ & _).
  assert (Hs : startswith (lit "Response ")
                 (skipn i w ++ response_label c ++ rest) = true).
  { apply startswith_spec. exists (c' :: rest'). rewrite E.
    unfold response_label. now rewrite <- app_assoc. }
  destruct (Nat.le_gt_cases 9 (length (skipn i w))) as [L | L].
  - apply startswith_shorter in Hs; [|exact L].
    now rewrite contains_false_skipn in Hs.
  - apply startswith_overlap in Hs; [|exact L].
    unfold response_label in Hs. rewrite <- app_assoc in Hs.
    change (lit "Response " ++ [c] ++ rest)
      with (82%N :: skipn 1 (lit "Response ") ++ [c] ++ rest) in Hs.
    rewrite Response_single_R in Hs; [discriminate|].
    rewrite length_skipn in *. lia.
Qed.

Lemma findall_go_nomatch_prefix (r : regex) (w rest : str) :
  (forall i, i < length w -> match_at r (skipn i (w ++ rest)) = None) ->
  findall_go r (w ++ rest) 0 = findall_go r rest 0.
Proof.
  induction w as [|c w IH]; intros H; [reflexivity|].
  cbn [app]. rewrite findall_go_cons.
  assert (H0 := H 0 ltac:(simpl; lia)). cbn [skipn app] in H0. rewrite H0.
  apply IH. intros i Hi. apply (H (S i)). simpl; lia.
Qed.

(** In a text that names answers, [findall] finds the labels named, in
    order, repeats included. *)
Lemma findall_label_mentions (items : list (str * char)) (tail : str) :
  Forall well_formed_mention items ->
  contains (lit "Response ") tail = false ->
  findall label_re (mentions items ++ tail) =
  map (fun it => response_label (snd it)) items.
Proof.
  intros Hitems Htail. unfold findall.
  induction Hitems as [|[w c] items [Hw Hc] _ IH]; cbn [fst snd] in *.
  - change (mentions [] ++ tail) with tail.
    apply findall_go_nil. intros i.
    destruct (match_at label_re (skipn i tail)) eqn:E; [|reflexivity].
    exfalso. apply match_at_label_inv in E as (c' & rest' & E & _ & _).
    assert (H : contains (lit "Response ") tail = true); [|congruence].
    apply contains_spec. exists (firstn i tail), (c' :: rest').
    rewrite <- (firstn_skipn i tail) at 1. rewrite E.
    unfold response_label. now rewrite <- app_assoc.
  - cbn [mentions flat_map map fst snd]. fold (mentions items).
    rewrite <- !app_assoc.
    rewrite findall_go_nomatch_prefix
      by (intros i Hi; now apply no_label_in_filler).
    change (response_label c ++ mentions items ++ tail)
      with (82%N :: skipn 1 (response_label c) ++ mentions items ++ tail).
    rewrite findall_go_cons.
    change (82%N :: skipn 1 (response_label c) ++ mentions items ++ tail)
      with (response_label c ++ mentions items ++ tail).
    rewrite match_at_label by assumption. f_equal.
    change (10 - 1) with (length (skipn 1 (response_label c))).
    rewrite findall_go_skip. exact IH.
Qed.

(** A text without the marker is read as a whole: the parser returns every
    label the text names, in order of appearance, repeats included. *)
Theorem parse_ranking_free_text (items : list (str * char)) (tail : str) :
  contains FINAL_RANKING (mentions items ++ tail) = false ->
  Forall well_formed_mention items ->
  contains (lit "Response ") tail = false ->
  parse_ranking_from_text (mentions items ++ tail) =
  Ok (map (fun it => response_label (snd it)) items).
Proof.
  intros Hm Hitems Htail. unfold parse_ranking_from_text. rewrite Hm.
  f_equal. now apply findall_label_mentions.
Qed.

Lemma parse_ranking_free_text_witness :
  parse_ranking_from_text
    (mentions [(lit "I prefer ", 65%N); (lit " to ", 67%N);
               (lit ", and again ", 65%N)] ++ lit ".") =
  Ok [lit "Response A"; lit "Response C"; lit "Response A"].
Proof.
  apply (parse_ranking_free_text
           [(lit "I prefer ", 65%N); (lit " to ", 67%N);
            (lit ", and again ", 65%N)] (lit "."));
    [reflexivity | | reflexivity].
  repeat constructor.
Defined.

(** After a single marker that no numbered line follows, the parser falls
    back to the labels named after the marker, in order of appearance;
    what is named before the marker is ignored. *)
Theorem parse_ranking_marker_fallback (pre : str) (items : list (str * char))
    (tail : str) :
  contains FINAL_RANKING pre = false ->
  contains FINAL_RANKING (mentions items ++ tail) = false ->
  findall numbered_re (mentions items ++ tail) = [] ->
  Forall well_formed_mention items ->
  contains (lit "Response ") tail = false ->
  parse_ranking_from_text (pre ++ FINAL_RANKING ++ mentions items ++ tail) =
  Ok (map (fun it => response_label (snd it)) items).
Proof.
  intros Hpre Hpost Hnum Hitems Htail. unfold parse_ranking_from_text.
  assert (Hc : contains FINAL_RANKING
                 (pre ++ FINAL_RANKING ++ mentions items ++ tail) = true)
    by (apply contains_spec; eauto).
  rewrite Hc, split_single; auto using FINAL_RANKING_border_free;
    [|discriminate].
  cbn [length Nat.leb nth]. rewrite Hnum. f_equal.
  now apply findall_label_mentions.
Qed.

Lemma parse_ranking_marker_fallback_witness :
  parse_ranking_from_text
    (lit "Response B is weak. " ++ FINAL_RANKING ++
     mentions [(lit " first ", 67%N); (lit ", then ", 65%N)] ++ lit ".") =
  Ok [lit "Response C"; lit "Response A"].
Proof.
  apply (parse_ranking_marker_fallback (lit "Response B is weak. ")
           [(lit " first ", 67%N); (lit ", then ", 65%N)] (lit "."));
    [reflexivity | reflexivity | reflexivity | | reflexivity].
  repeat constructor.
Defined.

(** ** The rank aggregator, further *)

Lemma collect_positions_texts (label_to_model : dict str)
    (s2 s2' : list JudgeRanking) (mp : dict (list nat)) :
  map ranking s2 = map ranking s2' ->
  collect_positions label_to_model mp s2 =
  collect_positions label_to_model mp s2'.
Proof.
  revert s2' mp; induction s2 as [|r s2 IH]; intros [|r' s2'] mp H;
    try discriminate; [reflexivity|].
  simpl in H. injection H as Hr Hs. simpl. rewrite Hr.
  destruct (parse_ranking_from_text (ranking r')); simpl; auto.
Qed.

(** The aggregator reads the judges' texts only: it parses each text
    again, and neither the stored [parsed_ranking] nor the judge's name
    changes the aggregate. *)
Theorem aggregate_reads_texts_only (stage2_results stage2_results' :
    list JudgeRanking) (label_to_model : dict str) :
  map ranking stage2_results = map ranking stage2_results' ->
  calculate_aggregate_rankings stage2_results label_to_model =
  calculate_aggregate_rankings stage2_results' label_to_model.
Proof.
  intros H. unfold calculate_aggregate_rankings.
  now rewrite (collect_positions_texts _ _ _ _ H).
Qed.

Lemma aggregate_reads_texts_only_witness :
  calculate_aggregate_rankings
    [judge_of (lit "openai/gpt-oss-20b") marker_ranking] three_registry =
  calculate_aggregate_rankings
    [{| judge_model := lit "another judge"; ranking := marker_ranking;
        parsed_ranking := [lit "Response B"] |}] three_registry.
Proof.
  apply aggregate_reads_texts_only. reflexivity.
Defined.

Lemma positions_among_nil (label_to_model : dict str)
    (indexed : list (nat * str)) (m : str) :
  (forall pl, In pl indexed -> dict_get label_to_model (snd pl) = None) ->
  positions_among label_to_model indexed m = [].
Proof.
  induction indexed as [|pl indexed IH]; intros H; [reflexivity|].
  unfold positions_among in *. cbn [flat_map].
  rewrite (H pl) by now left. apply IH. intros; apply H; now right.
Qed.

Lemma flat_map_nil {A B} (f : A -> list B) (l : list A) :
  (forall a, In a l -> f a = []) -> flat_map f l = [].
Proof.
  induction l as [|a l IH]; intros H; [reflexivity|]. simpl.
  rewrite (H a) by now left. apply IH. intros; apply H; now right.
Qed.

Lemma enumerate_In {A} (l : list A) (start : nat) (pl : nat * A) :
  In pl (enumerate l start) -> In (snd pl) l.
Proof.
  revert start; induction l as [|a l IH]; intros start; simpl; [tauto|].
  intros [<- | H]; [now left | right; eauto].
Qed.

(** When no judge names a label of the registry (and when there is no
    judge at all) the aggregate is empty. *)
Theorem aggregate_without_known_label (stage2_results : list JudgeRanking)
    (label_to_model : dict str) :
  (forall r label,
     In r stage2_results -> In label (parsed_labels (ranking r)) ->
     dict_get label_to_model label = None) ->
  calculate_aggregate_rankings stage2_results label_to_model = Ok [].
Proof.
  intros H.
  destruct (calculate_aggregate_rankings_run stage2_results label_to_model)
    as (final & Hwf & Hpos & Hrun).
  rewrite Hrun. f_equal.
  assert (Hnil : final = []).
  { destruct final as [|[k l] final]; [reflexivity|]. exfalso.
    assert (Hk : positions_of ((k, l) :: final) k <> []).
    { apply positions_of_keys; [exact Hwf | now left]. }
    apply Hk. rewrite Hpos. unfold recorded_positions.
    apply flat_map_nil. intros r Hr.
    apply positions_among_nil. intros pl Hpl.
    apply (H r); [exact Hr | now apply enumerate_In in Hpl]. }
  now rewrite Hnil.
Qed.

Lemma aggregate_without_known_label_witness :
  calculate_aggregate_rankings
    [judge_of (lit "openai/gpt-oss-20b") (lit "Response X is best.")]
    three_registry = Ok [].
Proof.
  apply aggregate_without_known_label.
  intros r label [<- | []] Hl. vm_compute in Hl.
  destruct Hl as [<- | []]. reflexivity.
Defined.

(** *** Ties keep the order of first observation *)

Lemma float_lt_negtrans (x y z : float) :
  x <> S754_nan -> y <> S754_nan -> z <> S754_nan ->
  float_lt x y = false -> float_lt y z = false -> float_lt x z = false.
Proof.
  unfold float_lt, SFltb.
  destruct x as [sx|sx| |sx mx ex], y as [sy|sy| |sy my ey],
           z as [sz|sz| |sz mz ez];
    try destruct sx; try destruct sy; try destruct sz; simpl;
    try congruence; intros _ _ _;
    cmp_cases; simpl; try discriminate; try reflexivity; try lia.
Qed.

Lemma precedes_In {A} (x y : A) (l : list A) :
  precedes x y l -> In x l /\ In y l.
Proof.
  induction 1 as [l H | z l H [IHx IHy]]; simpl; auto.
Qed.

Lemma precedes_app_l {A} (x y : A) (l l' : list A) :
  precedes x y l -> precedes x y (l ++ l').
Proof.
  induction 1 as [l H | z l H IH]; simpl.
  - apply precedes_here. apply in_or_app. now left.
  - now apply precedes_later.
Qed.

Lemma precedes_app_r {A} (x y : A) (l l' : list A) :
  precedes x y l' -> precedes x y (l ++ l').
Proof.
  intros H. induction l as [|z l IH]; simpl; auto using precedes_later.
Qed.

Lemma precedes_In_app {A} (x y : A) (l l' : list A) :
  In x l -> In y l' -> precedes x y (l ++ l').
Proof.
  intros Hx Hy. induction l as [|z l IH]; [destruct Hx|].
  destruct Hx as [-> | Hx]; simpl.
  - apply precedes_here. apply in_or_app. now right.
  - apply precedes_later. auto.
Qed.

Lemma precedes_app_inv {A} (x y : A) (l l' : list A) :
  precedes x y (l ++ l') ->
  precedes x y l \/ (In x l /\ In y l') \/ precedes x y l'.
Proof.
  induction l as [|z l IH]; simpl; intros H; [auto|].
  inversion H as [l0 Hy | z0 l0 Hp]; subst.
  - apply in_app_or in Hy as [Hy | Hy].
    + left. now apply precedes_here.
    + right. left. auto.
  - destruct (IH Hp) as [H1 | [[H1 H2] | H1]]; auto using precedes_later.
Qed.

Lemma precedes_map_inv {A B} (f : A -> B) (x y : A) (l : list A) :
  NoDup (map f l) -> In x l -> In y l ->
  precedes (f x) (f y) (map f l) -> precedes x y l.
Proof.
  induction l as [|z l IH]; simpl; intros Hnd Hx Hy H; [destruct Hx|].
  inversion Hnd as [|? ? Hz Hnd']; subst.
  assert (Hinj : forall a, In a l -> f a = f z -> False).
  { intros a Ha E. apply Hz. rewrite <- E. now apply in_map. }
  inversion H as [l0 Hfy E | z0 l0 Hp]; subst.
  - destruct Hx as [-> | Hx]; [|exfalso; eapply Hinj; eauto].
    apply precedes_here. destruct Hy as [<- | Hy]; auto.
    exfalso. now apply Hz.
  - destruct Hx as [-> | Hx].
    { apply precedes_In in Hp as [Hp _]. contradiction. }
    destruct Hy as [-> | Hy].
    { apply precedes_In in Hp as [_ Hp]. contradiction. }
    apply precedes_later. auto.
Qed.

Section Stability.

Context {A : Type} (lt : A -> A -> bool) (P : A -> Prop).

Hypothesis lt_asym : forall a b, lt a b = true -> lt b a = false.
Hypothesis lt_trans : forall a b c, lt a b = true -> lt b c = true ->
                                    lt a c = true.
Hypothesis lt_negtrans : forall a b c, P a -> P b -> P c ->
  lt a b = false -> lt b c = false -> lt a c = false.

Lemma sort_insert_In (w : A) (l : list A) (a : A) :
  In a (sort_insert lt w l) <-> a = w \/ In a l.
Proof.
  split; intros H.
  - apply (Permutation_in _ (sort_insert_Permutation lt w l)) in H.
    destruct H; auto.
  - apply (Permutation_in _ (Permutation_sym (sort_insert_Permutation lt w l))).
    destruct H; [left | right]; auto.
Qed.

(** An insertion keeps the elements already placed in their order. *)
Lemma sort_insert_keeps (w x y : A) (l : list A) :
  precedes x y l -> precedes x y (sort_insert lt w l).
Proof.
  induction 1 as [l H | z l H IH]; simpl.
  - destruct (lt w x).
    + apply precedes_later, precedes_here, H.
    + apply precedes_here. apply sort_insert_In. auto.
  - destruct (lt w z); auto using precedes_later.
Qed.

(** An element goes after every element already placed that it is not
    smaller than. *)
Lemma sort_insert_after (x y : A) (l : list A) :
  ascending lt l -> Forall P l -> P y -> In x l -> lt y x = false ->
  precedes x y (sort_insert lt y l).
Proof.
  unfold ascending. induction 1 as [|z l Hs IH Hz]; intros HP Py Hx Hyx;
    [destruct Hx|].
  inversion HP as [|? ? Pz HP']; subst. simpl.
  destruct Hx as [-> | Hx].
  - rewrite Hyx. apply precedes_here. apply sort_insert_In. auto.
  - assert (Hxz : lt x z = false).
    { rewrite Forall_forall in Hz. auto. }
    assert (Px : P x) by (rewrite Forall_forall in HP'; auto).
    rewrite (lt_negtrans y x z Py Px Pz Hyx Hxz).
    apply precedes_later. auto.
Qed.

Lemma sort_insert_step (w x y : A) (acc l : list A) :
  ascending lt acc -> Forall P acc -> P w -> lt y x = false ->
  precedes x y (acc ++ w :: l) ->
  precedes x y (sort_insert lt w acc ++ l).
Proof.
  intros Hasc HP Pw Hyx H.
  apply precedes_app_inv in H as [H | [[Hx Hy] | H]].
  - apply precedes_app_l, sort_insert_keeps, H.
  - destruct Hy as [-> | Hy].
    + apply precedes_app_l, sort_insert_after; auto.
    + apply precedes_In_app; auto. apply sort_insert_In. auto.
  - inversion H as [l0 Hy | z0 l0 Hp]; subst.
    + apply precedes_In_app; auto. apply sort_insert_In. auto.
    + now apply precedes_app_r.
Qed.

(** The sort is stable: of two elements, the first stays first unless the
    second is smaller. *)
Lemma stable_sort_stable (x y : A) (l : list A) :
  Forall P l -> lt y x = false -> precedes x y l ->
  precedes x y (stable_sort lt l).
Proof.
  unfold stable_sort.
  assert (G : forall acc,
             ascending lt acc -> Forall P acc -> Forall P l ->
             lt y x = false -> precedes x y (acc ++ l) ->
             precedes x y
               (fold_left (fun sorted x => sort_insert lt x sorted) l acc)).
  { induction l as [|w l IH]; intros acc Hasc HPa HPl Hyx H; simpl.
    - now rewrite app_nil_r in H.
    - inversion HPl as [|? ? Pw HPl']; subst.
      apply IH; auto.
      + now apply sort_insert_ascending.
      + apply Forall_forall. intros a Ha. apply sort_insert_In in Ha.
        rewrite Forall_forall in HPa. destruct Ha as [-> | Ha]; auto.
      + now apply sort_insert_step. }
  intros HP Hyx H. apply G; auto. constructor.
Qed.

End Stability.

(** *** The order of the dictionary *)

Lemma existsb_keys {V} (d : dict V) (m : str) :
  existsb (fun k => str_eqb k m) (map fst d) = dict_mem d m.
Proof.
  unfold dict_mem. induction d as [|[k v] d IH]; simpl; [reflexivity|].
  destruct (str_eqb k m); simpl; auto.
Qed.

Lemma dict_append_keys (mp : dict (list nat)) (k : str) (x : nat) :
  map fst (dict_append mp k x) =
  if existsb (fun k' => str_eqb k' k) (map fst mp)
  then map fst mp else map fst mp ++ [k].
Proof.
  rewrite existsb_keys. unfold dict_append, dict_mem.
  destruct (dict_get mp k) eqn:E; rewrite dict_set_keys, E; reflexivity.
Qed.

Lemma first_seen_app (seen l l' : list str) :
  first_seen seen (l ++ l') = first_seen (first_seen seen l) l'.
Proof.
  revert seen; induction l as [|m l IH]; intros seen; simpl; auto.
  destruct (existsb _ seen); auto.
Qed.

Lemma record_fold_keys (label_to_model : dict str)
    (indexed : list (nat * str)) (mp : dict (list nat)) :
  map fst
    (fold_left
       (fun mp pl =>
          let '(position, label) := pl in
          if dict_mem label_to_model label then
            match dict_get label_to_model label with
            | Some model_name => dict_append mp model_name position
            | None => mp
            end
          else mp)
       indexed mp) =
  first_seen (map fst mp) (named_models label_to_model (map snd indexed)).
Proof.
  revert mp; induction indexed as [|[position label] indexed IH]; intros mp;
    [reflexivity|].
  cbn [fold_left map snd named_models flat_map]. unfold dict_mem.
  fold (named_models label_to_model (map snd indexed)).
  destruct (dict_get label_to_model label) as [mn|]; [|apply IH].
  rewrite IH, dict_append_keys. cbn [app first_seen].
  destruct (existsb _ (map fst mp)); reflexivity.
Qed.

Lemma map_snd_enumerate {A} (l : list A) (start : nat) :
  map snd (enumerate l start) = l.
Proof.
  revert start; induction l as [|a l IH]; intros start; simpl; [reflexivity|].
  now rewrite IH.
Qed.

Lemma collect_positions_keys (label_to_model : dict str)
    (stage2_results : list JudgeRanking) (mp final : dict (list nat)) :
  collect_positions label_to_model mp stage2_results = Ok final ->
  map fst final =
  first_seen (map fst mp)
    (flat_map
       (fun r => named_models label_to_model (parsed_labels (ranking r)))
       stage2_results).
Proof.
  revert mp; induction stage2_results as [|r rest IH]; intros mp; simpl.
  - intros H; injection H as <-. reflexivity.
  - rewrite parse_ranking_parsed_labels. simpl. intros H.
    rewrite (IH _ H), first_seen_app. f_equal.
    unfold record_positions. rewrite record_fold_keys.
    now rewrite map_snd_enumerate.
Qed.

(** The entries with the same mean (more generally: two entries of which
    the second is not strictly better) come in the order in which the
    judges first named their models. *)
Theorem aggregate_ties_first_observed (stage2_results : list JudgeRanking)
    (label_to_model : dict str) :
  exists aggregate,
    calculate_aggregate_rankings stage2_results label_to_model =
      Ok aggregate /\
    forall x y,
      In x aggregate -> In y aggregate ->
      precedes (model x) (model y)
        (first_observed label_to_model stage2_results) ->
      float_lt (average_rank y) (average_rank x) = false ->
      precedes x y aggregate.
Proof.
  destruct (collect_positions_spec label_to_model stage2_results []
              well_formed_nil) as (final & Hc & Hwf & Hpos).
  unfold calculate_aggregate_rankings. rewrite Hc. cbn [res_bind].
  eexists. split; [reflexivity|].
  set (lt := fun x y : AggregateEntry =>
               float_lt (average_rank x) (average_rank y)).
  pose proof (stable_sort_Permutation lt (aggregate_entries final)) as Hperm.
  intros x y Hx Hy Hprec Hlt.
  apply (Permutation_in _ Hperm) in Hx, Hy.
  assert (Hnan : Forall (fun e => average_rank e <> S754_nan)
                   (aggregate_entries final)).
  { apply Forall_forall. intros e He.
    apply aggregate_entries_In in He as [Hne ->]; [|exact Hwf].
    now apply entry_of_not_nan. }
  apply stable_sort_stable
    with (P := fun e => average_rank e <> S754_nan); auto.
  - intros a b. apply float_lt_asym.
  - intros a b c. apply float_lt_trans.
  - intros a b c. apply float_lt_negtrans.
  - apply (precedes_map_inv model); auto.
    + rewrite aggregate_entries_models by exact Hwf. apply Hwf.
    + rewrite aggregate_entries_models by exact Hwf.
      rewrite (collect_positions_keys _ _ _ _ Hc). exact Hprec.
Qed.

(** ** The title generator, further *)





(** Whatever the title model does, [generate_conversation_title] makes one
    request (to the title model, with 30 tokens at most), does not raise,
    and returns a title that is not empty. *)
Theorem title_never_empty (invoke : Oracle) (user_query : str) (log : Log) :
  exists title,
    generate_conversation_title invoke user_query log =
      (Ok title,
       log ++ [Invoke (request TITLE_MODEL (title_messages user_query) 30)]) /\
    title <> [].
Proof.
  unfold generate_conversation_title.
  rewrite (@bind_Ok _ _ _ _ _ _ _ (query_model_run invoke _ _ _ _)).
  destruct (invoke log _) as [c|]; eexists; (split; [reflexivity|]).
  - unfold clean_title. destruct (if _ <? _ then _ else _) eqn:E;
      discriminate.
  - intros E. apply (f_equal (@length _)) in E.
    rewrite length_app in E. simpl in E. lia.
Qed.



(** ** The fan-out and the stages, further *)

Lemma fan_out_replies (invoke : Oracle) (models : list str)
    (messages : list Message) (log : Log) :
  mapM (fun model => query_model invoke model messages 2048) models log =
  (Ok (replies invoke log models messages),
   log ++ fan_out_calls models messages).
Proof.
  revert log; induction models as [|m models IH]; intros log.
  - simpl. unfold ret. now rewrite app_nil_r.
  - cbn [mapM replies].
    rewrite (@bind_Ok _ _ _ _ _ _ _ (query_model_run invoke _ _ _ _)).
    rewrite (@bind_Ok _ _ _ _ _ _ _ (IH _)). unfold ret, fan_out_calls.
    simpl map. now rewrite <- app_assoc.
Qed.

Lemma length_replies (invoke : Oracle) (models : list str)
    (messages : list Message) (log : Log) :
  length (replies invoke log models messages) = length models.
Proof.
  revert log; induction models as [|m models IH]; intros log; simpl; auto.
Qed.

Lemma map_fst_combine_replies (invoke : Oracle) (models : list str)
    (messages : list Message) (log : Log) :
  map fst (combine models (replies invoke log models messages)) = models.
Proof.
  revert log; induction models as [|m models IH]; intros log; simpl;
    [reflexivity|]. now rewrite IH.
Qed.

(** The fan-out over distinct models, as a run. *)
Lemma fan_out_distinct (invoke : Oracle) (models : list str)
    (messages : list Message) (log : Log) :
  NoDup models ->
  query_models_parallel invoke models messages log =
    (Ok (combine models (replies invoke log models messages)),
     log ++ fan_out_calls models messages) /\
  map fst (combine models (replies invoke log models messages)) = models.
Proof.
  intros Hnd. split; [|apply map_fst_combine_replies].
  unfold query_models_parallel.
  rewrite (@bind_Ok _ _ _ _ _ _ _ (fan_out_replies invoke _ _ _)).
  unfold ret. f_equal. f_equal. apply dict_of_pairs_NoDup.
  now rewrite map_fst_combine_replies.
Qed.

(** For distinct models the fan-out returns one entry per model, in the
    order of the models, holding the reply to that model's request; it
    makes one request per model and does not raise. *)
Theorem query_models_parallel_distinct (invoke : Oracle) (models : list str)
    (messages : list Message) (log : Log) :
  NoDup models ->
  query_models_parallel invoke models messages log =
    (Ok (combine models (replies invoke log models messages)),
     log ++ fan_out_calls models messages) /\
  map fst (combine models (replies invoke log models messages)) = models.
Proof. apply fan_out_distinct. Qed.

Lemma NoDup_COUNCIL_MODELS : NoDup COUNCIL_MODELS.
Proof.
  unfold COUNCIL_MODELS. repeat constructor; simpl;
    intuition discriminate.
Qed.

Lemma query_models_parallel_distinct_witness :
  query_models_parallel chairman_down COUNCIL_MODELS
    (stage1_messages sample_query None) [] =
    (Ok (combine COUNCIL_MODELS
           (replies chairman_down [] COUNCIL_MODELS
              (stage1_messages sample_query None))),
     [] ++ fan_out_calls COUNCIL_MODELS (stage1_messages sample_query None)) /\
  map fst (combine COUNCIL_MODELS
             (replies chairman_down [] COUNCIL_MODELS
                (stage1_messages sample_query None))) = COUNCIL_MODELS.
Proof.
  apply query_models_parallel_distinct. exact NoDup_COUNCIL_MODELS.
Defined.

Lemma successful_keys (responses : list (str * option str)) :
  NoDup (map fst responses) ->
  NoDup (map fst (successful responses)) /\
  forall m, In m (map fst (successful responses)) -> In m (map fst responses).
Proof.
  induction responses as [|[m [c|]] rs IH]; simpl; intros Hnd.
  - split; [constructor | tauto].
  - inversion Hnd as [|? ? Hm Hnd']; subst.
    destruct (IH Hnd') as [IH1 IH2]. split.
    + constructor; auto.
    + intros x [<- | Hx]; auto.
  - inversion Hnd as [|? ? Hm Hnd']; subst.
    destruct (IH Hnd') as [IH1 IH2]. split; auto.
Qed.

Lemma answers_successful (responses : list (str * option str)) :
  flat_map
    (fun mr =>
       match snd mr with
       | Some c => [{| answer_model := fst mr; response := c |}]
       | None => []
       end)
    responses = map answer_of (successful responses).
Proof.
  induction responses as [|[m [c|]] rs IH]; simpl; [reflexivity| |exact IH].
  now rewrite IH.
Qed.

(** Stage 1, as a run. *)
Lemma stage1_answers_run (invoke : Oracle) (user_query : str)
    (conversation_history : option str) (log : Log) :
  let messages := stage1_messages user_query conversation_history in
  let s1 := map answer_of
              (successful
                 (combine COUNCIL_MODELS
                    (replies invoke log COUNCIL_MODELS messages))) in
  stage1_collect_responses invoke user_query conversation_history log =
    (Ok s1, log ++ fan_out_calls COUNCIL_MODELS messages) /\
  NoDup (map answer_model s1) /\
  (forall a, In a s1 -> In (answer_model a) COUNCIL_MODELS).
Proof.
  intros messages s1.
  destruct (fan_out_distinct invoke COUNCIL_MODELS messages log
              NoDup_COUNCIL_MODELS) as [Hrun Hkeys].
  destruct (successful_keys
              (combine COUNCIL_MODELS
                 (replies invoke log COUNCIL_MODELS messages))) as [H1 H2].
  { rewrite Hkeys. exact NoDup_COUNCIL_MODELS. }
  split; [|split].
  - unfold stage1_collect_responses. fold messages.
    rewrite (@bind_Ok _ _ _ _ _ _ _ Hrun). unfold ret.
    now rewrite answers_successful.
  - unfold s1. rewrite map_map. exact H1.
  - intros a Ha. rewrite <- Hkeys at 1. apply H2.
    unfold s1 in Ha. apply in_map_iff in Ha as (mc & <- & Hmc).
    now apply (in_map fst) in Hmc.
Qed.

(** Stage 1 asks every council member once and returns, in the order of
    the council, the members that replied with the content of their reply:
    the models of the answers are distinct council members. *)
Theorem stage1_answers (invoke : Oracle) (user_query : str)
    (conversation_history : option str) (log : Log) :
  let messages := stage1_messages user_query conversation_history in
  let s1 := map answer_of
              (successful
                 (combine COUNCIL_MODELS
                    (replies invoke log COUNCIL_MODELS messages))) in
  stage1_collect_responses invoke user_query conversation_history log =
    (Ok s1, log ++ fan_out_calls COUNCIL_MODELS messages) /\
  NoDup (map answer_model s1) /\
  (forall a, In a s1 -> In (answer_model a) COUNCIL_MODELS).
Proof. apply stage1_answers_run. Qed.

(** Stage 2, as a run. *)
Lemma stage2_judges_run (invoke : Oracle) (user_query : str)
    (stage1_results : list ModelAnswer) (conversation_history : option str)
    (log : Log) :
  (N.of_nat (length stage1_results) <= max_labels)%N ->
  let labels := map label_at (seq 0 (length stage1_results)) in
  let messages :=
    stage2_messages
      (ranking_prompt user_query labels stage1_results conversation_history) in
  stage2_collect_rankings invoke user_query stage1_results
    conversation_history log =
  (Ok (map (fun mc => judge_of (fst mc) (snd mc))
         (successful
            (combine COUNCIL_MODELS
               (replies invoke log COUNCIL_MODELS messages))),
       label_pairs 0 stage1_results),
   log ++ fan_out_calls COUNCIL_MODELS messages).
Proof.
  intros Hlen labels messages. unfold stage2_collect_rankings.
  unfold bind at 1. unfold lift. rewrite (make_labels_ok _ Hlen).
  fold labels. fold messages.
  destruct (fan_out_distinct invoke COUNCIL_MODELS messages log
              NoDup_COUNCIL_MODELS) as [Hrun _].
  rewrite (@bind_Ok _ _ _ _ _ _ _ Hrun). unfold bind.
  change (flat_map _ (combine COUNCIL_MODELS _))
    with (successful (combine COUNCIL_MODELS
                        (replies invoke log COUNCIL_MODELS messages))).
  rewrite parse_all_run. unfold ret, labels.
  now rewrite make_label_to_model_pairs.
Qed.



(** ** The label registry *)

Lemma length_label_pairs (stage1_results : list ModelAnswer) (start : nat) :
  length (label_pairs start stage1_results) = length stage1_results.
Proof.
  revert start; induction stage1_results as [|a rest IH]; intros start; simpl;
    auto.
Qed.

Lemma label_pairs_In_inv (stage1_results : list ModelAnswer) (start : nat)
    (k m : str) :
  In (k, m) (label_pairs start stage1_results) ->
  exists i a, nth_error stage1_results i = Some a /\
              k = response_label (label_at (start + i)) /\
              m = answer_model a.
Proof.
  revert start; induction stage1_results as [|b rest IH]; intros start;
    simpl; [tauto|].
  intros [H | H].
  - injection H as <- <-. exists 0, b. rewrite Nat.add_0_r. auto.
  - destruct (IH _ H) as (i & a & Hn & -> & ->). exists (S i), a.
    rewrite <- Nat.add_succ_comm. auto.
Qed.

(** The registry of stage 2 has one label per answer: the label of the
    answer at index [i] maps to that answer's model, no label maps to
    anything else, and when the models of the answers are distinct no two
    labels map to the same model. *)
Theorem registry_labels_models (stage1_results : list ModelAnswer) :
  let label_to_model :=
    make_label_to_model (map label_at (seq 0 (length stage1_results)))
      stage1_results in
  length label_to_model = length stage1_results /\
  NoDup (map fst label_to_model) /\
  (forall i a,
     nth_error stage1_results i = Some a ->
     dict_get label_to_model (response_label (label_at i)) =
     Some (answer_model a)) /\
  (forall label m,
     dict_get label_to_model label = Some m ->
     exists i a, nth_error stage1_results i = Some a /\
                 label = response_label (label_at i) /\
                 m = answer_model a) /\
  (NoDup (map answer_model stage1_results) ->
   forall label label' m,
     dict_get label_to_model label = Some m ->
     dict_get label_to_model label' = Some m -> label = label').
Proof.
  intros reg. unfold reg. rewrite make_label_to_model_pairs.
  assert (Hinv : forall label m,
             dict_get (label_pairs 0 stage1_results) label = Some m ->
             exists i a, nth_error stage1_results i = Some a /\
                         label = response_label (label_at i) /\
                         m = answer_model a).
  { intros label m H. apply dict_get_Some_In in H.
    apply label_pairs_In_inv in H. exact H. }
  split; [apply length_label_pairs|]. split; [apply label_pairs_NoDup|].
  split; [|split; [exact Hinv|]].
  - intros i a H. apply dict_get_In; [apply label_pairs_NoDup|].
    now apply (label_pairs_nth stage1_results 0 i).
  - intros Hnd label label' m H H'.
    destruct (Hinv _ _ H) as (i & a & Hi & -> & Ha).
    destruct (Hinv _ _ H') as (i' & a' & Hi' & -> & Ha').
    assert (E : i = i'); [|now subst].
    rewrite NoDup_nth_error in Hnd. apply Hnd.
    + rewrite length_map. apply nth_error_Some. congruence.
    + rewrite !nth_error_map, Hi, Hi'. simpl. congruence.
Qed.

(** ** The batch pipeline, further *)

Lemma length_successful (responses : list (str * option str)) :
  length (successful responses) <= length responses.
Proof.
  induction responses as [|[m [c|]] rs IH]; simpl; lia.
Qed.

Lemma stage1_answers_labelled (invoke : Oracle) (log : Log)
    (messages : list Message) :
  (N.of_nat
     (length (map answer_of
                (successful
                   (combine COUNCIL_MODELS
                      (replies invoke log COUNCIL_MODELS messages)))))
   <= max_labels)%N.
Proof.
  apply COUNCIL_MODELS_labelled. rewrite length_map.
  etransitivity; [apply length_successful|].
  rewrite length_combine. lia.
Qed.

(** The run of the batch pipeline, stage by stage. *)
Lemma run_full_council_stages (invoke : Oracle) (user_query : str)
    (conversation_messages : list ConvMessage) (log : Log) :
  let h := history_of conversation_messages in
  exists s1 s2 s3 aggregate log',
    run_full_council invoke user_query conversation_messages log =
      (Ok match s1 with
          | [] => ([], [], all_failed, None)
          | _ :: _ =>
              (s1, s2, s3,
               Some {| meta_label_to_model := label_pairs 0 s1;
                       meta_aggregate_rankings := aggregate;
                       had_context :=
                         match conversation_messages with
                         | [] => false
                         | _ :: _ => true
                         end |})
          end, log') /\
    log' =
      log ++ fan_out_calls COUNCIL_MODELS (stage1_messages user_query h) ++
      match s1 with
      | [] => []
      | _ :: _ =>
          fan_out_calls COUNCIL_MODELS
            (stage2_messages
               (ranking_prompt user_query
                  (map label_at (seq 0 (length s1))) s1 h)) ++
          [Invoke (request CHAIRMAN_MODEL
                     (stage3_messages (chairman_prompt user_query s1 s2 h))
                     2048)]
      end /\
    (s1 <> [] ->
     calculate_aggregate_rankings s2 (label_pairs 0 s1) = Ok aggregate /\
     Forall (fun j => parsed_ranking j = parsed_labels (ranking j)) s2 /\
     (s3 = synthesis_error \/
      exists c, s3 = {| answer_model := CHAIRMAN_MODEL; response := c |}) /\
     exists log1 messages,
       is_judge_call (request (lit "judge") messages 2048) /\
       s2 = map (fun mc => judge_of (fst mc) (snd mc))
              (successful
                 (combine COUNCIL_MODELS
                    (replies invoke log1 COUNCIL_MODELS messages)))).
Proof.
  intros h. unfold run_full_council. fold h.
  destruct (stage1_answers_run invoke user_query h log) as (H1 & _ & _).
  pose proof (stage1_answers_labelled invoke log
                (stage1_messages user_query h)) as Hlen.
  cbv zeta in H1.
  remember (map answer_of
              (successful
                 (combine COUNCIL_MODELS
                    (replies invoke log COUNCIL_MODELS
                       (stage1_messages user_query h))))) as s1 eqn:Es1.
  clear Es1. rewrite (@bind_Ok _ _ _ _ _ _ _ H1).
  destruct s1 as [|a s1'].
  - exists [], [], all_failed, [].
    eexists. split; [reflexivity|]. split; [|congruence].
    now rewrite !app_nil_r.
  - set (s1 := a :: s1') in *.
    pose proof (stage2_judges_run invoke user_query s1 h
                  (log ++ fan_out_calls COUNCIL_MODELS
                            (stage1_messages user_query h)) Hlen) as H2.
    cbv zeta in H2. set (s2 := map _ (successful _)) in H2.
    rewrite (@bind_Ok _ _ _ _ _ _ _ H2). cbv beta iota.
    destruct (calculate_aggregate_rankings_ok s2 (label_pairs 0 s1))
      as (aggr & Ha).
    rewrite (bind_lift_Ok _ _ _ _ Ha).
    rewrite (@bind_Ok _ _ _ _ _ _ _ (stage3_run invoke _ _ _ _ _)).
    unfold ret.
    assert (Hh : match h with Some _ => true | None => false end =
                 match conversation_messages with
                 | [] => false
                 | _ :: _ => true
                 end)
      by (unfold h, history_of; now destruct conversation_messages).
    rewrite Hh.
    exists s1, s2. eexists. exists aggr. eexists.
    split; [reflexivity|]. split.
    + change (match s1 with [] => [] | _ :: _ => ?y end) with y.
      now rewrite <- !app_assoc.
    + intros _. split; [exact Ha|]. split; [|split].
      * unfold s2. apply Forall_map, Forall_forall. intros mc _. reflexivity.
      * destruct (invoke _ _); eauto.
      * do 2 eexists. split; [|reflexivity]. eexists. reflexivity.
Qed.

Lemma invocations_app (l l' : Log) :
  invocations (l ++ l') = invocations l ++ invocations l'.
Proof. apply flat_map_app. Qed.

Lemma stored_app (l l' : Log) : stored (l ++ l') = stored l ++ stored l'.
Proof. apply flat_map_app. Qed.

Lemma invocations_fan_out_calls (models : list str)
    (messages : list Message) :
  invocations (fan_out_calls models messages) =
  map (fun model => request model messages 2048) models.
Proof. induction models; simpl; congruence. Qed.

Lemma stored_fan_out_calls (models : list str) (messages : list Message) :
  stored (fan_out_calls models messages) = [].
Proof. induction models; simpl; auto. Qed.


(** When stage 1 has answers, the metadata of the batch result are the
    registry of those answers, the aggregate of the rankings returned
    beside them under that registry, and whether earlier messages were
    given; every ranking returned carries the parse of its own text. With
    no answer there are no rankings and no metadata. *)
Theorem run_full_council_metadata (invoke : Oracle) (user_query : str)
    (conversation_messages : list ConvMessage) (log : Log) :
  exists s1 s2 s3 md log',
    run_full_council invoke user_query conversation_messages log =
      (Ok (s1, s2, s3, md), log') /\
    (s1 = [] -> s2 = [] /\ md = None) /\
    (s1 <> [] ->
     exists aggregate,
       md = Some {| meta_label_to_model := label_pairs 0 s1;
                    meta_aggregate_rankings := aggregate;
                    had_context :=
                      match conversation_messages with
                      | [] => false
                      | _ :: _ => true
                      end |} /\
       calculate_aggregate_rankings s2 (label_pairs 0 s1) = Ok aggregate /\
       Forall (fun j => parsed_ranking j = parsed_labels (ranking j)) s2).
Proof.
  destruct (run_full_council_stages invoke user_query conversation_messages
              log) as (s1 & s2 & s3 & aggr & log' & Hrun & _ & H).
  destruct s1 as [|a s1'].
  - do 5 eexists. split; [exact Hrun|]. split; [auto | congruence].
  - do 5 eexists. split; [exact Hrun|]. split; [congruence|].
    intros Hne. destruct (H Hne) as (Ha & Hp & _).
    exists aggr. auto.
Qed.





(** ** The streaming generator, further *)

(** The run of the generator, effect by effect. *)
Lemma event_generator_stages (invoke : Oracle) (conversation_id : str)
    (messages : list ConvMessage) (user_query : str) (log : Log) :
  let h := history_of (removelast messages) in
  exists s1 s2 s3 aggregate title,
    event_generator invoke conversation_id messages user_query log =
    (Ok tt,
     log ++ [Store (add_user_message conversation_id user_query)] ++
     match messages with
     | [] => [Invoke (request TITLE_MODEL (title_messages user_query) 30)]
     | _ :: _ => []
     end ++
     [Yield stage1_start] ++
     fan_out_calls COUNCIL_MODELS (stage1_messages user_query h) ++
     [Yield (stage1_complete s1); Yield stage2_start] ++
     fan_out_calls COUNCIL_MODELS
       (stage2_messages
          (ranking_prompt user_query (map label_at (seq 0 (length s1))) s1 h)) ++
     [Yield (stage2_complete s2 (label_pairs 0 s1) aggregate);
      Yield stage3_start;
      Invoke (request CHAIRMAN_MODEL
                (stage3_messages (chairman_prompt user_query s1 s2 h)) 2048);
      Yield (stage3_complete s3)] ++
     match messages with
     | [] => [Store (update_conversation_title conversation_id title);
              Yield (title_complete title)]
     | _ :: _ => []
     end ++
     [Store (add_assistant_message conversation_id s1 s2 s3);
      Yield complete]) /\
    title <> [] /\
    calculate_aggregate_rankings s2 (label_pairs 0 s1) = Ok aggregate.
Proof.
  intros h. unfold event_generator, try_except. fold h.
  rewrite bind_effect.
  set (log0 := log ++ [Store (add_user_message conversation_id user_query)]).
  assert (Hbody : forall (task : option (res str)) (logt : Log),
    exists s1 s2 s3 aggregate,
      calculate_aggregate_rankings s2 (label_pairs 0 s1) = Ok aggregate /\
      (effect (Yield stage1_start) ;;;
       stage1_results <- stage1_collect_responses invoke user_query h ;;
       effect (Yield (stage1_complete stage1_results)) ;;;
       effect (Yield stage2_start) ;;;
       ' (stage2_results, label_to_model) <-
         stage2_collect_rankings invoke user_query stage1_results h ;;
       aggregate_rankings <-
         lift (calculate_aggregate_rankings stage2_results label_to_model) ;;
       effect (Yield (stage2_complete stage2_results label_to_model
                        aggregate_rankings)) ;;;
       effect (Yield stage3_start) ;;;
       stage3_result <-
         stage3_synthesize_final invoke user_query stage1_results
           stage2_results h ;;
       effect (Yield (stage3_complete stage3_result)) ;;;
       match task with
       | Some (Ok title) =>
           effect (Store (update_conversation_title conversation_id title)) ;;;
           effect (Yield (title_complete title))
       | Some (Raise _) => ret tt
       | None => ret tt
       end ;;;
       effect (Store (add_assistant_message conversation_id stage1_results
                        stage2_results stage3_result)) ;;;
       effect (Yield complete)) logt =
      (Ok tt,
       logt ++ [Yield stage1_start] ++
       fan_out_calls COUNCIL_MODELS (stage1_messages user_query h) ++
       [Yield (stage1_complete s1); Yield stage2_start] ++
       fan_out_calls COUNCIL_MODELS
         (stage2_messages
            (ranking_prompt user_query (map label_at (seq 0 (length s1)))
               s1 h)) ++
       [Yield (stage2_complete s2 (label_pairs 0 s1) aggregate);
        Yield stage3_start;
        Invoke (request CHAIRMAN_MODEL
                  (stage3_messages (chairman_prompt user_query s1 s2 h))
                  2048);
        Yield (stage3_complete s3)] ++
       match task with
       | Some (Ok title) =>
           [Store (update_conversation_title conversation_id title);
            Yield (title_complete title)]
       | _ => []
       end ++
       [Store (add_assistant_message conversation_id s1 s2 s3);
        Yield complete])).
  { intros task logt. rewrite bind_effect.
    destruct (stage1_answers_run invoke user_query h (logt ++ [Yield stage1_start]))
      as (H1 & _ & _).
    pose proof (stage1_answers_labelled invoke
                  (logt ++ [Yield stage1_start])
                  (stage1_messages user_query h)) as Hlen.
    cbv zeta in H1.
    remember (map answer_of _) as s1 eqn:Es1. clear Es1.
    rewrite (@bind_Ok _ _ _ _ _ _ _ H1). rewrite !bind_effect.
    pose proof (stage2_judges_run invoke user_query s1 h
                  ((((logt ++ [Yield stage1_start]) ++
                     fan_out_calls COUNCIL_MODELS
                       (stage1_messages user_query h)) ++
                    [Yield (stage1_complete s1)]) ++ [Yield stage2_start])
                  Hlen) as H2.
    cbv zeta in H2. remember (map _ (successful _)) as s2 eqn:Es2. clear Es2.
    rewrite (@bind_Ok _ _ _ _ _ _ _ H2). cbv beta iota.
    destruct (calculate_aggregate_rankings_ok s2 (label_pairs 0 s1))
      as (aggr & Ha).
    rewrite (bind_lift_Ok _ _ _ _ Ha). rewrite !bind_effect.
    rewrite (@bind_Ok _ _ _ _ _ _ _ (stage3_run invoke _ _ _ _ _)).
    rewrite bind_effect.
    exists s1, s2. eexists. exists aggr. split; [exact Ha|].
    destruct task as [[title|e]|]; unfold bind, effect, ret;
      cbn [fst snd]; rewrite <- ?app_assoc; reflexivity. }
  destruct messages as [|m ms]; cbn [length Nat.eqb].
  - destruct (title_never_empty invoke user_query log0) as (title & Ht & Hne).
    assert (Et : bind (run_task (generate_conversation_title invoke
                                   user_query))
                   (fun t => ret (Some t)) log0 =
                 (Ok (Some (Ok title)),
                  log0 ++ [Invoke (request TITLE_MODEL
                                     (title_messages user_query) 30)])).
    { unfold bind, run_task. now rewrite Ht. }
    rewrite (@bind_Ok _ _ _ _ _ _ _ Et).
    destruct (Hbody (Some (Ok title))
                (log0 ++ [Invoke (request TITLE_MODEL
                                    (title_messages user_query) 30)]))
      as (s1 & s2 & s3 & aggr & Ha & Hrun).
    rewrite Hrun. exists s1, s2, s3, aggr, title.
    split; [|auto]. unfold log0. now rewrite <- !app_assoc.
  - rewrite bind_ret.
    destruct (Hbody None log0) as (s1 & s2 & s3 & aggr & Ha & Hrun).
    rewrite Hrun. exists s1, s2, s3, aggr, (lit "New Conversation").
    split; [|split; [discriminate | exact Ha]].
    unfold log0. now rewrite <- !app_assoc.
Qed.

Lemma yielded_cons_Invoke (c : Call) (l : Log) :
  yielded (Invoke c :: l) = yielded l.
Proof. reflexivity. Qed.

Ltac trace_simpl :=
  rewrite ?yielded_app, ?stored_app, ?invocations_app,
    ?yielded_fan_out_calls, ?stored_fan_out_calls,
    ?invocations_fan_out_calls.




(** When the replies depend on the request only, the generator yields the
    payloads of the batch pipeline run on the same query and the same
    earlier messages, provided stage 1 has an answer: the same answers,
    rankings, registry, aggregate and synthesis. *)
Theorem stream_yields_batch_payloads (invoke : Oracle)
    (conversation_id : str) (messages : list ConvMessage) (user_query : str)
    (log log' : Log) :
  stateless invoke ->
  exists s1 s2 s3 md logb,
    run_full_council invoke user_query (removelast messages) log =
      (Ok (s1, s2, s3, md), logb) /\
    (s1 <> [] ->
     exists label_to_model aggregate context,
       md = Some {| meta_label_to_model := label_to_model;
                    meta_aggregate_rankings := aggregate;
                    had_context := context |} /\
       In (stage1_complete s1)
          (yielded (snd (event_generator invoke conversation_id messages
                           user_query log'))) /\
       In (stage2_complete s2 label_to_model aggregate)
          (yielded (snd (event_generator invoke conversation_id messages
                           user_query log'))) /\
       In (stage3_complete s3)
          (yielded (snd (event_generator invoke conversation_id messages
                           user_query log')))).
Proof.
  intros Hst.
  destruct (run_full_council_returns invoke user_query (removelast messages)
              log) as (s1 & s2 & s3 & md & logb & Hrun & _).
  exists s1, s2, s3, md, logb. split; [exact Hrun|]. intros Hne.
  destruct (stream_agrees_with_batch invoke conversation_id messages
              user_query log log' logb s1 s2 s3 md Hst Hrun Hne)
    as (reg & aggr & ctx & tev & Hmd & _ & Hy & _).
  exists reg, aggr, ctx. split; [exact Hmd|]. rewrite Hy.
  repeat split; apply in_or_app; right; simpl; auto 8.
Qed.

Lemma chairman_down_stateless : stateless chairman_down.
Proof. intros log log' c. reflexivity. Qed.

Lemma stream_yields_batch_payloads_witness :
  exists s1 s2 s3 md logb,
    run_full_council chairman_down sample_query (removelast []) [] =
      (Ok (s1, s2, s3, md), logb) /\
    (s1 <> [] ->
     exists label_to_model aggregate context,
       md = Some {| meta_label_to_model := label_to_model;
                    meta_aggregate_rankings := aggregate;
                    had_context := context |} /\
       In (stage1_complete s1)
          (yielded (snd (event_generator chairman_down (lit "c1") []
                           sample_query []))) /\
       In (stage2_complete s2 label_to_model aggregate)
          (yielded (snd (event_generator chairman_down (lit "c1") []
                           sample_query []))) /\
       In (stage3_complete s3)
          (yielded (snd (event_generator chairman_down (lit "c1") []
                           sample_query [])))).
Proof.
  apply (stream_yields_batch_payloads chairman_down (lit "c1") []
           sample_query [] []).
  exact chairman_down_stateless.
Defined.

(** ** The conversation store *)

Lemma dict_get_del_same {V} (d : dict V) (k : str) :
  dict_get (dict_del d k) k = None.
Proof.
  induction d as [|[k0 v0] d IH]; simpl; [reflexivity|].
  destruct (str_eqb k0 k) eqn:E; [exact IH|]. simpl. now rewrite E.
Qed.

Lemma dict_get_del_other {V} (d : dict V) (k k' : str) :
  k <> k' -> dict_get (dict_del d k) k' = dict_get d k'.
Proof.
  intros Hne. induction d as [|[k0 v0] d IH]; simpl; [reflexivity|].
  destruct (str_eqb k0 k) eqn:E; simpl.
  - apply str_eqb_eq in E; subst k0.
    destruct (str_eqb k k') eqn:E'; [|exact IH].
    apply str_eqb_eq in E'. contradiction.
  - now rewrite IH.
Qed.

Lemma get_after_write (conversation_id : str) (c : Conversation) (w : World) :
  storage.get_conversation conversation_id
    (storage.write_file (storage.get_conversation_filepath conversation_id)
       c w) = Some c.
Proof.
  unfold storage.get_conversation, storage.write_file. simpl.
  now rewrite dict_get_set, str_eqb_refl.
Qed.

Lemma get_after_save (isoformat : nat -> str) (conversation_id : str)
    (c : Conversation) (w : World) :
  storage.get_conversation conversation_id
    (storage.save_conversation isoformat conversation_id c w) =
  Some (set_updated_at (isoformat (ticks w)) c).
Proof. unfold storage.save_conversation. simpl. apply get_after_write. Qed.

Lemma ticks_after_save (isoformat : nat -> str) (conversation_id : str)
    (c : Conversation) (w : World) :
  ticks (storage.save_conversation isoformat conversation_id c w) =
  S (ticks w).
Proof. reflexivity. Qed.

(** The path of an id that is a file name. *)
Lemma filepath_of_file_name (conversation_id : str) :
  file_name conversation_id ->
  storage.get_conversation_filepath conversation_id =
  lit "data/conversations/" ++ conversation_id ++ lit ".json".
Proof.
  intros [_ Hf]. unfold storage.get_conversation_filepath, path_join.
  destruct conversation_id as [|c s]; [reflexivity|].
  destruct (Hf c (or_introl eq_refl)) as [Hc _].
  cbn [app startswith lit map list_ascii_of_string].
  replace (char_eqb (N_of_ascii "/") c) with false; [reflexivity|].
  symmetry. destruct (char_eqb (N_of_ascii "/") c) eqn:E; [|reflexivity].
  apply char_eqb_eq in E. now subst c.
Qed.

Lemma filepath_injective (id id' : str) :
  file_name id -> file_name id' ->
  storage.get_conversation_filepath id =
  storage.get_conversation_filepath id' ->
  id = id'.
Proof.
  intros Hf Hf'. rewrite !filepath_of_file_name by assumption.
  intros H. apply app_inv_head in H. now apply app_inv_tail in H.
Qed.

Lemma get_other_write (id id' : str) (c : Conversation) (w : World) :
  file_name id -> file_name id' -> id <> id' ->
  storage.get_conversation id'
    (storage.write_file (storage.get_conversation_filepath id) c w) =
  storage.get_conversation id' w.
Proof.
  intros Hf Hf' Hne. unfold storage.get_conversation, storage.write_file.
  simpl. rewrite dict_get_set.
  destruct (str_eqb _ _) eqn:E; [|reflexivity].
  apply str_eqb_eq in E. now apply filepath_injective in E.
Qed.

(** What the three updates do to a conversation that exists. *)
Lemma add_user_message_run (isoformat : nat -> str)
    (conversation_id content : str) (c : Conversation) (w : World) :
  storage.get_conversation conversation_id w = Some c ->
  exists w',
    storage.add_user_message isoformat conversation_id content w =
      (true, w') /\
    storage.get_conversation conversation_id w' =
      Some (set_updated_at (isoformat (ticks w + 2))
              (append_message (user_message content (isoformat (ticks w)))
                 c)) /\
    ticks w' = ticks w + 3.
Proof.
  intros Hget. unfold storage.add_user_message. rewrite Hget.
  cbn [storage.datetime_now]. eexists. split; [reflexivity|].
  rewrite get_after_save, ticks_after_save. cbn [ticks].
  replace (ticks w + 2) with (S (S (ticks w))) by lia.
  split; [reflexivity | lia].
Qed.

Lemma add_assistant_message_run (isoformat : nat -> str)
    (conversation_id : str) (s1 : list ModelAnswer) (s2 : list JudgeRanking)
    (s3 : ModelAnswer) (c : Conversation) (w : World) :
  storage.get_conversation conversation_id w = Some c ->
  exists w',
    storage.add_assistant_message isoformat conversation_id s1 s2 s3 w =
      (true, w') /\
    storage.get_conversation conversation_id w' =
      Some (set_updated_at (isoformat (ticks w + 2))
              (append_message
                 (assistant_message s1 s2 s3 (isoformat (ticks w))) c)) /\
    ticks w' = ticks w + 3.
Proof.
  intros Hget. unfold storage.add_assistant_message. rewrite Hget.
  cbn [storage.datetime_now]. eexists. split; [reflexivity|].
  rewrite get_after_save, ticks_after_save. cbn [ticks].
  replace (ticks w + 2) with (S (S (ticks w))) by lia.
  split; [reflexivity | lia].
Qed.

Lemma update_conversation_title_run (isoformat : nat -> str)
    (conversation_id title : str) (c : Conversation) (w : World) :
  storage.get_conversation conversation_id w = Some c ->
  exists w',
    storage.update_conversation_title isoformat conversation_id title w =
      (true, w') /\
    storage.get_conversation conversation_id w' =
      Some (set_updated_at (isoformat (ticks w + 1)) (set_title title c)) /\
    ticks w' = ticks w + 2.
Proof.
  intros Hget. unfold storage.update_conversation_title. rewrite Hget.
  cbn [storage.datetime_now]. eexists. split; [reflexivity|].
  rewrite get_after_save, ticks_after_save. cbn [ticks].
  replace (ticks w + 1) with (S (ticks w)) by lia.
  split; [reflexivity | lia].
Qed.

(** On a conversation that does not exist the three updates and the
    deletion return [False] and leave the store as it is: no file is
    written and the clock is not read. *)
Theorem storage_missing_conversation (isoformat : nat -> str)
    (conversation_id : str) (w : World) :
  storage.get_conversation conversation_id w = None ->
  (forall content,
     storage.add_user_message isoformat conversation_id content w =
       (false, w)) /\
  (forall s1 s2 s3,
     storage.add_assistant_message isoformat conversation_id s1 s2 s3 w =
       (false, w)) /\
  (forall title,
     storage.update_conversation_title isoformat conversation_id title w =
       (false, w)) /\
  storage.delete_conversation conversation_id w = (false, w).
Proof.
  intros Hget.
  unfold storage.add_user_message, storage.add_assistant_message,
    storage.update_conversation_title, storage.delete_conversation.
  rewrite Hget. repeat split.
  unfold storage.get_conversation in Hget. unfold dict_mem.
  now rewrite Hget.
Qed.

Lemma storage_missing_conversation_witness :
  let w := {| files := []; ticks := 0 |} in
  (forall content,
     storage.add_user_message (fun _ => lit "t") (lit "c1") content w =
       (false, w)) /\
  (forall s1 s2 s3,
     storage.add_assistant_message (fun _ => lit "t") (lit "c1") s1 s2 s3 w =
       (false, w)) /\
  (forall title,
     storage.update_conversation_title (fun _ => lit "t") (lit "c1") title w =
       (false, w)) /\
  storage.delete_conversation (lit "c1") w = (false, w).
Proof.
  apply (storage_missing_conversation (fun _ => lit "t") (lit "c1")
           {| files := []; ticks := 0 |}).
  reflexivity.
Defined.

(** On a conversation that exists the three updates return [True], and
    what is then stored is the conversation changed in one place only:
    [add_user_message] and [add_assistant_message] put exactly one message
    at the end, holding the content (or the three stage results) given, and
    [update_conversation_title] sets the title. The id, the creation time
    and the earlier messages stay. A new message carries the first reading
    of the clock; [updated_at] is the last reading. *)
Theorem storage_updates_existing (isoformat : nat -> str)
    (conversation_id : str) (c : Conversation) (w : World) :
  storage.get_conversation conversation_id w = Some c ->
  (forall content,
     let r := storage.add_user_message isoformat conversation_id content w in
     fst r = true /\
     storage.get_conversation conversation_id (snd r) =
       Some {| conv_id := conv_id c;
               created_at := created_at c;
               conv_title := conv_title c;
               conv_messages :=
                 conv_messages c ++
                 [user_message content (isoformat (ticks w))];
               updated_at := isoformat (ticks w + 2) |}) /\
  (forall s1 s2 s3,
     let r :=
       storage.add_assistant_message isoformat conversation_id s1 s2 s3 w in
     fst r = true /\
     storage.get_conversation conversation_id (snd r) =
       Some {| conv_id := conv_id c;
               created_at := created_at c;
               conv_title := conv_title c;
               conv_messages :=
                 conv_messages c ++
                 [assistant_message s1 s2 s3 (isoformat (ticks w))];
               updated_at := isoformat (ticks w + 2) |}) /\
  (forall title,
     let r :=
       storage.update_conversation_title isoformat conversation_id title w in
     fst r = true /\
     storage.get_conversation conversation_id (snd r) =
       Some {| conv_id := conv_id c;
               created_at := created_at c;
               conv_title := title;
               conv_messages := conv_messages c;
               updated_at := isoformat (ticks w + 1) |}).
Proof.
  intros Hget. split; [|split].
  - intros content r.
    destruct (add_user_message_run isoformat conversation_id content c w
                Hget) as (w1 & Hrun & Hg & _).
    subst r. rewrite Hrun. simpl. split; [reflexivity | exact Hg].
  - intros s1 s2 s3 r.
    destruct (add_assistant_message_run isoformat conversation_id s1 s2 s3 c
                w Hget) as (w1 & Hrun & Hg & _).
    subst r. rewrite Hrun. simpl. split; [reflexivity | exact Hg].
  - intros title r.
    destruct (update_conversation_title_run isoformat conversation_id title c
                w Hget) as (w1 & Hrun & Hg & _).
    subst r. rewrite Hrun. simpl. split; [reflexivity | exact Hg].
Qed.

Lemma storage_updates_existing_witness :
  (forall content,
     let r := storage.add_user_message sample_clock (lit "c1") content
                sample_store in
     fst r = true /\
     storage.get_conversation (lit "c1") (snd r) =
       Some {| conv_id := conv_id sample_conversation;
               created_at := created_at sample_conversation;
               conv_title := conv_title sample_conversation;
               conv_messages :=
                 conv_messages sample_conversation ++
                 [user_message content (sample_clock (ticks sample_store))];
               updated_at := sample_clock (ticks sample_store + 2) |}) /\
  (forall s1 s2 s3,
     let r :=
       storage.add_assistant_message sample_clock (lit "c1") s1 s2 s3
         sample_store in
     fst r = true /\
     storage.get_conversation (lit "c1") (snd r) =
       Some {| conv_id := conv_id sample_conversation;
               created_at := created_at sample_conversation;
               conv_title := conv_title sample_conversation;
               conv_messages :=
                 conv_messages sample_conversation ++
                 [assistant_message s1 s2 s3
                    (sample_clock (ticks sample_store))];
               updated_at := sample_clock (ticks sample_store + 2) |}) /\
  (forall title,
     let r :=
       storage.update_conversation_title sample_clock (lit "c1") title
         sample_store in
     fst r = true /\
     storage.get_conversation (lit "c1") (snd r) =
       Some {| conv_id := conv_id sample_conversation;
               created_at := created_at sample_conversation;
               conv_title := title;
               conv_messages := conv_messages sample_conversation;
               updated_at := sample_clock (ticks sample_store + 1) |}).
Proof.
  apply (storage_updates_existing sample_clock (lit "c1") sample_conversation
           sample_store).
  reflexivity.
Defined.

(** Under an id that is a file name, [create_conversation] stores the
    conversation it returns (that id, the title "New Conversation", no
    message), replacing whatever was stored under the id. And
    [delete_conversation] returns [True] exactly when the conversation
    exists; afterwards the conversation does not exist and a second
    deletion returns [False]. *)
Theorem storage_create_delete (isoformat : nat -> str)
    (conversation_id : str) (w : World) :
  file_name conversation_id ->
  let created := storage.create_conversation isoformat conversation_id w in
  let deleted := storage.delete_conversation conversation_id w in
  (storage.get_conversation conversation_id (snd created) =
     Some (fst created) /\
   conv_id (fst created) = conversation_id /\
   conv_title (fst created) = lit "New Conversation" /\
   conv_messages (fst created) = []) /\
  (fst deleted = true <->
   storage.get_conversation conversation_id w <> None) /\
  storage.get_conversation conversation_id (snd deleted) = None /\
  storage.delete_conversation conversation_id (snd deleted) =
    (false, snd deleted).
Proof.
  intros _ created deleted. subst created deleted. split.
  { unfold storage.create_conversation.
    cbn [storage.datetime_now fst snd]. rewrite get_after_write.
    repeat split. }
  assert (Hafter :
            storage.get_conversation conversation_id
              (snd (storage.delete_conversation conversation_id w)) = None).
  { unfold storage.delete_conversation, storage.get_conversation, dict_mem.
    destruct (dict_get (files w) _) eqn:E; simpl;
      [apply dict_get_del_same | exact E]. }
  split; [|split; [exact Hafter|]].
  - unfold storage.delete_conversation, storage.get_conversation, dict_mem.
    destruct (dict_get (files w) _) eqn:E; simpl;
      split; congruence.
  - set (w' := snd (storage.delete_conversation conversation_id w)) in *.
    unfold storage.delete_conversation at 1. unfold dict_mem.
    unfold storage.get_conversation in Hafter. now rewrite Hafter.
Qed.

Lemma storage_create_delete_witness :
  let created :=
    storage.create_conversation sample_clock (lit "c1") sample_store in
  let deleted := storage.delete_conversation (lit "c1") sample_store in
  (storage.get_conversation (lit "c1") (snd created) = Some (fst created) /\
   conv_id (fst created) = lit "c1" /\
   conv_title (fst created) = lit "New Conversation" /\
   conv_messages (fst created) = []) /\
  (fst deleted = true <->
   storage.get_conversation (lit "c1") sample_store <> None) /\
  storage.get_conversation (lit "c1") (snd deleted) = None /\
  storage.delete_conversation (lit "c1") (snd deleted) =
    (false, snd deleted).
Proof.
  apply (storage_create_delete sample_clock (lit "c1") sample_store).
  split; [simpl; lia|].
  intros c [<- | [<- | []]]; repeat split; discriminate || reflexivity.
Defined.

(** Conversations do not interfere: creating, updating or deleting
    the conversation of one id leaves what is stored under every other id
    as it is (both ids being file names). *)
Theorem storage_other_conversations (isoformat : nat -> str)
    (id id' : str) (w : World) :
  file_name id -> file_name id' -> id <> id' ->
  let same w' :=
    storage.get_conversation id' w' = storage.get_conversation id' w in
  same (snd (storage.create_conversation isoformat id w)) /\
  (forall content,
     same (snd (storage.add_user_message isoformat id content w))) /\
  (forall s1 s2 s3,
     same (snd (storage.add_assistant_message isoformat id s1 s2 s3 w))) /\
  (forall title,
     same (snd (storage.update_conversation_title isoformat id title w))) /\
  same (snd (storage.delete_conversation id w)).
Proof.
  intros Hf Hf' Hne same. subst same. cbv beta.
  assert (Hsave : forall c w0,
            storage.get_conversation id'
              (storage.save_conversation isoformat id c w0) =
            storage.get_conversation id' w0).
  { intros c w0. unfold storage.save_conversation.
    cbn [storage.datetime_now]. now rewrite get_other_write. }
  repeat split.
  - unfold storage.create_conversation. cbn [storage.datetime_now snd].
    now rewrite get_other_write.
  - intros content. unfold storage.add_user_message.
    destruct (storage.get_conversation id w); [|reflexivity].
    cbn [storage.datetime_now snd]. now rewrite Hsave.
  - intros s1 s2 s3. unfold storage.add_assistant_message.
    destruct (storage.get_conversation id w); [|reflexivity].
    cbn [storage.datetime_now snd]. now rewrite Hsave.
  - intros title. unfold storage.update_conversation_title.
    destruct (storage.get_conversation id w); [|reflexivity].
    cbn [storage.datetime_now snd]. now rewrite Hsave.
  - unfold storage.delete_conversation.
    destruct (dict_mem _ _); [|reflexivity].
    unfold storage.get_conversation. simpl.
    apply dict_get_del_other. intros E.
    now apply filepath_injective in E.
Qed.

Lemma storage_other_conversations_witness :
  let same w' :=
    storage.get_conversation (lit "c1") w' =
    storage.get_conversation (lit "c1") sample_store in
  same (snd (storage.create_conversation sample_clock (lit "c2")
               sample_store)) /\
  (forall content,
     same (snd (storage.add_user_message sample_clock (lit "c2") content
                  sample_store))) /\
  (forall s1 s2 s3,
     same (snd (storage.add_assistant_message sample_clock (lit "c2") s1 s2
                  s3 sample_store))) /\
  (forall title,
     same (snd (storage.update_conversation_title sample_clock (lit "c2")
                  title sample_store))) /\
  same (snd (storage.delete_conversation (lit "c2") sample_store)).
Proof.
  apply (storage_other_conversations sample_clock (lit "c2") (lit "c1")
           sample_store).
  - split; [simpl; lia|].
    intros c [<- | [<- | []]]; repeat split; discriminate || reflexivity.
  - split; [simpl; lia|].
    intros c [<- | [<- | []]]; repeat split; discriminate || reflexivity.
  - discriminate.
Defined.

(** ** The batch endpoint *)

Lemma generate_title_run (invoke : Oracle) (user_query : str) (log : Log) :
  exists title,
    generate_conversation_title invoke user_query log =
      (Ok title,
       log ++ [Invoke (request TITLE_MODEL (title_messages user_query) 30)]).
Proof.
  unfold generate_conversation_title.
  rewrite (@bind_Ok _ _ _ _ _ _ _ (query_model_run invoke _ _ _ _)).
  destruct (invoke log _) as [c|]; eexists; reflexivity.
Qed.

(** The title step of an endpoint: taken or not, it does not raise. *)
Lemma title_step (invoke : Oracle) (conversation_id text : str) (b : bool)
    {B} (k : unit -> M B) (log : Log) :
  exists title,
    bind (if b
          then title <- generate_conversation_title invoke text ;;
               effect (Store (update_conversation_title conversation_id
                                title))
          else ret tt) k log =
    k tt (log ++
          if b
          then [Invoke (request TITLE_MODEL (title_messages text) 30);
                Store (update_conversation_title conversation_id title)]
          else []).
Proof.
  destruct b.
  - destruct (generate_title_run invoke text log) as [title Ht].
    exists title. unfold bind at 1 2. rewrite Ht. unfold effect.
    now rewrite <- app_assoc.
  - exists []. unfold bind, ret. now rewrite app_nil_r.
Qed.

Lemma retitle_step (invoke : Oracle) (conversation_id text : str) (b : bool)
    {B} (k : unit -> M B) (log : Log) :
  exists title,
    bind (if b
          then match text with
               | [] => ret tt
               | _ :: _ =>
                   title <- generate_conversation_title invoke text ;;
                   effect (Store (update_conversation_title conversation_id
                                    title))
               end
          else ret tt) k log =
    k tt (log ++
          if b && match text with [] => false | _ :: _ => true end
          then [Invoke (request TITLE_MODEL (title_messages text) 30);
                Store (update_conversation_title conversation_id title)]
          else []).
Proof.
  destruct b; [destruct text as [|x text']|].
  - exists []. unfold bind, ret. simpl. now rewrite app_nil_r.
  - destruct (title_step invoke conversation_id (x :: text') true k log)
      as [title H].
    exists title. exact H.
  - exists []. unfold bind, ret. simpl. now rewrite app_nil_r.
Qed.

(** The run of [send_message] on a conversation that exists, effect by
    effect. *)
Lemma send_message_stages (invoke : Oracle) (conversation_id : str)
    (c : Conversation) (user_query : str) (log : Log) :
  let messages := loaded_messages c in
  let is_first := Nat.eqb (length messages) 0 in
  let retitle :=
    negb is_first && str_eqb (conv_title c) (lit "New Conversation") &&
    match recent_text_of messages with [] => false | _ :: _ => true end in
  exists title title' s1 s2 s3 md log1 log2,
    log1 =
      log ++ [Store (add_user_message conversation_id user_query)] ++
      (if is_first
       then [Invoke (request TITLE_MODEL (title_messages user_query) 30);
             Store (update_conversation_title conversation_id title)]
       else []) /\
    run_full_council invoke user_query (removelast messages) log1 =
      (Ok (s1, s2, s3, md), log2) /\
    send_message invoke conversation_id (Some c) user_query log =
      (Ok (HTTP_200
             {| sent_conversation_id := conversation_id;
                sent_stage1 := s1;
                sent_stage2 := s2;
                sent_stage3 := s3;
                sent_metadata := md;
                sent_is_first_message := is_first |}),
       log2 ++
       [Store (add_assistant_message conversation_id s1 s2 s3)] ++
       (if retitle
        then [Invoke (request TITLE_MODEL
                        (title_messages (recent_text_of messages)) 30);
              Store (update_conversation_title conversation_id title')]
        else [])).
Proof.
  intros messages is_first retitle.
  unfold send_message. fold messages. fold is_first.
  rewrite bind_effect.
  set (log0 := log ++ [Store (add_user_message conversation_id user_query)]).
  match goal with
  | |- context [bind (if is_first then ?a else ?b) ?k log0] =>
      destruct (title_step invoke conversation_id user_query is_first k log0)
        as [title Ht]
  end.
  set (log1 := log0 ++
         (if is_first
          then [Invoke (request TITLE_MODEL (title_messages user_query) 30);
                Store (update_conversation_title conversation_id title)]
          else [])) in *.
  destruct (run_full_council_returns invoke user_query (removelast messages)
              log1) as (s1 & s2 & s3 & md & log2 & Hrun & _).
  exists title.
  rewrite Ht. rewrite (@bind_Ok _ _ _ _ _ _ _ Hrun). cbv iota beta.
  rewrite bind_effect.
  set (log3 := log2 ++ [Store (add_assistant_message conversation_id s1 s2
                                 s3)]).
  match goal with
  | |- context [bind (if ?b then _ else _) ?k log3] =>
      destruct (retitle_step invoke conversation_id
                  (recent_text_of messages) b k log3) as [title' Ht']
  end.
  exists title', s1, s2, s3, md, log1, log2.
  split; [subst log1 log0; now rewrite <- app_assoc|].
  split; [exact Hrun|].
  rewrite Ht'. unfold ret. subst log3 retitle. now rewrite <- app_assoc.
Qed.




Lemma length_loaded_messages (c : Conversation) :
  length (loaded_messages c) = length (conv_messages c).
Proof. apply length_map. Qed.


(** ** The two endpoints and the store *)

(** When the replies depend on the request only and stage 1 has an answer,
    the streaming endpoint stores what the batch endpoint stores and
    returns for the same conversation and message: the user message, a
    title when the conversation had no message, and the assistant message
    with the same three stage results. *)
Theorem endpoints_store_same_answer (invoke : Oracle)
    (conversation_id : str) (c : Conversation) (user_query : str)
    (log log' : Log) :
  stateless invoke ->
  exists r logb title,
    send_message invoke conversation_id (Some c) user_query log =
      (Ok (HTTP_200 r), logb) /\
    (sent_stage1 r <> [] ->
     stored (snd (event_generator invoke conversation_id (loaded_messages c)
                    user_query log')) =
       stored log' ++
       [add_user_message conversation_id user_query] ++
       match conv_messages c with
       | [] => [update_conversation_title conversation_id title]
       | _ :: _ => []
       end ++
       [add_assistant_message conversation_id (sent_stage1 r)
          (sent_stage2 r) (sent_stage3 r)]).
Proof.
  intros Hst.
  destruct (send_message_stages invoke conversation_id c user_query log)
    as (t & t' & s1 & s2 & s3 & md & log1 & log2 & _ & Hrun & Hsend).
  destruct (event_generator_stages invoke conversation_id (loaded_messages c)
              user_query log')
    as (s1' & s2' & s3' & aggr' & title & Hgen & _ & _).
  eexists. eexists. exists title. split; [exact Hsend|].
  cbn [sent_stage1 sent_stage2 sent_stage3]. intros Hne.
  destruct (stream_agrees_with_batch invoke conversation_id
              (loaded_messages c) user_query log1 log' log2 s1 s2 s3 md Hst
              Hrun Hne)
    as (reg & aggr & ctx & tev & _ & _ & Hy & _).
  rewrite Hgen in Hy |- *. cbn [snd] in Hy |- *.
  revert Hy. trace_simpl. intros Hy. apply app_inv_head in Hy.
  assert (E : s1' = s1 /\ s2' = s2 /\ s3' = s3).
  { unfold loaded_messages in Hy.
    destruct (conv_messages c); cbn in Hy; injection Hy as E1 E2 E3;
      now subst. }
  destruct E as (-> & -> & ->).
  unfold loaded_messages.
  destruct (conv_messages c); cbn; now rewrite ?app_nil_r.
Qed.

Lemma endpoints_store_same_answer_witness :
  exists r logb title,
    send_message chairman_down (lit "c1") (Some sample_conversation)
      sample_query [] = (Ok (HTTP_200 r), logb) /\
    (sent_stage1 r <> [] ->
     stored (snd (event_generator chairman_down (lit "c1")
                    (loaded_messages sample_conversation) sample_query [])) =
       stored [] ++
       [add_user_message (lit "c1") sample_query] ++
       match conv_messages sample_conversation with
       | [] => [update_conversation_title (lit "c1") title]
       | _ :: _ => []
       end ++
       [add_assistant_message (lit "c1") (sent_stage1 r) (sent_stage2 r)
          (sent_stage3 r)]).
Proof.
  apply (endpoints_store_same_answer chairman_down (lit "c1")
           sample_conversation sample_query [] []).
  exact chairman_down_stateless.
Defined.

(** *** The conversation after a message *)








(** *** The context of a message *)

(** Both message endpoints take the context from the conversation as it
    was loaded, which does not hold the new message, and leave out its last
    message: the run of the streaming generator is the same whatever the
    last stored message is, and so is the run of the batch endpoint when
    the title is not "New Conversation". *)
Theorem context_leaves_out_last_message (invoke : Oracle)
    (conversation_id user_query : str) (earlier : list StoredMessage)
    (m m' : StoredMessage) (c c' : Conversation) :
  conv_messages c = earlier ++ [m] ->
  conv_messages c' = earlier ++ [m'] ->
  event_generator invoke conversation_id (loaded_messages c) user_query =
    event_generator invoke conversation_id (loaded_messages c') user_query /\
  (conv_title c = conv_title c' ->
   conv_title c <> lit "New Conversation" ->
   send_message invoke conversation_id (Some c) user_query =
     send_message invoke conversation_id (Some c') user_query).
Proof.
  intros Hc Hc'.
  assert (Hr : removelast (loaded_messages c) =
               removelast (loaded_messages c')).
  { unfold loaded_messages. rewrite Hc, Hc', !map_app. cbn [map].
    now rewrite !removelast_last. }
  assert (Hl : forall x, conv_messages x = earlier ++ [m] \/
                         conv_messages x = earlier ++ [m'] ->
                         Nat.eqb (length (loaded_messages x)) 0 = false).
  { intros x [H | H]; rewrite length_loaded_messages, H, length_app;
      cbn [length]; apply Nat.eqb_neq; lia. }
  split.
  - unfold event_generator.
    rewrite Hr, (Hl c (or_introl Hc)), (Hl c' (or_intror Hc')).
    reflexivity.
  - intros Ht Hnew. unfold send_message.
    rewrite Hr, (Hl c (or_introl Hc)), (Hl c' (or_intror Hc')), <- Ht.
    apply str_eqb_neq in Hnew. rewrite Hnew. reflexivity.
Qed.

Lemma context_leaves_out_last_message_witness :
  let c m :=
    {| conv_id := lit "c1"; created_at := lit "T";
       conv_title := lit "Tunneling";
       conv_messages := [] ++ [m]; updated_at := lit "T+" |} in
  let m := user_message (lit "What is tunneling?") (lit "T") in
  let m' := assistant_message [] [] all_failed (lit "T") in
  event_generator chairman_down (lit "c1") (loaded_messages (c m))
    sample_query =
    event_generator chairman_down (lit "c1") (loaded_messages (c m'))
      sample_query /\
  (conv_title (c m) = conv_title (c m') ->
   conv_title (c m) <> lit "New Conversation" ->
   send_message chairman_down (lit "c1") (Some (c m)) sample_query =
     send_message chairman_down (lit "c1") (Some (c m')) sample_query).
Proof.
  cbv zeta.
  apply (context_leaves_out_last_message chairman_down (lit "c1")
           sample_query []
           (user_message (lit "What is tunneling?") (lit "T"))
           (assistant_message [] [] all_failed (lit "T"))
           {| conv_id := lit "c1"; created_at := lit "T";
              conv_title := lit "Tunneling";
              conv_messages :=
                [] ++ [user_message (lit "What is tunneling?") (lit "T")];
              updated_at := lit "T+" |}
           {| conv_id := lit "c1"; created_at := lit "T";
              conv_title := lit "Tunneling";
              conv_messages :=
                [] ++ [assistant_message [] [] all_failed (lit "T")];
              updated_at := lit "T+" |}); reflexivity.
Defined.
